(** * HeavyKeeper top-K sketch (package topk): a shallow embedding

    The development follows the Go sources of the package: the structure
    [HeavyKeeper] with its flat counter matrix [buckets] and its fixed-length
    min-heap [heap], the constructor [New], the update [Sample], the readers
    [Top]/[TopInto] and [Count], and the maintenance operations [DecayAll]
    and [Reset]. The earlier entry point [Add] of topk.go is embedded in the
    module [TopkGo].

    Modelling conventions:
    - [uint32] values are integers of [Z] in [0, 2^32) with the wrap-around of
      the machine operations written out ([u32]);
    - [int] values are integers of [Z]; slice indices are turned into [nat]
      at the access, and an access out of range is a run-time panic;
    - [float64] values are the IEEE 754 binary64 numbers of [SpecFloat]
      (precision 53, emax 1024), operated by [SFmul], [SFsub], [SFcompare];
    - a panic is the outcome [Panic msg]; operations that can panic live in
      the error monad [outcome];
    - the global source [rand.Float64] is an explicit generator state [Rand];
    - the functions of other packages that the code calls and whose sources
      are not part of the package ([xxhash.ChecksumString32S], [math.Log],
      [math.Pow]) are [Variable]s of the section; concrete instances for the
      closed examples are in the module [Instances];
    - [heap.Fix] of container/heap and [sort.Stable] of sort belong to the
      Go standard library: the first is embedded with its loops [up] and
      [down], the second is modelled by a stable insertion sort. *)

From Stdlib Require Import ZArith String Ascii Bool Lia.
From Stdlib Require Import Floats.SpecFloat Floats.PrimFloat Floats.FloatOps.
From Stdlib Require Import Sorting.Sorted Sorting.Permutation.
From stdpp Require Import list sorting.

Local Open Scope Z_scope.

(** ** Outcomes: a value or a Go panic *)

Inductive outcome (A : Type) : Type :=
| Ret (a : A)
| Panic (msg : string).
Arguments Ret {A} a.
Arguments Panic {A} msg.

Definition bind {A B : Type} (m : outcome A) (k : A -> outcome B) : outcome B :=
  match m with
  | Ret a => k a
  | Panic msg => Panic msg
  end.

Notation "'letp' x ':=' m 'in' k" := (bind m (fun x => k))
  (at level 10, x pattern, m at level 100, k at level 200,
   format "'[v' 'letp'  x  ':='  m  'in' '/' k ']'").

Definition returns {A : Type} (m : outcome A) : Prop := exists a, m = Ret a.

(** ** Machine integers *)

Definition MaxUint32 : Z := 4294967295.

(** The value of an integer seen as a [uint32]. *)
Definition u32 (z : Z) : Z := z mod 2 ^ 32.

Definition is_u32 (z : Z) : Prop := 0 <= z < 2 ^ 32.

(** [func max(a, b uint32) uint32] *)
Definition max (a b : Z) : Z := if a <? b then b else a.

(** ** float64 *)

Definition float64 : Type := spec_float.

Definition f64_mul : float64 -> float64 -> float64 := SFmul prec emax.
Definition f64_sub : float64 -> float64 -> float64 := SFsub prec emax.
Definition f64_ltb : float64 -> float64 -> bool := SFltb.
Definition f64_leb : float64 -> float64 -> bool := SFleb.

(** The conversions [float64(k)] of an [int] and [float64(c)] of a [uint32]:
    the nearest binary64 number. *)
Definition float64_of_int (z : Z) : float64 := binary_normalize prec emax z 0 false.

Definition f64_zero : float64 := S754_zero false.
Definition f64_one : float64 := Eval vm_compute in float64_of_int 1.

(** The integer part of a finite number, truncated toward zero ([Z.quot]
    rounds toward zero); [None] for NaN and the infinities. *)
Definition trunc (f : float64) : option Z :=
  match f with
  | S754_zero _ => Some 0
  | S754_finite s m e =>
      let v := if s then Z.neg m else Z.pos m in
      Some (if 0 <=? e then v * 2 ^ e else Z.quot v (2 ^ (- e)))
  | S754_infinity _ | S754_nan => None
  end.

(** The conversion [int(f)]: truncation toward zero. The Go specification
    leaves the result open when the value does not fit; the value kept here
    is the one of amd64 (the "integer indefinite" of CVTTSD2SQ). *)
Definition int_of_float64 (f : float64) : Z :=
  match trunc f with
  | Some z => if (- 2 ^ 63 <=? z) && (z <? 2 ^ 63) then z else - 2 ^ 63
  | None => - 2 ^ 63
  end.

(** The conversion [uint32(f)]: on amd64 the low 32 bits of [int64(f)]. *)
Definition uint32_of_float64 (f : float64) : Z := u32 (int_of_float64 f).

(** ** The random source *)

(** [rand.Float64] reads the next number of a sequence of draws in [0, 1). *)
Record Rand : Type := mkRand { draws : nat -> float64; pos : nat }.

Definition rand_Float64 (g : Rand) : float64 * Rand :=
  (draws g (pos g), mkRand (draws g) (S (pos g))).

(** ** Data *)

(** [type bucket struct { fingerprint uint32; count uint32 }] *)
Record bucket : Type := mkBucket { bucket_fingerprint : Z; count : Z }.

(** [type FlowCount struct { Flow string; Count uint32 }] *)
Record FlowCount : Type := mkFlowCount { Flow : string; Count : Z }.

(** [type minHeap []FlowCount] *)
Abbreviation minHeap := (list FlowCount).

(** The zero values [bucket{}] and [FlowCount{}]. *)
Definition bucket0 : bucket := mkBucket 0 0.
Definition FlowCount0 : FlowCount := mkFlowCount EmptyString 0.

#[global] Instance string_eq_dec : EqDecision string := String.string_dec.
#[global] Instance bucket_inhabited : Inhabited bucket := populate bucket0.
#[global] Instance FlowCount_inhabited : Inhabited FlowCount := populate FlowCount0.

(** [type HeavyKeeper struct { decay float64; depth, width int;
      buckets []bucket; heap minHeap }] *)
Record HeavyKeeper : Type := mkHeavyKeeper {
  decay : float64;
  depth : Z;
  width : Z;
  buckets : list bucket;
  heap : minHeap
}.

(** Indexing a slice with an [int]: a panic when out of range. *)
Definition index {A : Type} (l : list A) (j : Z) : outcome A :=
  if j <? 0 then Panic "runtime error: index out of range"
  else match l !! Z.to_nat j with
       | Some x => Ret x
       | None => Panic "runtime error: index out of range"
       end.

(** The built-in [copy(dst, src)]: the first [min(len(dst), len(src))]
    elements of [dst] become those of [src]. *)
Definition copy {A : Type} (dst src : list A) : list A :=
  take (length dst) src ++ drop (length src) dst.

(** The outcome of a computation seen through a function of its value. *)
Definition outcome_map {A B : Type} (f : A -> B) (m : outcome A) : outcome B :=
  letp a := m in Ret (f a).

(** ** The min-heap: [minHeap]'s methods and [container/heap] *)

Definition Len (h : minHeap) : nat := length h.

(** [func (h minHeap) Less(i, j int) bool { return h[i].Count < h[j].Count }] *)
Definition Less (h : minHeap) (i j : nat) : bool :=
  Count (h !!! i) <? Count (h !!! j).

(** [func (h minHeap) Swap(i, j int) { h[i], h[j] = h[j], h[i] }] *)
Definition Swap (h : minHeap) (i j : nat) : minHeap :=
  <[j := h !!! i]> (<[i := h !!! j]> h).

(** [func (h minHeap) Min() uint32 { return h[0].Count }] *)
Definition Min (h : minHeap) : outcome Z :=
  letp e := index h 0 in Ret (Count e).

(** [func (h minHeap) Find(flow string) (i int)]: the first index holding
    [flow], or [-1]. *)
Fixpoint Find_from (h : minHeap) (flow : string) (i : Z) : Z :=
  match h with
  | [] => -1
  | e :: h' => if String.eqb (Flow e) flow then i else Find_from h' flow (i + 1)
  end.

Definition Find (h : minHeap) (flow : string) : Z := Find_from h flow 0.

(** [func (h *minHeap) Push(x interface{})]: the heap becomes
    [append] of the heap and [x]. *)
Definition Push (h : minHeap) (x : FlowCount) : minHeap := h ++ [x].

(** [func (h *minHeap) Pop() interface{}]: [old[n-1]] panics on the empty
    heap; the heap becomes [old[0 : n-1]]. *)
Definition Pop (h : minHeap) : outcome (FlowCount * minHeap) :=
  let n := Z.of_nat (length h) in
  letp x := index h (n - 1) in
  Ret (x, take (Z.to_nat (n - 1)) h).

(** [heap.up] of container/heap. The loop runs while [j] has a parent that
    is larger; [fuel] bounds the number of iterations ([j] strictly
    decreases, so [S j] iterations are enough, see [up_loop_fuel]). *)
Fixpoint up_loop (fuel : nat) (h : minHeap) (j : nat) : minHeap :=
  match fuel with
  | O => h
  | S fuel' =>
      let i := ((j - 1) / 2)%nat in (* parent *)
      if (i =? j)%nat || negb (Less h j i) then h
      else up_loop fuel' (Swap h i j) i
  end.

Definition up (h : minHeap) (j : nat) : minHeap := up_loop (S j) h j.

(** [heap.down] of container/heap; the result carries the final index, from
    which [down] computes its boolean [i > i0]. The guard [j1 < 0] of the
    source (overflow of [int]) has no counterpart on [nat]. *)
Fixpoint down_loop (fuel : nat) (h : minHeap) (i n : nat) : minHeap * nat :=
  match fuel with
  | O => (h, i)
  | S fuel' =>
      let j1 := (2 * i + 1)%nat in
      if (n <=? j1)%nat then (h, i)
      else
        let j := if (j1 + 1 <? n)%nat && Less h (j1 + 1) j1
                 then (j1 + 1)%nat else j1 in
        if negb (Less h j i) then (h, i)
        else down_loop fuel' (Swap h i j) j n
  end.

Definition down (h : minHeap) (i0 n : nat) : minHeap * bool :=
  let '(h', i) := down_loop n h i0 n in (h', (i0 <? i)%nat).

(** [func Fix(h Interface, i int) { if !down(h, i, h.Len()) { up(h, i) } }] *)
Definition heap_Fix (h : minHeap) (i : nat) : minHeap :=
  let '(h', moved) := down h i (Len h) in
  if negb moved then up h' i else h'.

(** ** Sorting: [sort.Stable(sort.Reverse(byCount(top)))] *)

(** [byCount.Less] on two entries, and its reversal by [sort.Reverse]. *)
Definition byCount_Less (a b : FlowCount) : bool := Count a <? Count b.
Definition reverse_Less (a b : FlowCount) : bool := byCount_Less b a.

(** [sort.Stable] belongs to package sort; it is modelled by the insertion
    sort it runs on its blocks. A stable sort has one possible result
    ([stable_sort_unique] below), so the choice of the algorithm does not
    show in the result. *)
Fixpoint insert_sorted (less : FlowCount -> FlowCount -> bool)
    (x : FlowCount) (l : list FlowCount) : list FlowCount :=
  match l with
  | [] => [x]
  | y :: l' => if less y x then y :: insert_sorted less x l' else x :: y :: l'
  end.

Fixpoint sort_Stable (less : FlowCount -> FlowCount -> bool)
    (l : list FlowCount) : list FlowCount :=
  match l with
  | [] => []
  | x :: l' => insert_sorted less x (sort_Stable less l')
  end.

(** The trimming loop of [TopInto]:
    [for ; end > 0; end-- { if top[end-1].Count > 0 { break } }]. *)
Fixpoint trim_end (top : list FlowCount) (end_ : nat) : nat :=
  match end_ with
  | O => O
  | S e => if 0 <? Count (top !!! e) then S e else trim_end top e
  end.

(** ** The sketch *)

Section HeavyKeeper.

(** [xxhash.ChecksumString32S(s, seed)], [math.Log] and [math.Pow]. *)
Variable ChecksumString32S : string -> Z -> Z.
Variable Log : float64 -> float64.
Variable Pow : float64 -> float64 -> float64.

(** [func fingerprint(flow string) uint32] *)
Definition fingerprint (flow : string) : Z :=
  u32 (ChecksumString32S flow MaxUint32).

(** [func slot(flow string, row, width uint32) uint32]: the remainder
    panics when [width] is zero. *)
Definition slot (flow : string) (row width : Z) : outcome Z :=
  if width =? 0 then Panic "runtime error: integer divide by zero"
  else Ret (u32 (ChecksumString32S flow row) mod width).

(** [func New(k int, decay float64) *HeavyKeeper]. Allocation limits are
    not modelled: [make] always succeeds. *)
Definition New (k : Z) (decay : float64) : outcome HeavyKeeper :=
  if k <? 1 then Panic "k must be >= 1"
  else if f64_leb decay f64_zero || f64_ltb f64_one decay
  then Panic "decay must be in range (0, 1.0]"
  else
    let width := int_of_float64 (f64_mul (float64_of_int k) (Log (float64_of_int k))) in
    let width := if width <? 256 then 256 else width in
    let depth := int_of_float64 (Log (float64_of_int k)) in
    let depth := if depth <? 3 then 3 else depth in
    Ret {| decay := decay;
           depth := depth;
           width := width;
           buckets := replicate (Z.to_nat (depth * width)) bucket0;
           heap := replicate (Z.to_nat k) FlowCount0 |}.

(** The decay loop of [Sample] on the cell [b]:
    [for localIncr := incr; localIncr > 0; localIncr-- { ... }].
    The loop variable counts down to zero, so the recursion is on it. The
    result is the cell, [maxCount] and the generator after the loop. *)
Fixpoint decay_loop (dec : float64) (fp : Z) (localIncr : nat)
    (b : bucket) (maxCount : Z) (g : Rand) : bucket * Z * Rand :=
  match localIncr with
  | O => (b, maxCount, g)
  | S localIncr' =>
      let '(r, g1) := rand_Float64 g in
      if f64_ltb r (Pow dec (float64_of_int (count b))) then
        let c := u32 (count b - 1) in
        if c <=? 0 then
          (mkBucket fp (Z.of_nat localIncr), max maxCount (Z.of_nat localIncr), g1)
        else
          decay_loop dec fp localIncr' (mkBucket (bucket_fingerprint b) c) maxCount g1
      else decay_loop dec fp localIncr' b maxCount g1
  end.

(** The body of the loop over the rows, at row [i]. *)
Definition Sample_row (hk : HeavyKeeper) (flow : string) (fp incr : Z) (i : Z)
    (st : list bucket * Z * Rand) : outcome (list bucket * Z * Rand) :=
  let '(buckets, maxCount, g) := st in
  letp s := slot flow (u32 i) (u32 (width hk)) in
  let j := s + i * width hk in
  letp b := index buckets j in
  if count b =? 0 then
    Ret (<[Z.to_nat j := mkBucket fp incr]> buckets, max maxCount incr, g)
  else if bucket_fingerprint b =? fp then
    let c := u32 (count b + incr) in
    Ret (<[Z.to_nat j := mkBucket (bucket_fingerprint b) c]> buckets, max maxCount c, g)
  else
    let '(b', maxCount', g') := decay_loop (decay hk) fp (Z.to_nat incr) b maxCount g in
    Ret (<[Z.to_nat j := b']> buckets, maxCount', g').

(** [for i := 0; i < depth; i++ { ... }]: [n] rows remain from row [i]. *)
Fixpoint Sample_rows (hk : HeavyKeeper) (flow : string) (fp incr : Z)
    (n : nat) (i : Z) (st : list bucket * Z * Rand)
    : outcome (list bucket * Z * Rand) :=
  match n with
  | O => Ret st
  | S n' =>
      letp st' := Sample_row hk flow fp incr i st in
      Sample_rows hk flow fp incr n' (i + 1) st'
  end.

(** The first half of [Sample]: the update of the counter matrix, which
    yields the new cells, [maxCount] and the generator. *)
Definition Sample_matrix (hk : HeavyKeeper) (flow : string) (incr : Z) (g : Rand)
    : outcome (list bucket * Z * Rand) :=
  Sample_rows hk flow (fingerprint flow) incr (Z.to_nat (depth hk)) 0 (buckets hk, 0, g).

(** The second half of [Sample]: the update of the heap. *)
Definition Sample_heap (h : minHeap) (flow : string) (maxCount heapMin : Z)
    : minHeap * bool :=
  if heapMin <=? maxCount then
    let i := Find h flow in
    if -1 <? i then
      (* update in-place if in minHeap *)
      let h1 := <[Z.to_nat i := mkFlowCount (Flow (h !!! Z.to_nat i)) maxCount]> h in
      (heap_Fix h1 (Z.to_nat i), true)
    else
      let h1 := <[0%nat := mkFlowCount flow (Count (h !!! 0%nat))]> h in
      let h2 := <[0%nat := mkFlowCount (Flow (h1 !!! 0%nat)) maxCount]> h1 in
      (heap_Fix h2 0, true)
  else (h, false).

(** [func (hk *HeavyKeeper) Sample(flow string, incr uint32) bool] *)
Definition Sample (hk : HeavyKeeper) (flow : string) (incr : Z) (g : Rand)
    : outcome (bool * HeavyKeeper * Rand) :=
  letp heapMin := Min (heap hk) in
  letp (buckets', maxCount, g') := Sample_matrix hk flow incr g in
  let '(heap', admitted) := Sample_heap (heap hk) flow maxCount heapMin in
  Ret (admitted,
       {| decay := decay hk; depth := depth hk; width := width hk;
          buckets := buckets'; heap := heap' |},
       g').

(** [func (hk *HeavyKeeper) TopInto(top []FlowCount) []FlowCount]; the
    sketch is returned with the result, as the method has access to it. *)
Definition TopInto (hk : HeavyKeeper) (top : list FlowCount)
    : list FlowCount * HeavyKeeper :=
  let top := take 0 top ++ heap hk in
  let top := sort_Stable reverse_Less top in
  (take (trim_end top (length top)) top, hk).

(** [func (hk *HeavyKeeper) Top() []FlowCount { return hk.TopInto(nil) }] *)
Definition Top (hk : HeavyKeeper) : list FlowCount * HeavyKeeper := TopInto hk [].

(** [func (hk *HeavyKeeper) Count(flow string) (count uint32, ok bool)] *)
Fixpoint Count_loop (h : minHeap) (flow : string) : Z * bool :=
  match h with
  | [] => (0, false)
  | hb :: h' => if String.eqb (Flow hb) flow then (Count hb, true) else Count_loop h' flow
  end.

Definition HeavyKeeper_Count (hk : HeavyKeeper) (flow : string) : Z * bool :=
  Count_loop (heap hk) flow.

(** [func (hk *HeavyKeeper) Reset()] *)
Definition Reset (hk : HeavyKeeper) : HeavyKeeper :=
  {| decay := decay hk; depth := depth hk; width := width hk;
     buckets := (fun _ => bucket0) <$> buckets hk;
     heap := (fun _ => FlowCount0) <$> heap hk |}.

(** [uint32(float64(c) * pct)] *)
Definition scale (pct : float64) (c : Z) : Z :=
  uint32_of_float64 (f64_mul (float64_of_int c) pct).

(** [func (hk *HeavyKeeper) DecayAll(pct float64)] *)
Definition DecayAll (hk : HeavyKeeper) (pct : float64) : HeavyKeeper :=
  if f64_leb pct f64_zero then hk
  else if f64_ltb f64_one pct then Reset hk
  else
    let pct := f64_sub f64_one pct in
    {| decay := decay hk; depth := depth hk; width := width hk;
       buckets := (fun b => mkBucket (bucket_fingerprint b) (scale pct (count b))) <$> buckets hk;
       heap := (fun e => mkFlowCount (Flow e) (scale pct (Count e))) <$> heap hk |}.

End HeavyKeeper.

(** ** The earlier entry point [Add] of topk.go *)

Module TopkGo.

(** [type HeavyKeeper struct { decay float64; buckets [][]bucket;
      heap minHeap }] *)
Record HeavyKeeper : Type := mkHeavyKeeper {
  decay : float64;
  buckets : list (list bucket);
  heap : minHeap
}.

Section Add.

Variable ChecksumString32S : string -> Z -> Z.
Variable Pow : float64 -> float64 -> float64.

(** The body of [for i, row := range hk.buckets { ... }] on the row [row]. *)
Definition Add_row (dec : float64) (flow : string) (fp incr : Z) (i : Z)
    (row : list bucket) (maxCount : Z) (g : Rand)
    : outcome (list bucket * Z * Rand) :=
  letp j := slot ChecksumString32S flow (u32 i) (u32 (Z.of_nat (length row))) in
  letp b := index row j in
  if count b =? 0 then
    Ret (<[Z.to_nat j := mkBucket fp incr]> row, max maxCount incr, g)
  else if bucket_fingerprint b =? fp then
    let c := u32 (count b + incr) in
    Ret (<[Z.to_nat j := mkBucket (bucket_fingerprint b) c]> row, max maxCount c, g)
  else
    let '(b', maxCount', g') := decay_loop Pow dec fp (Z.to_nat incr) b maxCount g in
    Ret (<[Z.to_nat j := b']> row, maxCount', g').

Fixpoint Add_rows (dec : float64) (flow : string) (fp incr : Z) (i : Z)
    (rows : list (list bucket)) (maxCount : Z) (g : Rand)
    : outcome (list (list bucket) * Z * Rand) :=
  match rows with
  | [] => Ret ([], maxCount, g)
  | row :: rows' =>
      letp (row', maxCount', g') := Add_row dec flow fp incr i row maxCount g in
      letp (rows'', maxCount'', g'') :=
        Add_rows dec flow fp incr (i + 1) rows' maxCount' g' in
      Ret (row' :: rows'', maxCount'', g'')
  end.

(** [func (hk *HeavyKeeper) Add(flow string, incr uint32)] *)
Definition Add (hk : HeavyKeeper) (flow : string) (incr : Z) (g : Rand)
    : outcome (HeavyKeeper * Rand) :=
  if incr =? 0 then Ret (hk, g)
  else
    let fp := fingerprint ChecksumString32S flow in
    letp heapMin := Min (heap hk) in
    letp (buckets', maxCount, g') :=
      Add_rows (decay hk) flow fp incr 0 (buckets hk) 0 g in
    let '(heap', _) := Sample_heap (heap hk) flow maxCount heapMin in
    Ret ({| decay := decay hk; buckets := buckets'; heap := heap' |}, g').

End Add.

(** [func New(k int, decay float64) *HeavyKeeper] of topk.go: one slice per
    row. *)
Definition New (Log : float64 -> float64) (k : Z) (decay : float64)
    : outcome HeavyKeeper :=
  if k <? 1 then Panic "k must be >= 1"
  else if f64_leb decay f64_zero || f64_ltb f64_one decay
  then Panic "decay must be in range (0, 1.0]"
  else
    let width := int_of_float64 (f64_mul (float64_of_int k) (Log (float64_of_int k))) in
    let width := if width <? 256 then 256 else width in
    let depth := int_of_float64 (Log (float64_of_int k)) in
    let depth := if depth <? 3 then 3 else depth in
    let buckets := replicate (Z.to_nat depth) ([] : list bucket) in
    let buckets := (fun _ => replicate (Z.to_nat width) bucket0) <$> buckets in
    Ret {| decay := decay;
           buckets := buckets;
           heap := replicate (Z.to_nat k) FlowCount0 |}.

(** [func (hk *HeavyKeeper) Top() []FlowCount] of topk.go: the heap is
    copied into a fresh slice of its length. *)
Definition Top (hk : HeavyKeeper) : list FlowCount :=
  let top := replicate (length (heap hk)) FlowCount0 in
  let top := copy top (heap hk) in
  let top := sort_Stable reverse_Less top in
  take (trim_end top (length top)) top.

(** [func (hk *HeavyKeeper) Reset()] of topk.go. *)
Definition Reset (hk : HeavyKeeper) : HeavyKeeper :=
  {| decay := decay hk;
     buckets := (fun row : list bucket => (fun _ : bucket => bucket0) <$> row)
                  <$> buckets hk;
     heap := (fun _ : FlowCount => FlowCount0) <$> heap hk |}.

End TopkGo.

(** ** Instances of the external functions, for the closed examples *)

Module Instances.

(** The XXH32 hash, which [xxhash.ChecksumString32S] computes. *)
Definition PRIME32_1 : Z := 2654435761.
Definition PRIME32_2 : Z := 2246822519.
Definition PRIME32_3 : Z := 3266489917.
Definition PRIME32_4 : Z := 668265263.
Definition PRIME32_5 : Z := 374761393.

Definition rotl32 (x r : Z) : Z :=
  u32 (Z.lor (Z.shiftl x r) (Z.shiftr x (32 - r))).

Fixpoint bytes_of (s : string) : list Z :=
  match s with
  | EmptyString => []
  | String c s' => Z.of_N (N_of_ascii c) :: bytes_of s'
  end.

Definition read32le (b0 b1 b2 b3 : Z) : Z :=
  b0 + 256 * b1 + 65536 * b2 + 16777216 * b3.

Definition xxh_round (acc input : Z) : Z :=
  u32 (rotl32 (u32 (acc + input * PRIME32_2)) 13 * PRIME32_1).

Fixpoint xxh_stripes (fuel : nat) (bs : list Z) (v : Z * Z * Z * Z)
    : (Z * Z * Z * Z) * list Z :=
  match fuel with
  | O => (v, bs)
  | S fuel' =>
      match bs with
      | a0 :: a1 :: a2 :: a3 :: b0 :: b1 :: b2 :: b3
          :: c0 :: c1 :: c2 :: c3 :: d0 :: d1 :: d2 :: d3 :: rest =>
          let '(v1, v2, v3, v4) := v in
          xxh_stripes fuel' rest
            (xxh_round v1 (read32le a0 a1 a2 a3), xxh_round v2 (read32le b0 b1 b2 b3),
             xxh_round v3 (read32le c0 c1 c2 c3), xxh_round v4 (read32le d0 d1 d2 d3))
      | _ => (v, bs)
      end
  end.

Fixpoint xxh_words (fuel : nat) (bs : list Z) (h : Z) : Z * list Z :=
  match fuel with
  | O => (h, bs)
  | S fuel' =>
      match bs with
      | b0 :: b1 :: b2 :: b3 :: rest =>
          xxh_words fuel' rest
            (u32 (rotl32 (u32 (h + read32le b0 b1 b2 b3 * PRIME32_3)) 17 * PRIME32_4))
      | _ => (h, bs)
      end
  end.

Fixpoint xxh_bytes (bs : list Z) (h : Z) : Z :=
  match bs with
  | [] => h
  | b :: rest => xxh_bytes rest (u32 (rotl32 (u32 (h + b * PRIME32_5)) 11 * PRIME32_1))
  end.

Definition xxh_avalanche (h : Z) : Z :=
  let h := Z.lxor h (Z.shiftr h 15) in
  let h := u32 (h * PRIME32_2) in
  let h := Z.lxor h (Z.shiftr h 13) in
  let h := u32 (h * PRIME32_3) in
  Z.lxor h (Z.shiftr h 16).

Definition xxh32 (s : string) (seed : Z) : Z :=
  let bs := bytes_of s in
  let len := Z.of_nat (length bs) in
  let '(h, rest) :=
    if 16 <=? len then
      let '((v1, v2, v3, v4), rest) :=
        xxh_stripes (length bs) bs
          (u32 (seed + PRIME32_1 + PRIME32_2), u32 (seed + PRIME32_2),
           u32 seed, u32 (seed - PRIME32_1)) in
      (u32 (rotl32 v1 1 + rotl32 v2 7 + rotl32 v3 12 + rotl32 v4 18), rest)
    else (u32 (seed + PRIME32_5), bs) in
  let h := u32 (h + len) in
  let '(h, rest) := xxh_words (length rest) rest h in
  xxh_avalanche (xxh_bytes rest h).

(** float64 literals. *)
Definition lit (f : PrimFloat.float) : float64 := Prim2SF f.

Definition f64_add : float64 -> float64 -> float64 := SFadd prec emax.
Definition f64_div : float64 -> float64 -> float64 := SFdiv prec emax.

(** The natural logarithm as the portable [math.Log] computes it (the
    algorithm of FreeBSD's e_log.c): the argument is reduced to
    [2^k * (1 + f)] with [sqrt(2)/2 < 1 + f < sqrt(2)], and [log(1 + f)] is
    a polynomial in [s = f / (2 + f)]. *)
Definition Ln2Hi : float64 := Eval vm_compute in lit 0x1.62e42fee00000p-1.
Definition Ln2Lo : float64 := Eval vm_compute in lit 0x1.a39ef35793c76p-33.
Definition L1 : float64 := Eval vm_compute in lit 0x1.5555555555593p-1.
Definition L2 : float64 := Eval vm_compute in lit 0x1.999999997fa04p-2.
Definition L3 : float64 := Eval vm_compute in lit 0x1.2492494229359p-2.
Definition L4 : float64 := Eval vm_compute in lit 0x1.c71c51d8e78afp-3.
Definition L5 : float64 := Eval vm_compute in lit 0x1.7466496cb03dep-3.
Definition L6 : float64 := Eval vm_compute in lit 0x1.39a09d078c69fp-3.
Definition L7 : float64 := Eval vm_compute in lit 0x1.2f112df3e5244p-3.
Definition Sqrt2_half : float64 := Eval vm_compute in lit 0x1.6a09e667f3bcdp-1.
Definition f64_two : float64 := Eval vm_compute in float64_of_int 2.
Definition f64_half : float64 := Eval vm_compute in lit 0x1p-1.

Definition log (x : float64) : float64 :=
  match x with
  | S754_nan => x
  | S754_infinity false => x
  | S754_infinity true => S754_nan
  | S754_finite true _ _ => S754_nan
  | S754_zero _ => S754_infinity true
  | S754_finite false _ _ =>
      let '(f1, ki) := SFfrexp prec emax x in
      let '(f1, ki) :=
        if f64_ltb f1 Sqrt2_half then (f64_mul f1 f64_two, ki - 1) else (f1, ki) in
      let f := f64_sub f1 f64_one in
      let k := float64_of_int ki in
      let s := f64_div f (f64_add f64_two f) in
      let s2 := f64_mul s s in
      let s4 := f64_mul s2 s2 in
      let t1 := f64_mul s2 (f64_add L1 (f64_mul s4 (f64_add L3
                  (f64_mul s4 (f64_add L5 (f64_mul s4 L7)))))) in
      let t2 := f64_mul s4 (f64_add L2 (f64_mul s4 (f64_add L4 (f64_mul s4 L6)))) in
      let R := f64_add t1 t2 in
      let hfsq := f64_mul (f64_mul f64_half f) f in
      f64_sub (f64_mul k Ln2Hi)
        (f64_sub (f64_sub hfsq (f64_add (f64_mul s (f64_add hfsq R)) (f64_mul k Ln2Lo))) f)
  end.

(** Powers with a natural exponent, by repeated multiplication: an instance
    of [math.Pow] on the arguments the sketch passes (the exponent is the
    conversion of a [uint32]). *)
Fixpoint pow_nat (x : float64) (n : nat) : float64 :=
  match n with
  | O => f64_one
  | S n' => f64_mul x (pow_nat x n')
  end.

Definition pow (x y : float64) : float64 :=
  match trunc y with
  | Some n => pow_nat x (Z.to_nat n)
  | None => S754_nan
  end.

(** A generator that returns the same number at every draw. *)
Definition const_rand (r : float64) : Rand := mkRand (fun _ => r) 0.

End Instances.

(** * Specification vocabulary *)

(** The heap holds exactly [K] entries; the matrix holds [depth * width]
    cells; two sketches of the same shape differ in the contents of their
    cells and entries only. *)
Definition same_shape (hk hk0 : HeavyKeeper) : Prop :=
  decay hk = decay hk0 /\ depth hk = depth hk0 /\ width hk = width hk0 /\
  length (buckets hk) = length (buckets hk0) /\
  length (heap hk) = length (heap hk0).

(** A number of the interval (0, 1], by the comparisons of float64. *)
Definition in_unit_interval (p : float64) : Prop :=
  f64_ltb f64_zero p = true /\ f64_leb p f64_one = true.

(** Entries in descending order of their counts. *)
Definition descending (l : list FlowCount) : Prop :=
  StronglySorted (fun a b => Count b <= Count a) l.

(** The entries of [l] whose count is [c], in the order of [l]. *)
Definition with_count (c : Z) (l : list FlowCount) : list FlowCount :=
  filter (fun e => Count e = c) l.

(** The dimensions [New] computes for [k]. *)
Definition New_width (Log : float64 -> float64) (k : Z) : Z :=
  Z.max 256 (int_of_float64 (f64_mul (float64_of_int k) (Log (float64_of_int k)))).
Definition New_depth (Log : float64 -> float64) (k : Z) : Z :=
  Z.max 3 (int_of_float64 (Log (float64_of_int k))).

(** ** The heap order *)

(** The count at an index, the parent of an index, and the heap order:
    no entry is below its parent. *)
Definition cnt (h : minHeap) (i : nat) : Z := Count (h !!! i).

Definition parent (j : nat) : nat := ((j - 1) / 2)%nat.

Definition is_heap (h : minHeap) : Prop :=
  forall j, (0 < j < length h)%nat -> cnt h (parent j) <= cnt h j.

(** The heap order but for the edges from [i] to its children; the parent
    of [i] is not above the children of [i]. This is what [down] works on. *)
Definition heap_but_below (h : minHeap) (i : nat) : Prop :=
  (forall j, (0 < j < length h)%nat -> parent j <> i -> cnt h (parent j) <= cnt h j) /\
  (forall j, (0 < j < length h)%nat -> parent j = i -> (0 < i)%nat ->
             cnt h (parent i) <= cnt h j).

(** The heap order but for the edge from the parent of [j] to [j]; the
    parent of [j] is not above the children of [j]. This is what [up] works
    on. *)
Definition heap_but_above (h : minHeap) (j : nat) : Prop :=
  (forall c, (0 < c < length h)%nat -> c <> j -> cnt h (parent c) <= cnt h c) /\
  (forall c, (0 < c < length h)%nat -> parent c = j -> (0 < j)%nat ->
             cnt h (parent j) <= cnt h c).

(** [flow] is held at index [i] and at no index before. *)
Definition first_at (h : minHeap) (flow : string) (i : nat) : Prop :=
  (exists e, h !! i = Some e /\ Flow e = flow) /\
  (forall j e, (j < i)%nat -> h !! j = Some e -> Flow e <> flow).

(** ** The update of the counter matrix, as the specification words it *)

(** What a row contributes to [maxCount]: a count, or nothing. *)
Definition contribute (m : Z) (o : option Z) : Z :=
  match o with
  | Some c => max m c
  | None => m
  end.

(** [maxCount] after the rows [0 .. n-1], from the value [m]. *)
Fixpoint max_contrib (out : nat -> option Z) (n : nat) (m : Z) : Z :=
  match n with
  | O => m
  | S n' => max_contrib (fun k => out (S k)) n' (contribute m (out 0%nat))
  end.

Section SampleSpecification.

Variable ChecksumString32S : string -> Z -> Z.
Variable Pow : float64 -> float64 -> float64.

(** The cell that row [i] selects for [flow], as an index of [buckets]. *)
Definition cell_index (hk : HeavyKeeper) (flow : string) (i : nat) : nat :=
  Z.to_nat (u32 (ChecksumString32S flow (u32 (Z.of_nat i))) mod u32 (width hk)
            + Z.of_nat i * width hk).

(** The decay of an occupant, one unit of the increment at a time.
    [decay_units dec fp n b g b' o g']: with [n] units left to spend on the
    cell [b] and the generator [g], the cell ends as [b'], the row
    contributes [o] and the generator ends as [g']. A unit draws [r]; when
    [r < dec ^ count] the count goes down by one, and when it reaches zero
    the flow takes the cell with the units left as its count (the unit
    being spent included) and no further unit is spent. *)
Inductive decay_units (dec : float64) (fp : Z)
  : nat -> bucket -> Rand -> bucket -> option Z -> Rand -> Prop :=
| units_spent b g :
    decay_units dec fp 0 b g b None g
| units_kept n b g b' o g' :
    f64_ltb (fst (rand_Float64 g)) (Pow dec (float64_of_int (count b))) = false ->
    decay_units dec fp n b (snd (rand_Float64 g)) b' o g' ->
    decay_units dec fp (S n) b g b' o g'
| units_decremented n b g b' o g' :
    f64_ltb (fst (rand_Float64 g)) (Pow dec (float64_of_int (count b))) = true ->
    0 < count b - 1 ->
    decay_units dec fp n (mkBucket (bucket_fingerprint b) (count b - 1))
                (snd (rand_Float64 g)) b' o g' ->
    decay_units dec fp (S n) b g b' o g'
| units_evicted n b g :
    f64_ltb (fst (rand_Float64 g)) (Pow dec (float64_of_int (count b))) = true ->
    count b - 1 = 0 ->
    decay_units dec fp (S n) b g (mkBucket fp (Z.of_nat (S n)))
                (Some (Z.of_nat (S n))) (snd (rand_Float64 g)).

(** The update of the cell a row selects: occupy an empty cell, add to a
    cell of the same fingerprint, or decay the occupant. *)
Inductive row_update (dec : float64) (fp incr : Z)
  : bucket -> Rand -> bucket -> option Z -> Rand -> Prop :=
| row_occupy b g :
    count b = 0 ->
    row_update dec fp incr b g (mkBucket fp incr) (Some incr) g
| row_add b g :
    count b <> 0 -> bucket_fingerprint b = fp ->
    row_update dec fp incr b g (mkBucket fp (u32 (count b + incr)))
               (Some (u32 (count b + incr))) g
| row_decay b g b' o g' :
    count b <> 0 -> bucket_fingerprint b <> fp ->
    decay_units dec fp (Z.to_nat incr) b g b' o g' ->
    row_update dec fp incr b g b' o g'.

(** A sketch on which [Sample] runs without a panic: the matrix has
    [depth * width] cells holding [uint32] counts, [uint32(width)] is not
    zero, and the heap is not empty. *)
Definition wf (hk : HeavyKeeper) : Prop :=
  0 <= depth hk /\ 0 < width hk /\ u32 (width hk) <> 0 /\
  length (buckets hk) = Z.to_nat (depth hk * width hk) /\
  Forall (fun b => is_u32 (count b)) (buckets hk) /\
  heap hk <> [].

(** The sketches that calls to [Sample], [DecayAll] and [Reset] reach from
    the sketch [hk0]. *)
Inductive reachable (hk0 : HeavyKeeper) : HeavyKeeper -> Prop :=
| reach_start : reachable hk0 hk0
| reach_Sample hk flow incr g admitted hk' g' :
    reachable hk0 hk -> is_u32 incr ->
    Sample ChecksumString32S Pow hk flow incr g = Ret (admitted, hk', g') ->
    reachable hk0 hk'
| reach_DecayAll hk pct :
    reachable hk0 hk -> reachable hk0 (DecayAll hk pct)
| reach_Reset hk :
    reachable hk0 hk -> reachable hk0 (Reset hk).

End SampleSpecification.

(** The counts of the tracker are [uint32] values. *)
Definition tracker_u32 (h : minHeap) : Prop :=
  Forall (fun e => is_u32 (Count e)) h.

(** No flow but the empty string is held by two entries of the tracker. *)
Definition distinct_flows (h : minHeap) : Prop :=
  forall f, f <> EmptyString -> (length (filter (fun e => Flow e = f) h) <= 1)%nat.

(** The sketch of topk.go seen as the sketch with the flat matrix: the
    rows, each of [w] cells, one after the other. *)
Definition flatten (w : Z) (hk : TopkGo.HeavyKeeper) : HeavyKeeper :=
  {| decay := TopkGo.decay hk;
     depth := Z.of_nat (length (TopkGo.buckets hk));
     width := w;
     buckets := concat (TopkGo.buckets hk);
     heap := TopkGo.heap hk |}.


(** ** Checkers, for closed instances *)

(** [wf] and [is_heap] as boolean functions. *)
Definition wfb (hk : HeavyKeeper) : bool :=
  (0 <=? depth hk) && (0 <? width hk) && negb (u32 (width hk) =? 0)
  && (length (buckets hk) =? Z.to_nat (depth hk * width hk))%nat
  && forallb (fun b => (0 <=? count b) && (count b <? 2 ^ 32)) (buckets hk)
  && match heap hk with [] => false | _ :: _ => true end.

Definition is_heapb (h : minHeap) : bool :=
  forallb (fun j => cnt h (parent j) <=? cnt h j) (seq 1 (length h - 1)).

(** A decidable proposition on a closed instance, by evaluation. *)
Ltac by_evaluation :=
  match goal with
  | |- ?P =>
      let H := fresh in
      assert (H : bool_decide P = true) by (vm_compute; reflexivity);
      exact (proj1 (bool_decide_eq_true P) H)
  end.

(** The integer nearest to a finite number, halves away from zero. *)
Definition round_nearest (f : float64) : option Z :=
  match f with
  | S754_zero _ => Some 0
  | S754_finite s m e =>
      let a := if 0 <=? e then Z.pos m * 2 ^ e
               else (2 * Z.pos m + 2 ^ (- e)) / (2 * 2 ^ (- e)) in
      Some (if s then - a else a)
  | S754_infinity _ | S754_nan => None
  end.

(** ** Sketches for the closed examples *)

Module Scenarios.

Import Instances.

Local Open Scope string_scope.

(** The float64 numbers nearest to 0.9 and 0.3, and one half. *)
Definition decay_09 : float64 := Eval vm_compute in lit 0x1.ccccccccccccdp-1.
Definition pct_03 : float64 := Eval vm_compute in lit 0x1.3333333333333p-2.
Definition one_half : float64 := Eval vm_compute in lit 0x1p-1.
Definition draws_half : Rand := const_rand one_half.

(** A sequence of calls to [Sample], with the answers. *)
Fixpoint Samples (hk : HeavyKeeper) (l : list (string * Z)) (g : Rand)
    : outcome (list bool * HeavyKeeper * Rand) :=
  match l with
  | [] => Ret ([], hk, g)
  | (flow, incr) :: l' =>
      letp (b, hk', g') := Sample xxh32 pow hk flow incr g in
      letp (bs, hk'', g'') := Samples hk' l' g' in
      Ret (b :: bs, hk'', g'')
  end.

Definition no_sketch : HeavyKeeper := mkHeavyKeeper S754_nan 0 0 [] [].

Definition sketch_of {A : Type} (f : A -> HeavyKeeper) (o : outcome A) : HeavyKeeper :=
  match o with
  | Ret a => f a
  | Panic _ => no_sketch
  end.

(** [New(k, 0.9)] followed by the calls of [l]. *)
Definition after (k : Z) (l : list (string * Z)) : HeavyKeeper :=
  sketch_of (fun r => snd (fst r))
    (letp hk := New log k decay_09 in Samples hk l draws_half).

Definition fresh1 : HeavyKeeper := Eval vm_compute in after 1 [].
Definition fresh5 : HeavyKeeper := Eval vm_compute in after 5 [].
Definition fresh100 : HeavyKeeper := Eval vm_compute in after 100 [].

(** The flows of TestHeavyKeeper before ["h"] comes in. *)
Definition before_h : HeavyKeeper :=
  Eval vm_compute in
    after 5 [("c", 1); ("b", 5); ("a", 10); ("d", 25); ("f", 3); ("g", 20)].

(** The sketch of TestReset before the reset. *)
Definition three_flows : HeavyKeeper :=
  Eval vm_compute in after 5 [("a", 1); ("b", 2); ("c", 3)].

(** The sketch of TestDecayAll before the decay. *)
Definition six_flows : HeavyKeeper :=
  Eval vm_compute in
    after 5 [("a", 3); ("b", 6); ("c", 13); ("d", 25); ("e", 50); ("f", 100)].

(** A tracker of one entry in which ["b"] has taken the place of ["a"]. *)
Definition a_then_b : HeavyKeeper :=
  Eval vm_compute in after 1 [("a", 1); ("b", 5)].

(** The sketch that [New(5, 0.9)] of topk.go builds, one slice per row. *)
Definition fresh5_rows : TopkGo.HeavyKeeper :=
  Eval vm_compute in
    match TopkGo.New log 5 decay_09 with
    | Ret hk => hk
    | Panic _ => TopkGo.mkHeavyKeeper S754_nan [] []
    end.

End Scenarios.

(** * Properties *)

(** ** Machine integers and float64 comparisons *)

Lemma u32_range z : 0 <= u32 z < 2 ^ 32.
Proof. unfold u32. apply Z.mod_pos_bound. lia. Qed.

Lemma u32_id z : 0 <= z < 2 ^ 32 -> u32 z = z.
Proof. intros H. unfold u32. apply Z.mod_small. exact H. Qed.

Lemma max_spec a b : max a b = Z.max a b.
Proof. unfold max. destruct (Z.ltb_spec a b); lia. Qed.

Lemma compare_cont_swap p q :
  PosDef.Pos.compare_cont Eq q p = CompOpp (PosDef.Pos.compare_cont Eq p q).
Proof. symmetry. exact (Pos.compare_cont_antisym p q Eq). Qed.

Lemma SFcompare_antisym x y :
  SFcompare y x = option_map CompOpp (SFcompare x y).
Proof.
  destruct x as [sx|sx| |sx mx ex], y as [sy|sy| |sy my ey]; simpl;
    try reflexivity; try (destruct sx; reflexivity); try (destruct sy; reflexivity);
    try (destruct sx, sy; reflexivity).
  destruct sx, sy; simpl; try reflexivity;
    rewrite (Z.compare_antisym ex ey); destruct (ex ?= ey); simpl; try reflexivity;
    rewrite (compare_cont_swap mx my);
    destruct (PosDef.Pos.compare_cont Eq mx my); reflexivity.
Qed.

Lemma f64_ltb_not_leb x y : f64_ltb x y = true -> f64_leb y x = false.
Proof.
  unfold f64_ltb, f64_leb, SFltb, SFleb. rewrite (SFcompare_antisym x y).
  destruct (SFcompare x y) as [[]|]; simpl; congruence.
Qed.

Lemma f64_leb_not_ltb x y : f64_leb x y = true -> f64_ltb y x = false.
Proof.
  unfold f64_ltb, f64_leb, SFltb, SFleb. rewrite (SFcompare_antisym x y).
  destruct (SFcompare x y) as [[]|]; simpl; congruence.
Qed.

(** A number above one is above zero. *)
Lemma f64_above_one_positive p : f64_ltb f64_one p = true -> f64_leb p f64_zero = false.
Proof.
  destruct p as [s|s| |s m e]; try destruct s; simpl; intros H;
    try reflexivity; try discriminate H.
Qed.

Lemma in_unit_interval_branch p :
  in_unit_interval p -> f64_leb p f64_zero = false /\ f64_ltb f64_one p = false.
Proof.
  intros [H0 H1]. split.
  - apply f64_ltb_not_leb. exact H0.
  - apply f64_leb_not_ltb. exact H1.
Qed.

(** ** The linear scan [Count] *)

Lemma Count_loop_absent (h : minHeap) (x : string) :
  x ∉ (Flow <$> h) -> Count_loop h x = (0, false).
Proof.
  induction h as [|e h IH]; simpl; intros Hx; [reflexivity|].
  apply not_elem_of_cons in Hx as [Hne Hx].
  destruct (String.eqb_spec (Flow e) x) as [Heq|_]; [congruence|].
  apply IH. exact Hx.
Qed.

Lemma Count_loop_present (h : minHeap) (x : string) :
  x ∈ (Flow <$> h) -> exists c, Count_loop h x = (c, true) /\ c ∈ (Count <$> h).
Proof.
  induction h as [|e h IH]; simpl; intros Hx.
  - apply elem_of_nil in Hx. destruct Hx.
  - destruct (String.eqb_spec (Flow e) x) as [Heq|Hne].
    + exists (Count e). split; [reflexivity|]. apply list_elem_of_here.
    + apply elem_of_cons in Hx as [Hx|Hx]; [congruence|].
      destruct (IH Hx) as (c & Hc & Hin). exists c. split; [exact Hc|].
      apply list_elem_of_further. exact Hin.
Qed.

Lemma Count_loop_replicate_zero (n : nat) (x : string) :
  x <> EmptyString -> Count_loop (replicate n FlowCount0) x = (0, false).
Proof.
  intros Hx. induction n as [|n IH]; [reflexivity|].
  cbn [replicate Count_loop]. change (Flow FlowCount0) with EmptyString.
  destruct (String.eqb_spec EmptyString x) as [Heq|_]; [congruence|exact IH].
Qed.

(** ** The stable sort and the trimming loop *)

Lemma insert_sorted_Permutation less x l : insert_sorted less x l ≡ₚ x :: l.
Proof.
  induction l as [|y l IH]; simpl; [reflexivity|].
  destruct (less y x); [|reflexivity].
  rewrite IH. apply perm_swap.
Qed.

Lemma sort_Stable_Permutation less l : sort_Stable less l ≡ₚ l.
Proof.
  induction l as [|x l IH]; simpl; [reflexivity|].
  rewrite insert_sorted_Permutation, IH. reflexivity.
Qed.

Lemma insert_sorted_descending x l :
  descending l -> descending (insert_sorted reverse_Less x l).
Proof.
  unfold descending. induction l as [|y l IH]; simpl; intros Hl.
  - constructor; constructor.
  - apply StronglySorted_inv in Hl as [Hl Hy].
    unfold reverse_Less at 1, byCount_Less.
    destruct (Z.ltb_spec (Count x) (Count y)) as [Hlt|Hge].
    + constructor; [apply IH; exact Hl|].
      rewrite insert_sorted_Permutation. constructor; [lia|exact Hy].
    + constructor; [constructor; assumption|].
      constructor; [lia|].
      eapply Forall_impl; [exact Hy|]. simpl. intros b Hb. lia.
Qed.

Lemma sort_Stable_descending l : descending (sort_Stable reverse_Less l).
Proof.
  induction l as [|x l IH]; simpl; [constructor|].
  apply insert_sorted_descending. exact IH.
Qed.

(** The entries that carry a given count keep their relative order: the
    sort is stable. *)
Lemma with_count_insert_sorted c x l :
  with_count c (insert_sorted reverse_Less x l) = with_count c (x :: l).
Proof.
  unfold with_count. induction l as [|y l IH]; simpl; [reflexivity|].
  unfold reverse_Less at 1, byCount_Less.
  destruct (Z.ltb_spec (Count x) (Count y)) as [Hlt|Hge]; [|reflexivity].
  rewrite (filter_cons _ y), IH, !filter_cons.
  repeat case_decide; try reflexivity; lia.
Qed.

Lemma with_count_sort_Stable c l :
  with_count c (sort_Stable reverse_Less l) = with_count c l.
Proof.
  induction l as [|x l IH]; simpl; [reflexivity|].
  rewrite with_count_insert_sorted. unfold with_count in *.
  rewrite !filter_cons, IH. reflexivity.
Qed.

(** A descending list is determined by its entries of each count: any two
    stable sorts return the same list. *)
Lemma stable_sort_unique l1 l2 :
  descending l1 -> descending l2 ->
  (forall c, with_count c l1 = with_count c l2) -> l1 = l2.
Proof.
  unfold descending, with_count. revert l2.
  induction l1 as [|x l1 IH]; intros l2 H1 H2 Heq.
  - destruct l2 as [|y l2]; [reflexivity|].
    specialize (Heq (Count y)). rewrite filter_nil, filter_cons_True in Heq by reflexivity.
    discriminate Heq.
  - destruct l2 as [|y l2].
    + specialize (Heq (Count x)). rewrite filter_nil, filter_cons_True in Heq by reflexivity.
      discriminate Heq.
    + apply StronglySorted_inv in H1 as [H1 Hx].
      apply StronglySorted_inv in H2 as [H2 Hy].
      assert (Hxy : Count x <= Count y).
      { pose proof (Heq (Count x)) as E. rewrite filter_cons_True in E by reflexivity.
        assert (Hin : x ∈ filter (fun e => Count e = Count x) (y :: l2))
          by (rewrite <- E; apply list_elem_of_here).
        apply list_elem_of_filter in Hin as [_ Hin].
        apply elem_of_cons in Hin as [->|Hin]; [lia|].
        rewrite Forall_forall in Hy. apply Hy. exact Hin. }
      assert (Hyx : Count y <= Count x).
      { pose proof (Heq (Count y)) as E. rewrite (filter_cons_True _ y) in E by reflexivity.
        assert (Hin : y ∈ filter (fun e => Count e = Count y) (x :: l1))
          by (rewrite E; apply list_elem_of_here).
        apply list_elem_of_filter in Hin as [_ Hin].
        apply elem_of_cons in Hin as [->|Hin]; [lia|].
        rewrite Forall_forall in Hx. apply Hx. exact Hin. }
      assert (Hc : Count x = Count y) by lia.
      pose proof (Heq (Count x)) as E.
      rewrite filter_cons_True in E by reflexivity.
      rewrite filter_cons_True in E by (symmetry; exact Hc).
      injection E as -> _. f_equal.
      apply IH; [exact H1|exact H2|].
      intros c. specialize (Heq c). rewrite !filter_cons in Heq.
      case_decide; [injection Heq as Heq|]; exact Heq.
Qed.

Lemma trim_end_le top e : (trim_end top e <= e)%nat.
Proof.
  induction e as [|e IH]; simpl; [lia|].
  destruct (0 <? Count (top !!! e)); lia.
Qed.

Lemma trim_end_tail top e i :
  (trim_end top e <= i < e)%nat -> Count (top !!! i) <= 0.
Proof.
  induction e as [|e IH]; simpl; [lia|].
  destruct (Z.ltb_spec 0 (Count (top !!! e))) as [Hpos|Hle]; [lia|].
  intros Hi. destruct (decide (i = e)) as [->|Hne]; [exact Hle|].
  apply IH. lia.
Qed.

Lemma trim_end_last top e :
  (0 < trim_end top e)%nat -> 0 < Count (top !!! (trim_end top e - 1)%nat).
Proof.
  induction e as [|e IH]; simpl; [lia|].
  destruct (Z.ltb_spec 0 (Count (top !!! e))) as [Hpos|Hle]; [|exact IH].
  intros _. replace (S e - 1)%nat with e by lia. exact Hpos.
Qed.

Lemma descending_lookup l i j a b :
  descending l -> (i <= j)%nat -> l !! i = Some a -> l !! j = Some b ->
  Count b <= Count a.
Proof.
  unfold descending. intros Hl. revert i j.
  induction Hl as [|x l Hl IH Hx]; intros i j Hij Ha Hb; [discriminate Ha|].
  destruct i as [|i], j as [|j]; simpl in *; try lia.
  - injection Ha as ->. injection Hb as ->. lia.
  - injection Ha as ->. rewrite Forall_lookup in Hx. eapply Hx. exact Hb.
  - eapply (IH i j); [lia|exact Ha|exact Hb].
Qed.

(** On a descending list, the loop cuts exactly the entries without count. *)
Lemma trim_descending top :
  descending top ->
  let n := trim_end top (length top) in
  Forall (fun e => 0 < Count e) (take n top) /\
  Forall (fun e => Count e <= 0) (drop n top).
Proof.
  intros Hd n. split.
  - apply Forall_lookup. intros i a Ha.
    apply lookup_take_Some in Ha as [Ha Hi].
    assert (Hn : (0 < n)%nat) by lia.
    pose proof (trim_end_last top (length top) Hn) as Hlast. fold n in Hlast.
    pose proof (trim_end_le top (length top)) as Hle. fold n in Hle.
    assert (Hl : top !! (n - 1)%nat = Some (top !!! (n - 1)%nat)).
    { apply list_lookup_lookup_total_lt. lia. }
    pose proof (descending_lookup top i (n - 1) _ _ Hd ltac:(lia) Ha Hl). lia.
  - apply Forall_lookup. intros i a Ha. rewrite lookup_drop in Ha.
    pose proof (lookup_lt_Some _ _ _ Ha) as Hlt.
    apply list_lookup_total_correct in Ha. subst a.
    apply (trim_end_tail top (length top)). fold n. lia.
Qed.

(** ** [Top] *)

Lemma TopInto_eq hk top :
  TopInto hk top =
  (let s := sort_Stable reverse_Less (heap hk) in take (trim_end s (length s)) s, hk).
Proof. unfold TopInto. rewrite take_0. reflexivity. Qed.

Lemma Top_elements hk e : e ∈ fst (Top hk) -> e ∈ heap hk /\ 0 < Count e.
Proof.
  unfold Top. rewrite TopInto_eq. cbn [fst].
  set (s := sort_Stable reverse_Less (heap hk)). intros He. split.
  - rewrite <- (sort_Stable_Permutation reverse_Less (heap hk)). fold s.
    apply elem_of_take in He as (i & Hi & _).
    apply list_elem_of_lookup. exists i. exact Hi.
  - destruct (trim_descending s (sort_Stable_descending _)) as [Hpos _].
    rewrite Forall_forall in Hpos. apply Hpos. exact He.
Qed.

Lemma Top_nil_of_zero hk :
  Forall (fun e => Count e = 0) (heap hk) -> fst (Top hk) = [].
Proof.
  intros Hz. destruct (fst (Top hk)) as [|e t] eqn:E; [reflexivity|].
  assert (He : e ∈ fst (Top hk)) by (rewrite E; apply list_elem_of_here).
  apply Top_elements in He as [Hin Hpos].
  rewrite Forall_forall in Hz. specialize (Hz e Hin). lia.
Qed.

(** C4. [Top] returns at most K entries (K is the length of the heap), in
    descending order of count; every returned entry has a positive count
    and, for each positive count, the entries of that count are exactly
    those of the heap, in the order of the heap (stability: with
    [stable_sort_unique] this fixes the whole result); the call returns the
    sketch as it received it. *)
Theorem C4_Top_ranked_snapshot (hk : HeavyKeeper) :
  (length (fst (Top hk)) <= length (heap hk))%nat /\
  descending (fst (Top hk)) /\
  Forall (fun e => 0 < Count e) (fst (Top hk)) /\
  (forall c, 0 < c -> with_count c (fst (Top hk)) = with_count c (heap hk)) /\
  snd (Top hk) = hk.
Proof.
  unfold Top. rewrite TopInto_eq. cbn [fst snd].
  set (s := sort_Stable reverse_Less (heap hk)).
  set (n := trim_end s (length s)).
  pose proof (sort_Stable_descending (heap hk)) as Hd. fold s in Hd.
  destruct (trim_descending s Hd) as [Hpos Hzero]. fold n in Hpos, Hzero.
  repeat split.
  - rewrite length_take.
    rewrite <- (Permutation_length (sort_Stable_Permutation reverse_Less (heap hk))).
    fold s. lia.
  - unfold descending in *. rewrite <- (take_drop n s) in Hd.
    apply StronglySorted_app_1_l in Hd. exact Hd.
  - exact Hpos.
  - intros c Hc. rewrite <- (with_count_sort_Stable c (heap hk)). fold s.
    rewrite <- (take_drop n s) at 2. unfold with_count. rewrite filter_app.
    assert (Hnil : filter (fun e => Count e = c) (drop n s) = []).
    { induction Hzero as [|e l He Hl IH]; [reflexivity|].
      rewrite filter_cons_False by lia. exact IH. }
    rewrite Hnil, app_nil_r. reflexivity.
Qed.

(** ** [Count] *)

(** C9. A flow that no entry of the tracker holds is reported as
    [(0, false)], and the answer is read from the heap alone: any sketch
    with the same heap, whatever its counter matrix, answers the same. *)
Theorem C9_Count_outside_tracker (hk : HeavyKeeper) (x : string) :
  x ∉ (Flow <$> heap hk) ->
  HeavyKeeper_Count hk x = (0, false) /\
  (forall hk', heap hk' = heap hk -> HeavyKeeper_Count hk' x = (0, false)).
Proof.
  intros Hx. split.
  - apply Count_loop_absent. exact Hx.
  - intros hk' Hh. unfold HeavyKeeper_Count. rewrite Hh.
    apply Count_loop_absent. exact Hx.
Qed.

(** [Count] never reads the matrix, whether the flow is tracked or not. *)
Lemma Count_reads_heap_only (hk hk' : HeavyKeeper) (x : string) :
  heap hk' = heap hk -> HeavyKeeper_Count hk' x = HeavyKeeper_Count hk x.
Proof. intros Hh. unfold HeavyKeeper_Count. rewrite Hh. reflexivity. Qed.

(** ** [Reset] and [New] *)

Lemma Reset_buckets hk : buckets (Reset hk) = replicate (length (buckets hk)) bucket0.
Proof. unfold Reset. cbn [buckets]. apply const_fmap. intros; reflexivity. Qed.

Lemma Reset_heap hk : heap (Reset hk) = replicate (length (heap hk)) FlowCount0.
Proof. unfold Reset. cbn [heap]. apply const_fmap. intros; reflexivity. Qed.

Lemma Reset_same_shape hk : same_shape (Reset hk) hk.
Proof.
  unfold same_shape, Reset. cbn [decay depth width buckets heap].
  rewrite !length_fmap. repeat split.
Qed.

Lemma Count_Reset hk x :
  x <> EmptyString -> HeavyKeeper_Count (Reset hk) x = (0, false).
Proof.
  intros Hx. unfold HeavyKeeper_Count. rewrite Reset_heap.
  apply Count_loop_replicate_zero. exact Hx.
Qed.

Lemma Top_Reset hk : fst (Top (Reset hk)) = [].
Proof.
  apply Top_nil_of_zero. rewrite Reset_heap.
  apply Forall_forall. intros e He. apply elem_of_replicate_inv in He. subst e. reflexivity.
Qed.

Section NewProperties.

Variable Log : float64 -> float64.

Local Abbreviation New_width := (New_width Log).
Local Abbreviation New_depth := (New_depth Log).

Lemma New_Ret k d hk :
  New Log k d = Ret hk ->
  1 <= k /\ f64_leb d f64_zero = false /\ f64_ltb f64_one d = false /\
  hk = {| decay := d; depth := New_depth k; width := New_width k;
          buckets := replicate (Z.to_nat (New_depth k * New_width k)) bucket0;
          heap := replicate (Z.to_nat k) FlowCount0 |}.
Proof.
  unfold New, New_width, New_depth.
  destruct (Z.ltb_spec k 1) as [Hk|Hk]; [discriminate|].
  destruct (f64_leb d f64_zero); [discriminate|].
  destruct (f64_ltb f64_one d); [discriminate|]. cbn [orb].
  intros H. injection H as <-. repeat split; try lia.
  set (w := int_of_float64 (f64_mul _ _)). set (dp := int_of_float64 (Log _)).
  replace (if w <? 256 then 256 else w) with (Z.max 256 w)
    by (destruct (Z.ltb_spec w 256); lia).
  replace (if dp <? 3 then 3 else dp) with (Z.max 3 dp)
    by (destruct (Z.ltb_spec dp 3); lia).
  reflexivity.
Qed.

Lemma New_returns_iff k d :
  returns (New Log k d) <->
  1 <= k /\ f64_leb d f64_zero = false /\ f64_ltb f64_one d = false.
Proof.
  split.
  - intros [hk H]. apply New_Ret in H. tauto.
  - intros (Hk & H0 & H1). unfold New.
    destruct (Z.ltb_spec k 1) as [Hk'|_]; [lia|].
    rewrite H0, H1. cbn [orb]. eexists. reflexivity.
Qed.

(** C5 (amended). [Reset] brings any sketch of the shape of a freshly
    constructed one back to exactly that sketch; after it [Top] is empty
    and [Count] answers [(0, false)] for every flow but the empty string. *)
Theorem C5_Reset_like_new (k : Z) (d : float64) (hk0 hk : HeavyKeeper) :
  New Log k d = Ret hk0 -> same_shape hk hk0 ->
  Reset hk = hk0 /\
  fst (Top (Reset hk)) = [] /\
  (forall x, x <> EmptyString -> HeavyKeeper_Count (Reset hk) x = (0, false)).
Proof.
  intros HN (Hd & Hdp & Hw & Hb & Hh).
  apply New_Ret in HN as (Hk & _ & _ & ->).
  cbn [decay depth width buckets heap] in *.
  rewrite length_replicate in Hb. rewrite length_replicate in Hh.
  split; [|split].
  - unfold Reset. rewrite Hd, Hdp, Hw. f_equal.
    + rewrite <- Hb. apply const_fmap. intros; reflexivity.
    + rewrite <- Hh. apply const_fmap. intros; reflexivity.
  - apply Top_Reset.
  - intros x Hx. apply Count_Reset. exact Hx.
Qed.

(** On the empty string the scan stops at the first empty slot. *)
Lemma Count_Reset_empty_string hk :
  heap hk <> [] -> HeavyKeeper_Count (Reset hk) EmptyString = (0, true).
Proof.
  intros Hne. unfold HeavyKeeper_Count. rewrite Reset_heap.
  destruct (heap hk) as [|e h]; [congruence|]. reflexivity.
Qed.

(** C8 (amended). The dimensions are the truncations [int(...)] of the
    float64 values [float64(k) * math.Log(float64(k))] and
    [math.Log(float64(k))], raised to their minima 256 and 3; the matrix
    holds [depth * width] zero cells and the heap [k] zero entries. *)
Theorem C8_New_dimensions (k : Z) (d : float64) (hk : HeavyKeeper) :
  New Log k d = Ret hk ->
  width hk = Z.max 256 (int_of_float64 (f64_mul (float64_of_int k) (Log (float64_of_int k)))) /\
  depth hk = Z.max 3 (int_of_float64 (Log (float64_of_int k))) /\
  buckets hk = replicate (Z.to_nat (depth hk * width hk)) bucket0 /\
  heap hk = replicate (Z.to_nat k) FlowCount0.
Proof.
  intros HN. apply New_Ret in HN as (_ & _ & _ & ->).
  cbn [decay depth width buckets heap]. repeat split.
Qed.

End NewProperties.

(** ** float64 conversions of machine integers *)

Lemma digits2_pos_shift p d :
  Z.pos (digits2_pos (Pos.iter xO p d)) = Z.pos (digits2_pos p) + Z.pos d.
Proof.
  induction d as [|d IH] using Pos.peano_ind.
  - simpl. lia.
  - rewrite Pos.iter_succ. simpl digits2_pos. lia.
Qed.

Lemma digits2_pos_bound p n : Z.pos p < 2 ^ n -> 0 <= n -> Z.pos (digits2_pos p) <= n.
Proof.
  revert n. induction p as [p IH|p IH|]; intros n Hp Hn; simpl digits2_pos.
  - assert (n <> 0) by (intros ->; simpl in Hp; lia).
    replace n with (Z.succ (n - 1)) in Hp by lia. rewrite Z.pow_succ_r in Hp by lia.
    specialize (IH (n - 1) ltac:(lia) ltac:(lia)). lia.
  - assert (n <> 0) by (intros ->; simpl in Hp; lia).
    replace n with (Z.succ (n - 1)) in Hp by lia. rewrite Z.pow_succ_r in Hp by lia.
    specialize (IH (n - 1) ltac:(lia) ltac:(lia)). lia.
  - assert (n <> 0) by (intros ->; simpl in Hp; lia). lia.
Qed.

Lemma shift_pos_value p d : Z.pos (Pos.iter xO p d) = Z.pos p * 2 ^ Z.pos d.
Proof.
  induction d as [|d IH] using Pos.peano_ind.
  - simpl. lia.
  - rewrite Pos.iter_succ, Pos2Z.inj_xO, IH, Pos2Z.inj_succ, Z.pow_succ_r by lia. lia.
Qed.

(** An integer of fewer than 53 bits is converted without rounding: the
    mantissa is the integer shifted to 53 bits. *)
Lemma binary_round_small p :
  Z.pos (digits2_pos p) < 53 ->
  binary_round prec emax false p 0 =
  S754_finite false (Pos.iter xO p (Z.to_pos (53 - Z.pos (digits2_pos p))))
                    (Z.pos (digits2_pos p) - 53).
Proof.
  intros Hd. unfold binary_round, shl_align.
  set (dg := Z.pos (digits2_pos p)) in *.
  assert (Hf : fexp prec emax (dg + 0) = dg - 53).
  { unfold fexp, SpecFloat.emin, prec, emax. lia. }
  rewrite Hf.
  destruct (dg - 53 - 0) as [|q|q] eqn:E; try lia.
  assert (Hq : q = Z.to_pos (53 - dg)) by lia. rewrite <- Hq.
  unfold binary_round_aux, shr_fexp.
  assert (Hdg : Zdigits2 (Z.pos (Pos.iter xO p q)) = 53).
  { simpl Zdigits2. rewrite digits2_pos_shift. fold dg. lia. }
  rewrite Hdg.
  assert (Hf2 : fexp prec emax (53 + (dg - 53)) - (dg - 53) = 0).
  { unfold fexp, SpecFloat.emin, prec, emax. lia. }
  rewrite Hf2. cbn [shr shr_record_of_loc shr_m loc_of_shr_record round_nearest_even].
  rewrite Hdg, Hf2. cbn [shr shr_m].
  destruct (Z.leb_spec (dg - 53) (emax - prec)) as [_|H]; [reflexivity|].
  unfold emax, prec in H. lia.
Qed.

(** [float64(c)] of a [uint32] is the number [c] itself. *)
Lemma float64_of_u32_exact c : is_u32 c -> trunc (float64_of_int c) = Some c.
Proof.
  intros [H0 H1]. unfold float64_of_int, binary_normalize.
  destruct c as [|p|p]; [reflexivity| |lia].
  assert (Hd : Z.pos (digits2_pos p) <= 32) by (apply digits2_pos_bound; lia).
  rewrite binary_round_small by lia. cbn [trunc].
  destruct (Z.leb_spec 0 (Z.pos (digits2_pos p) - 53)) as [H|_]; [lia|].
  rewrite shift_pos_value. f_equal.
  replace (- (Z.pos (digits2_pos p) - 53)) with (Z.pos (Z.to_pos (53 - Z.pos (digits2_pos p)))) by lia.
  apply Z.quot_mul. apply Z.pow_nonzero; lia.
Qed.

Lemma float64_of_u32_finite c :
  is_u32 c -> c <> 0 -> exists m e, float64_of_int c = S754_finite false m e.
Proof.
  intros [H0 H1] Hc. unfold float64_of_int, binary_normalize.
  destruct c as [|p|p]; [congruence| |lia].
  assert (Hd : Z.pos (digits2_pos p) <= 32) by (apply digits2_pos_bound; lia).
  rewrite binary_round_small by lia. eauto.
Qed.

(** ** [DecayAll] *)

Lemma scale_zero c : scale f64_zero c = 0.
Proof.
  unfold scale, f64_mul, f64_zero.
  destruct (float64_of_int c) as [s|s| |s m e]; try destruct s; reflexivity.
Qed.

(** For a [uint32] the product with zero is the float64 zero itself. *)
Lemma mul_zero_u32 c :
  is_u32 c -> f64_mul (float64_of_int c) f64_zero = S754_zero false.
Proof.
  intros Hc. destruct (Z.eq_dec c 0) as [->|Hne]; [reflexivity|].
  destruct (float64_of_u32_finite c Hc Hne) as (m & e & ->). reflexivity.
Qed.

Lemma f64_sub_one_one : f64_sub f64_one f64_one = f64_zero.
Proof. reflexivity. Qed.

Lemma DecayAll_scaled hk p :
  f64_leb p f64_zero = false -> f64_ltb f64_one p = false ->
  DecayAll hk p =
  {| decay := decay hk; depth := depth hk; width := width hk;
     buckets := (fun b => mkBucket (bucket_fingerprint b)
                            (scale (f64_sub f64_one p) (count b))) <$> buckets hk;
     heap := (fun e => mkFlowCount (Flow e)
                            (scale (f64_sub f64_one p) (Count e))) <$> heap hk |}.
Proof. intros H0 H1. unfold DecayAll. rewrite H0, H1. reflexivity. Qed.

(** C6. [DecayAll p] leaves the sketch as it is when [p <= 0], is [Reset]
    when [p > 1], and for [p] in (0, 1] replaces the count of every cell
    and of every entry by [uint32(float64(count) * (1 - p))], the float64
    product truncated toward zero, whatever the fingerprint or the flow;
    nothing else changes. *)
Theorem C6_DecayAll (hk : HeavyKeeper) (p : float64) :
  (f64_leb p f64_zero = true -> DecayAll hk p = hk) /\
  (f64_ltb f64_one p = true -> DecayAll hk p = Reset hk) /\
  (in_unit_interval p ->
     buckets (DecayAll hk p) =
       (fun b => mkBucket (bucket_fingerprint b)
                   (uint32_of_float64 (f64_mul (float64_of_int (count b))
                                               (f64_sub f64_one p)))) <$> buckets hk /\
     heap (DecayAll hk p) =
       (fun e => mkFlowCount (Flow e)
                   (uint32_of_float64 (f64_mul (float64_of_int (Count e))
                                               (f64_sub f64_one p)))) <$> heap hk /\
     same_shape (DecayAll hk p) hk).
Proof.
  split; [|split].
  - intros H. unfold DecayAll. rewrite H. reflexivity.
  - intros H. unfold DecayAll. rewrite (f64_above_one_positive p H), H. reflexivity.
  - intros Hp. apply in_unit_interval_branch in Hp as [H0 H1].
    rewrite (DecayAll_scaled hk p H0 H1). cbn [buckets heap].
    repeat split; cbn [buckets heap]; rewrite length_fmap; reflexivity.
Qed.

(** C10. For [p] in (0, 1], [DecayAll p] keeps the fingerprint of every
    cell and the flow of every entry. At [p = 1.0] every count becomes
    zero, [Top] is empty, and [Count] still finds every flow the tracker
    held, with count zero; [Reset] instead leaves only empty slots, so
    that after it [Count] no longer finds such a flow (unless it is the
    empty string). *)
Theorem C10_DecayAll_keeps_identities (hk : HeavyKeeper) (p : float64) :
  in_unit_interval p ->
  bucket_fingerprint <$> buckets (DecayAll hk p) = bucket_fingerprint <$> buckets hk /\
  Flow <$> heap (DecayAll hk p) = Flow <$> heap hk /\
  (p = f64_one ->
     Forall (fun b => count b = 0) (buckets (DecayAll hk p)) /\
     Forall (fun e => Count e = 0) (heap (DecayAll hk p)) /\
     fst (Top (DecayAll hk p)) = [] /\
     (forall flow, flow ∈ (Flow <$> heap hk) ->
        HeavyKeeper_Count (DecayAll hk p) flow = (0, true) /\
        (flow <> EmptyString -> HeavyKeeper_Count (Reset hk) flow = (0, false)))) /\
  heap (Reset hk) = replicate (length (heap hk)) FlowCount0.
Proof.
  intros Hp. apply in_unit_interval_branch in Hp as [H0 H1].
  rewrite (DecayAll_scaled hk p H0 H1). cbn [buckets heap].
  split; [|split; [|split]].
  - rewrite <- list_fmap_compose. reflexivity.
  - rewrite <- list_fmap_compose. reflexivity.
  - intros ->. rewrite f64_sub_one_one.
    assert (Hb : Forall (fun b => count b = 0)
                   ((fun b => mkBucket (bucket_fingerprint b) (scale f64_zero (count b)))
                      <$> buckets hk)).
    { apply Forall_fmap, Forall_forall. intros b _. apply scale_zero. }
    assert (Hh : Forall (fun e => Count e = 0)
                   ((fun e => mkFlowCount (Flow e) (scale f64_zero (Count e)))
                      <$> heap hk)).
    { apply Forall_fmap, Forall_forall. intros e _. apply scale_zero. }
    split; [exact Hb|]. split; [exact Hh|]. split.
    + apply Top_nil_of_zero. exact Hh.
    + intros flow Hin. split.
      * unfold HeavyKeeper_Count. cbn [heap].
        destruct (Count_loop_present
                    ((fun e => mkFlowCount (Flow e) (scale f64_zero (Count e))) <$> heap hk)
                    flow) as (c & Hc & Hcin).
        { rewrite <- list_fmap_compose. exact Hin. }
        rewrite Hc. f_equal.
        apply list_elem_of_fmap in Hcin as (e & -> & He).
        rewrite Forall_forall in Hh. apply Hh. exact He.
      * intros Hne. apply Count_Reset. exact Hne.
  - apply Reset_heap.
Qed.

(** ** The heap order and [heap.Fix] *)

Lemma parent_left i : parent (2 * i + 1) = i.
Proof.
  unfold parent. replace (2 * i + 1 - 1)%nat with (i * 2)%nat by lia.
  apply Nat.div_mul. lia.
Qed.

Lemma parent_right i : parent (2 * i + 1 + 1) = i.
Proof.
  unfold parent. replace (2 * i + 1 + 1 - 1)%nat with (1 + i * 2)%nat by lia.
  rewrite Nat.div_add by lia. reflexivity.
Qed.

Lemma parent_children j i :
  (0 < j)%nat -> parent j = i -> j = (2 * i + 1)%nat \/ j = (2 * i + 1 + 1)%nat.
Proof.
  unfold parent. intros Hj <-.
  pose proof (Nat.div_mod_eq (j - 1) 2) as E.
  pose proof (Nat.mod_upper_bound (j - 1) 2 ltac:(lia)) as B. lia.
Qed.

Lemma parent_lt j : (0 < j)%nat -> (parent j < j)%nat.
Proof.
  unfold parent. intros Hj.
  pose proof (Nat.div_mod_eq (j - 1) 2) as E. lia.
Qed.

Lemma length_Swap h i j : length (Swap h i j) = length h.
Proof. unfold Swap. rewrite !length_insert. reflexivity. Qed.

Lemma cnt_Swap_l h i j :
  (i < length h)%nat -> (j < length h)%nat -> cnt (Swap h i j) i = cnt h j.
Proof.
  intros Hi Hj. unfold cnt, Swap.
  destruct (decide (i = j)) as [->|Hne].
  - rewrite list_lookup_total_insert_eq by (rewrite length_insert; lia). reflexivity.
  - rewrite list_lookup_total_insert_ne by congruence.
    rewrite list_lookup_total_insert_eq by lia. reflexivity.
Qed.

Lemma cnt_Swap_r h i j :
  (i < length h)%nat -> (j < length h)%nat -> cnt (Swap h i j) j = cnt h i.
Proof.
  intros Hi Hj. unfold cnt, Swap.
  rewrite list_lookup_total_insert_eq by (rewrite length_insert; lia). reflexivity.
Qed.

Lemma cnt_Swap_other h i j k :
  k <> i -> k <> j -> cnt (Swap h i j) k = cnt h k.
Proof.
  intros Hi Hj. unfold cnt, Swap.
  rewrite !list_lookup_total_insert_ne by congruence. reflexivity.
Qed.

Lemma insert_head_Permutation (l : minHeap) j x y :
  l !! j = Some y -> y :: <[j := x]> l ≡ₚ x :: l.
Proof.
  revert j. induction l as [|a l IH]; intros [|j] H; simpl in *; try discriminate.
  - injection H as ->. apply perm_swap.
  - rewrite perm_swap. rewrite (IH j H). apply perm_swap.
Qed.

Lemma Swap_Permutation h i j :
  (i < length h)%nat -> (j < length h)%nat -> Swap h i j ≡ₚ h.
Proof.
  unfold Swap. intros Hi Hj.
  destruct (lookup_lt_is_Some_2 h i Hi) as [x Hx].
  destruct (lookup_lt_is_Some_2 h j Hj) as [y Hy].
  rewrite (list_lookup_total_correct h i x Hx), (list_lookup_total_correct h j y Hy).
  clear Hi Hj. revert i j Hx Hy.
  induction h as [|a h IH]; intros [|i] [|j] Hx Hy; simplify_eq/=.
  - reflexivity.
  - apply insert_head_Permutation. exact Hy.
  - apply insert_head_Permutation. exact Hx.
  - rewrite (IH i j Hx Hy). reflexivity.
Qed.

Lemma Less_spec h i j : Less h i j = true <-> cnt h i < cnt h j.
Proof. unfold Less, cnt. apply Z.ltb_lt. Qed.

Lemma Less_false h i j : Less h i j = false <-> cnt h j <= cnt h i.
Proof. unfold Less, cnt. rewrite Z.ltb_ge. reflexivity. Qed.

Lemma is_heap_but_above h j : is_heap h -> heap_but_above h j.
Proof.
  intros Hh. split.
  - intros c Hc _. apply Hh. exact Hc.
  - intros c Hc Hp Hj. subst j.
    pose proof (parent_lt c ltac:(lia)) as Hlt.
    transitivity (cnt h (parent c)); apply Hh; lia.
Qed.

(** The root of a heap holds the least count. *)
Lemma is_heap_root_min h j : is_heap h -> (j < length h)%nat -> cnt h 0 <= cnt h j.
Proof.
  intros Hh. induction j as [j IH] using lt_wf_ind. intros Hj.
  destruct j as [|j]; [lia|].
  pose proof (parent_lt (S j) ltac:(lia)) as Hlt.
  transitivity (cnt h (parent (S j))).
  - apply IH; lia.
  - apply Hh. lia.
Qed.

(** One step of [down]: the hole moves from [i] to its least child [j]. *)
Lemma heap_but_below_Swap h i j :
  heap_but_below h i -> (j < length h)%nat -> (0 < j)%nat -> parent j = i ->
  cnt h j < cnt h i ->
  (forall c, (0 < c < length h)%nat -> parent c = i -> cnt h j <= cnt h c) ->
  heap_but_below (Swap h i j) j.
Proof.
  intros [Hedges Hgrand] Hj Hj0 Hpar Hlt Hmin.
  pose proof (parent_lt j Hj0) as Hij. rewrite Hpar in Hij.
  split.
  - intros c Hc Hpc. rewrite length_Swap in Hc.
    destruct (decide (c = j)) as [->|Hcj].
    { rewrite Hpar, cnt_Swap_l, cnt_Swap_r by lia. lia. }
    destruct (decide (c = i)) as [->|Hci].
    { pose proof (parent_lt i ltac:(lia)) as Hpi.
      rewrite cnt_Swap_l by lia. rewrite cnt_Swap_other by lia.
      apply (Hgrand j); lia. }
    rewrite (cnt_Swap_other h i j c) by assumption.
    destruct (decide (parent c = i)) as [Hpi|Hpi].
    + rewrite Hpi, cnt_Swap_l by lia. apply Hmin; assumption.
    + rewrite cnt_Swap_other by assumption. apply Hedges; assumption.
  - intros c Hc Hpc _. rewrite length_Swap in Hc.
    pose proof (parent_lt c ltac:(lia)) as Hjc. rewrite Hpc in Hjc.
    rewrite Hpar, cnt_Swap_l by lia. rewrite cnt_Swap_other by lia.
    rewrite <- Hpc. apply Hedges; lia.
Qed.

(** The child that [down] selects: the right one when it exists and is
    smaller, else the left one. *)
Lemma down_child h i :
  let j := if (2 * i + 1 + 1 <? length h)%nat && Less h (2 * i + 1 + 1) (2 * i + 1)
           then (2 * i + 1 + 1)%nat else (2 * i + 1)%nat in
  (2 * i + 1 < length h)%nat ->
  (j < length h)%nat /\ (0 < j)%nat /\ parent j = i /\
  (forall c, (0 < c < length h)%nat -> parent c = i -> cnt h j <= cnt h c).
Proof.
  intros j Hj1. unfold j.
  destruct (Nat.ltb_spec (2 * i + 1 + 1) (length h)) as [Hj2|Hj2]; cbn [andb].
  - destruct (Less h (2 * i + 1 + 1) (2 * i + 1)) eqn:EL.
    + apply Less_spec in EL. repeat split; try lia.
      * apply parent_right.
      * intros c Hc Hp. apply parent_children in Hp as [->| ->]; lia.
    + apply Less_false in EL. repeat split; try lia.
      * apply parent_left.
      * intros c Hc Hp. apply parent_children in Hp as [->| ->]; lia.
  - repeat split; try lia.
    + apply parent_left.
    + intros c Hc Hp. apply parent_children in Hp as [->| ->]; lia.
Qed.

Lemma down_loop_length fuel h i n : length (fst (down_loop fuel h i n)) = length h.
Proof.
  revert h i. induction fuel as [|f IH]; intros h i; cbn [down_loop]; [reflexivity|].
  destruct (n <=? 2 * i + 1)%nat; [reflexivity|].
  destruct (negb _); [reflexivity|].
  rewrite IH. apply length_Swap.
Qed.

Lemma down_loop_index fuel h i n : (i <= snd (down_loop fuel h i n))%nat.
Proof.
  revert h i. induction fuel as [|f IH]; intros h i; cbn [down_loop]; [simpl; lia|].
  destruct (n <=? 2 * i + 1)%nat; [simpl; lia|].
  destruct (negb _); [simpl; lia|].
  match goal with |- (_ <= snd (down_loop f ?h' ?j n))%nat =>
    pose proof (IH h' j) as Hle; assert (i < j)%nat; [|lia] end.
  destruct (_ && _); lia.
Qed.

(** When the index has not moved the heap has not changed. *)
Lemma down_loop_unmoved fuel h i n :
  snd (down_loop fuel h i n) = i -> fst (down_loop fuel h i n) = h.
Proof.
  destruct fuel as [|f]; cbn [down_loop]; [reflexivity|].
  destruct (n <=? 2 * i + 1)%nat; [reflexivity|].
  destruct (negb _); [reflexivity|].
  match goal with |- snd (down_loop f ?h' ?j n) = _ -> _ =>
    pose proof (down_loop_index f h' j n) as Hle; assert (i < j)%nat; [|lia] end.
  destruct (_ && _); lia.
Qed.

Lemma down_loop_Permutation fuel h i : fst (down_loop fuel h i (length h)) ≡ₚ h.
Proof.
  revert h i. induction fuel as [|f IH]; intros h i; cbn [down_loop]; [reflexivity|].
  destruct (Nat.leb_spec (length h) (2 * i + 1)) as [Hn|Hn]; [reflexivity|].
  destruct (down_child h i Hn) as (Hj & Hj0 & Hpar & _).
  set (j := if _ && _ then _ else (2 * i + 1)%nat) in *.
  destruct (negb _); [reflexivity|].
  pose proof (parent_lt _ Hj0) as Hij. rewrite Hpar in Hij.
  rewrite <- (length_Swap h i j). rewrite (IH (Swap h i j) j).
  apply Swap_Permutation; lia.
Qed.

(** [down] restores the heap order from a hole at [i]; the fuel
    [length h - i] is enough for the loop to reach its exit. *)
Lemma down_loop_is_heap fuel h i :
  heap_but_below h i -> (length h - i <= fuel)%nat ->
  is_heap (fst (down_loop fuel h i (length h))).
Proof.
  revert h i. induction fuel as [|f IH]; intros h i Hinv Hfuel; cbn [down_loop].
  - cbn [fst]. intros c Hc. apply (proj1 Hinv); [exact Hc|].
    pose proof (parent_lt c ltac:(lia)). lia.
  - destruct (Nat.leb_spec (length h) (2 * i + 1)) as [Hn|Hn].
    + cbn [fst]. intros c Hc. apply (proj1 Hinv); [exact Hc|].
      intros Hp. apply parent_children in Hp; lia.
    + destruct (down_child h i Hn) as (Hj & Hj0 & Hpar & Hmin).
      set (j := if _ && _ then _ else (2 * i + 1)%nat) in *.
      destruct (Less h j i) eqn:EL; cbn [negb].
      * apply Less_spec in EL.
        pose proof (parent_lt _ Hj0) as Hij. rewrite Hpar in Hij.
        rewrite <- (length_Swap h i j). apply IH.
        -- apply heap_but_below_Swap; assumption.
        -- rewrite length_Swap. lia.
      * cbn [fst]. apply Less_false in EL. intros c Hc.
        destruct (decide (parent c = i)) as [Hp|Hp].
        -- rewrite Hp. specialize (Hmin c Hc Hp). lia.
        -- apply (proj1 Hinv); assumption.
Qed.

(** [down] does nothing at an index whose children are not below it. *)
Lemma down_loop_noop fuel h i :
  (forall c, (0 < c < length h)%nat -> parent c = i -> cnt h i <= cnt h c) ->
  down_loop fuel h i (length h) = (h, i).
Proof.
  intros Hc. destruct fuel as [|f]; cbn [down_loop]; [reflexivity|].
  destruct (Nat.leb_spec (length h) (2 * i + 1)) as [Hn|Hn]; [reflexivity|].
  destruct (down_child h i Hn) as (Hj & Hj0 & Hpar & _).
  set (j := if _ && _ then _ else (2 * i + 1)%nat) in *.
  assert (EL : Less h j i = false) by (apply Less_false, Hc; [lia|exact Hpar]).
  rewrite EL. reflexivity.
Qed.

(** One step of [up]: the entry at [j] changes places with its parent. *)
Lemma heap_but_above_Swap h j :
  heap_but_above h j -> (0 < j < length h)%nat -> cnt h j < cnt h (parent j) ->
  heap_but_above (Swap h (parent j) j) (parent j).
Proof.
  intros [Hedges Hgrand] Hj Hlt.
  pose proof (parent_lt j ltac:(lia)) as Hij.
  set (i := parent j) in *.
  split.
  - intros c Hc Hci. rewrite length_Swap in Hc.
    destruct (decide (c = j)) as [->|Hcj].
    { fold i. rewrite cnt_Swap_l, cnt_Swap_r by lia. lia. }
    rewrite (cnt_Swap_other h i j c) by assumption.
    destruct (decide (parent c = j)) as [Hpj|Hpj].
    { rewrite Hpj, cnt_Swap_r by lia. apply (Hgrand c); lia. }
    destruct (decide (parent c = i)) as [Hpi|Hpi].
    { rewrite Hpi, cnt_Swap_l by lia.
      specialize (Hedges c Hc Hcj). rewrite Hpi in Hedges. lia. }
    rewrite cnt_Swap_other by assumption. apply Hedges; assumption.
  - intros c Hc Hpc Hi0. rewrite length_Swap in Hc.
    pose proof (parent_lt i Hi0) as Hpi.
    rewrite (cnt_Swap_other h i j (parent i)) by lia.
    assert (Hpp : cnt h (parent i) <= cnt h i) by (apply Hedges; lia).
    destruct (decide (c = j)) as [->|Hcj].
    + rewrite cnt_Swap_r by lia. exact Hpp.
    + pose proof (parent_lt c ltac:(lia)) as Hic. rewrite Hpc in Hic.
      rewrite cnt_Swap_other by lia.
      specialize (Hedges c Hc Hcj). rewrite Hpc in Hedges. lia.
Qed.

Lemma up_loop_length fuel h j : length (up_loop fuel h j) = length h.
Proof.
  revert h j. induction fuel as [|f IH]; intros h j; cbn [up_loop]; [reflexivity|].
  destruct (_ || _); [reflexivity|]. rewrite IH. apply length_Swap.
Qed.

Lemma up_loop_Permutation fuel h j : (j < length h)%nat -> up_loop fuel h j ≡ₚ h.
Proof.
  revert h j. induction fuel as [|f IH]; intros h j Hj; cbn [up_loop]; [reflexivity|].
  fold (parent j).
  destruct (Nat.eqb_spec (parent j) j) as [Heq|Hne]; cbn [orb]; [reflexivity|].
  destruct (negb _); [reflexivity|].
  assert (Hj0 : (0 < j)%nat) by (destruct j; [exfalso; apply Hne; reflexivity|lia]).
  pose proof (parent_lt j Hj0) as Hij.
  rewrite IH by (rewrite length_Swap; lia).
  apply Swap_Permutation; lia.
Qed.

(** [up] restores the heap order from a misplaced entry at [j]; any fuel
    above [j] lets the loop reach its exit. *)
Lemma up_loop_is_heap fuel h j :
  heap_but_above h j -> (j < length h)%nat -> (j < fuel)%nat ->
  is_heap (up_loop fuel h j).
Proof.
  revert h j. induction fuel as [|f IH]; intros h j Hinv Hj Hfuel; [lia|].
  cbn [up_loop]. fold (parent j).
  destruct (Nat.eqb_spec (parent j) j) as [Heq|Hne]; cbn [orb].
  - assert (j = 0%nat) as ->.
    { destruct j as [|j]; [reflexivity|]. pose proof (parent_lt (S j) ltac:(lia)). lia. }
    intros c Hc. apply (proj1 Hinv); lia.
  - assert (Hj0 : (0 < j)%nat) by (destruct j; [exfalso; apply Hne; reflexivity|lia]).
    pose proof (parent_lt j Hj0) as Hij.
    destruct (Less h j (parent j)) eqn:EL; cbn [negb].
    + apply Less_spec in EL. apply IH.
      * apply heap_but_above_Swap; [exact Hinv|lia|exact EL].
      * rewrite length_Swap. lia.
      * lia.
    + apply Less_false in EL. intros c Hc.
      destruct (decide (c = j)) as [->|Hcj]; [exact EL|].
      apply (proj1 Hinv); assumption.
Qed.

(** The fuel of [down] and of [up] is never used up: more fuel gives the
    same result, so the two functions are the loops of the source. *)
Lemma down_loop_fuel fuel h i n :
  (n - i <= fuel)%nat -> down_loop (S fuel) h i n = down_loop fuel h i n.
Proof.
  revert h i. induction fuel as [|f IH]; intros h i Hfuel.
  - cbn [down_loop]. destruct (Nat.leb_spec n (2 * i + 1)); [reflexivity|lia].
  - change (down_loop (S (S f)) h i n) with
      (if (n <=? 2 * i + 1)%nat then (h, i)
       else let j := if (2 * i + 1 + 1 <? n)%nat && Less h (2 * i + 1 + 1) (2 * i + 1)
                     then (2 * i + 1 + 1)%nat else (2 * i + 1)%nat in
            if negb (Less h j i) then (h, i) else down_loop (S f) (Swap h i j) j n).
    cbn [down_loop]. destruct (Nat.leb_spec n (2 * i + 1)); [reflexivity|].
    cbv zeta. destruct (negb _); [reflexivity|].
    apply IH. destruct (_ && _); lia.
Qed.

Lemma up_loop_fuel fuel h j :
  (j < fuel)%nat -> up_loop (S fuel) h j = up_loop fuel h j.
Proof.
  revert h j. induction fuel as [|f IH]; intros h j Hfuel; [lia|].
  change (up_loop (S (S f)) h j) with
    (if (parent j =? j)%nat || negb (Less h j (parent j)) then h
     else up_loop (S f) (Swap h (parent j) j) (parent j)).
  cbn [up_loop]. fold (parent j).
  destruct (Nat.eqb_spec (parent j) j) as [Heq|Hne]; cbn [orb]; [reflexivity|].
  destruct (negb _); [reflexivity|].
  apply IH. assert (Hj0 : (0 < j)%nat) by (destruct j; [exfalso; apply Hne; reflexivity|lia]).
  pose proof (parent_lt j Hj0). lia.
Qed.

Lemma length_heap_Fix h i : length (heap_Fix h i) = length h.
Proof.
  unfold heap_Fix, down, up, Len.
  destruct (down_loop (length h) h i (length h)) as [h' i'] eqn:E.
  assert (Hl : length h' = length h).
  { pose proof (down_loop_length (length h) h i (length h)) as L.
    rewrite E in L. exact L. }
  destruct (negb _); [rewrite up_loop_length|]; exact Hl.
Qed.

Lemma heap_Fix_Permutation h i : (i < length h)%nat -> heap_Fix h i ≡ₚ h.
Proof.
  intros Hi. unfold heap_Fix, down, up, Len.
  pose proof (down_loop_Permutation (length h) h i) as P.
  pose proof (down_loop_length (length h) h i (length h)) as L.
  destruct (down_loop (length h) h i (length h)) as [h' i']. cbn [fst] in P, L.
  destruct (negb _); [|exact P].
  rewrite up_loop_Permutation by lia. exact P.
Qed.

(** [heap.Fix] after the entry at [i] of a heap was overwritten: the
    result is a heap again. *)
Lemma heap_Fix_is_heap h i e :
  is_heap h -> (i < length h)%nat -> is_heap (heap_Fix (<[i := e]> h) i).
Proof.
  intros Hh Hi. set (h1 := <[i := e]> h).
  assert (Hl1 : length h1 = length h) by apply length_insert.
  assert (Hi1 : cnt h1 i = Count e).
  { unfold cnt, h1. rewrite list_lookup_total_insert_eq by lia. reflexivity. }
  assert (Ho : forall k, k <> i -> cnt h1 k = cnt h k).
  { intros k Hk. unfold cnt, h1. rewrite list_lookup_total_insert_ne by congruence.
    reflexivity. }
  unfold heap_Fix, down, up, Len.
  pose proof (down_loop_length (length h1) h1 i (length h1)) as L.
  pose proof (down_loop_index (length h1) h1 i (length h1)) as Hidx.
  pose proof (down_loop_unmoved (length h1) h1 i (length h1)) as Hun.
  destruct (Z_le_gt_dec (cnt h i) (Count e)) as [Hup|Hdown].
  - (* the count has not decreased: the order can only fail below [i] *)
    assert (Hinv : heap_but_below h1 i).
    { split.
      - intros j Hj Hp. rewrite Hl1 in Hj. rewrite (Ho (parent j)) by exact Hp.
        destruct (decide (j = i)) as [->|Hji].
        + rewrite Hi1. specialize (Hh i Hj). lia.
        + rewrite (Ho j) by exact Hji. apply Hh. exact Hj.
      - intros j Hj Hp Hi0. rewrite Hl1 in Hj.
        pose proof (parent_lt i Hi0) as Hpi. pose proof (parent_lt j ltac:(lia)) as Hpj.
        rewrite (Ho (parent i)), (Ho j) by lia.
        transitivity (cnt h i); [apply Hh; lia|].
        rewrite <- Hp. apply Hh. exact Hj. }
    pose proof (down_loop_is_heap (length h1) h1 i Hinv ltac:(lia)) as Hheap.
    destruct (down_loop (length h1) h1 i (length h1)) as [h' i']. cbn [fst snd] in *.
    destruct (Nat.ltb_spec i i') as [Hlt|Hge]; cbn [negb]; [exact Hheap|].
    apply up_loop_is_heap; [apply is_heap_but_above; exact Hheap|lia|lia].
  - (* the count has decreased: the order can only fail above [i] *)
    assert (Hinv : heap_but_above h1 i).
    { split.
      - intros c Hc Hci. rewrite Hl1 in Hc. rewrite (Ho c) by exact Hci.
        destruct (decide (parent c = i)) as [Hp|Hp].
        + rewrite Hp, Hi1. specialize (Hh c Hc). rewrite Hp in Hh. lia.
        + rewrite (Ho (parent c)) by exact Hp. apply Hh. exact Hc.
      - intros c Hc Hp Hi0. rewrite Hl1 in Hc.
        pose proof (parent_lt i Hi0) as Hpi. pose proof (parent_lt c ltac:(lia)) as Hpc.
        rewrite (Ho (parent i)), (Ho c) by lia.
        transitivity (cnt h i); [apply Hh; lia|].
        rewrite <- Hp. apply Hh. exact Hc. }
    assert (Hnoop : down_loop (length h1) h1 i (length h1) = (h1, i)).
    { apply down_loop_noop. intros c Hc Hp. rewrite Hl1 in Hc.
      pose proof (parent_lt c ltac:(lia)) as Hpc.
      rewrite Hi1, (Ho c) by lia. specialize (Hh c Hc). rewrite Hp in Hh. lia. }
    rewrite Hnoop. rewrite Nat.ltb_irrefl. cbn [negb].
    apply up_loop_is_heap; [exact Hinv|lia|lia].
Qed.

(** ** [Find] and the update of the heap in [Sample] *)

Lemma Find_from_absent h flow i :
  flow ∉ (Flow <$> h) -> Find_from h flow i = -1.
Proof.
  revert i. induction h as [|e h IH]; intros i Hx; cbn [Find_from]; [reflexivity|].
  rewrite fmap_cons in Hx. apply not_elem_of_cons in Hx as [Hne Hx].
  destruct (String.eqb_spec (Flow e) flow) as [Heq|_]; [congruence|].
  apply IH. exact Hx.
Qed.

Lemma Find_from_first h flow k i :
  first_at h flow k -> Find_from h flow i = i + Z.of_nat k.
Proof.
  revert k i. induction h as [|e h IH]; intros k i [(x & Hx & Hf) Hbefore].
  - discriminate Hx.
  - cbn [Find_from]. destruct k as [|k].
    + injection Hx as ->. rewrite <- Hf, String.eqb_refl. lia.
    + destruct (String.eqb_spec (Flow e) flow) as [Heq|_].
      * exfalso. apply (Hbefore 0%nat e); [lia|reflexivity|exact Heq].
      * rewrite (IH k (i + 1)); [lia|]. split.
        -- exists x. split; [exact Hx|exact Hf].
        -- intros j y Hj Hy. apply (Hbefore (S j) y); [lia|exact Hy].
Qed.

Lemma Sample_heap_rejected h flow maxCount heapMin :
  maxCount < heapMin -> Sample_heap h flow maxCount heapMin = (h, false).
Proof.
  intros H. unfold Sample_heap.
  destruct (Z.leb_spec heapMin maxCount); [lia|reflexivity].
Qed.

Lemma Sample_heap_update h flow maxCount heapMin k :
  heapMin <= maxCount -> first_at h flow k ->
  Sample_heap h flow maxCount heapMin =
  (heap_Fix (<[k := mkFlowCount flow maxCount]> h) k, true).
Proof.
  intros H Hk. unfold Sample_heap, Find.
  destruct (Z.leb_spec heapMin maxCount); [|lia].
  rewrite (Find_from_first h flow k 0 Hk).
  destruct (Z.ltb_spec (-1) (0 + Z.of_nat k)); [|lia].
  replace (Z.to_nat (0 + Z.of_nat k)) with k by lia.
  destruct Hk as [(e & He & Hf) _].
  rewrite (list_lookup_total_correct h k e He), Hf. reflexivity.
Qed.

Lemma Sample_heap_insert h flow maxCount heapMin :
  heapMin <= maxCount -> flow ∉ (Flow <$> h) ->
  Sample_heap h flow maxCount heapMin =
  (heap_Fix (<[0%nat := mkFlowCount flow maxCount]> h) 0, true).
Proof.
  intros H Hx. unfold Sample_heap, Find.
  destruct (Z.leb_spec heapMin maxCount); [|lia].
  rewrite (Find_from_absent h flow 0 Hx).
  destruct (Z.ltb_spec (-1) (-1)); [lia|].
  destruct h as [|e h]; reflexivity.
Qed.

(** * Properties of [Sample] *)

Section SampleProperties.

Variable ChecksumString32S : string -> Z -> Z.
Variable Pow : float64 -> float64 -> float64.

Local Abbreviation fingerprint := (fingerprint ChecksumString32S).
Local Abbreviation cell_index := (cell_index ChecksumString32S).
Local Abbreviation decay_loop := (decay_loop Pow).
Local Abbreviation decay_units := (decay_units Pow).
Local Abbreviation row_update := (row_update Pow).
Local Abbreviation Sample_row := (Sample_row ChecksumString32S Pow).
Local Abbreviation Sample_rows := (Sample_rows ChecksumString32S Pow).
Local Abbreviation Sample_matrix := (Sample_matrix ChecksumString32S Pow).
Local Abbreviation Sample := (Sample ChecksumString32S Pow).

(** The decay loop of the code spends the units as [decay_units] says. *)
Lemma decay_loop_spec dec fp n b m g :
  0 < count b < 2 ^ 32 -> Z.of_nat n < 2 ^ 32 ->
  exists b' o g',
    decay_loop dec fp n b m g = (b', contribute m o, g') /\
    decay_units dec fp n b g b' o g' /\
    0 < count b' < 2 ^ 32.
Proof.
  revert b g. induction n as [|n IH]; intros b g Hb Hn.
  - exists b, None, g. repeat split; try lia. constructor.
  - cbn [decay_loop rand_Float64].
    destruct (f64_ltb (draws g (pos g)) (Pow dec (float64_of_int (count b)))) eqn:Er.
    + rewrite (u32_id (count b - 1)) by (unfold is_u32 in *; lia).
      destruct (Z.leb_spec (count b - 1) 0) as [Hz|Hpos].
      * exists (mkBucket fp (Z.of_nat (S n))), (Some (Z.of_nat (S n))),
               (mkRand (draws g) (S (pos g))).
        repeat split; cbn [count]; try lia.
        apply units_evicted; [exact Er|lia].
      * destruct (IH (mkBucket (bucket_fingerprint b) (count b - 1))
                     (mkRand (draws g) (S (pos g))))
          as (b' & o & g' & Hloop & Hunits & Hb'); cbn [count]; try lia.
        exists b', o, g'. repeat split; try lia; [exact Hloop|].
        apply units_decremented; [exact Er|lia|exact Hunits].
    + destruct (IH b (mkRand (draws g) (S (pos g))))
        as (b' & o & g' & Hloop & Hunits & Hb'); try lia.
      exists b', o, g'. repeat split; try lia; [exact Hloop|].
      apply units_kept; [exact Er|exact Hunits].
Qed.

(** The cell of a row lies in the segment of that row. *)
Lemma cell_index_range hk flow i :
  wf hk ->
  Z.of_nat i * width hk <= Z.of_nat (cell_index hk flow i)
    < (Z.of_nat i + 1) * width hk.
Proof.
  intros (Hd & Hw & Hw32 & _). unfold cell_index.
  pose proof (u32_range (width hk)) as Hr.
  assert (Hle : u32 (width hk) <= width hk).
  { unfold u32. apply Z.mod_le; lia. }
  pose proof (Z.mod_pos_bound (u32 (ChecksumString32S flow (u32 (Z.of_nat i))))
                (u32 (width hk)) ltac:(lia)) as Hs.
  rewrite Z2Nat.id by nia. nia.
Qed.

Lemma cell_index_lt hk flow i :
  wf hk -> Z.of_nat i < depth hk -> (cell_index hk flow i < length (buckets hk))%nat.
Proof.
  intros Hwf Hi. pose proof (cell_index_range hk flow i Hwf) as Hr.
  destruct Hwf as (Hd & Hw & _ & Hlen & _). rewrite Hlen.
  apply Nat2Z.inj_lt. rewrite Z2Nat.id by nia. nia.
Qed.

(** Two rows never select the same cell. *)
Lemma cell_index_disjoint hk flow i i' :
  wf hk -> i <> i' -> cell_index hk flow i <> cell_index hk flow i'.
Proof.
  intros Hwf Hne Heq.
  pose proof (cell_index_range hk flow i Hwf) as Hr.
  pose proof (cell_index_range hk flow i' Hwf) as Hr'.
  rewrite Heq in Hr. destruct Hwf as (_ & Hw & _).
  assert (Z.of_nat i < Z.of_nat i' + 1) by nia.
  assert (Z.of_nat i' < Z.of_nat i + 1) by nia. lia.
Qed.

(** One row of the code: the selected cell is updated as [row_update]
    says, no other cell changes, and there is no panic. *)
Lemma Sample_row_spec hk flow incr i bs m g :
  wf hk -> is_u32 incr -> Z.of_nat i < depth hk ->
  length bs = length (buckets hk) ->
  Forall (fun b => is_u32 (count b)) bs ->
  exists b' o g',
    Sample_row hk flow (fingerprint flow) incr (Z.of_nat i) (bs, m, g)
      = Ret (<[cell_index hk flow i := b']> bs, contribute m o, g') /\
    row_update (decay hk) (fingerprint flow) incr (bs !!! cell_index hk flow i) g b' o g' /\
    is_u32 (count b').
Proof.
  intros Hwf Hincr Hi Hlen Hu32. unfold is_u32 in Hincr.
  pose proof (cell_index_lt hk flow i Hwf Hi) as Hj.
  pose proof (cell_index_range hk flow i Hwf) as Hr.
  destruct Hwf as (Hd & Hw & Hw32 & _).
  unfold Sample_row, slot.
  destruct (Z.eqb_spec (u32 (width hk)) 0) as [E|_]; [contradiction|].
  cbn [bind]. unfold index.
  set (j := u32 (ChecksumString32S flow (u32 (Z.of_nat i))) mod u32 (width hk)
            + Z.of_nat i * width hk).
  assert (Hjz : Z.to_nat j = cell_index hk flow i) by reflexivity.
  assert (Hj0 : 0 <= j).
  { pose proof (Z.mod_pos_bound (u32 (ChecksumString32S flow (u32 (Z.of_nat i))))
                  (u32 (width hk)) ltac:(pose proof (u32_range (width hk)); lia)).
    unfold j. nia. }
  destruct (Z.ltb_spec j 0) as [|_]; [lia|].
  rewrite Hjz.
  assert (Hl : bs !! cell_index hk flow i = Some (bs !!! cell_index hk flow i)).
  { apply list_lookup_lookup_total_lt. lia. }
  rewrite Hl. cbn [bind].
  set (b := bs !!! cell_index hk flow i) in *.
  assert (Hb : is_u32 (count b)).
  { rewrite Forall_lookup in Hu32. exact (Hu32 _ _ Hl). }
  destruct (Z.eqb_spec (count b) 0) as [Hz|Hnz].
  - exists (mkBucket (fingerprint flow) incr), (Some incr), g.
    repeat split; cbn [count]; try lia. apply row_occupy. exact Hz.
  - destruct (Z.eqb_spec (bucket_fingerprint b) (fingerprint flow)) as [Hfp|Hfp].
    + exists (mkBucket (fingerprint flow) (u32 (count b + incr))),
             (Some (u32 (count b + incr))), g.
      rewrite Hfp. repeat split; cbn [count]; try apply u32_range.
      apply row_add; assumption.
    + destruct (decay_loop_spec (decay hk) (fingerprint flow) (Z.to_nat incr) b m g)
        as (b' & o & g' & Hloop & Hunits & Hb'); [unfold is_u32 in Hb; lia|lia|].
      exists b', o, g'. rewrite Hloop. repeat split; try lia.
      apply row_decay; assumption.
Qed.

Lemma max_contrib_bounds out n m :
  m <= max_contrib out n m /\
  (forall k c, (k < n)%nat -> out k = Some c -> c <= max_contrib out n m).
Proof.
  revert out m. induction n as [|n IH]; intros out m; cbn [max_contrib].
  - split; [lia|]. intros k c Hk. lia.
  - destruct (IH (fun k => out (S k)) (contribute m (out 0%nat))) as [Hm Hk].
    assert (Hc : m <= contribute m (out 0%nat)).
    { unfold contribute. destruct (out 0%nat); [rewrite max_spec|]; lia. }
    split; [lia|]. intros k c Hlt Hout. destruct k as [|k].
    + assert (c <= contribute m (out 0%nat)); [|lia].
      rewrite Hout. cbn [contribute]. rewrite max_spec. lia.
    + apply (Hk k c); [lia|exact Hout].
Qed.

Lemma max_contrib_attained out n m :
  max_contrib out n m = m \/
  exists k, (k < n)%nat /\ out k = Some (max_contrib out n m).
Proof.
  revert out m. induction n as [|n IH]; intros out m; cbn [max_contrib].
  - left. reflexivity.
  - destruct (IH (fun k => out (S k)) (contribute m (out 0%nat))) as [Heq|(k & Hk & Hout)].
    + rewrite Heq. unfold contribute. destruct (out 0%nat) as [c|] eqn:E; [|left; reflexivity].
      rewrite max_spec. destruct (Z.max_spec m c) as [[_ ->]|[_ ->]].
      * right. exists 0%nat. split; [lia|exact E].
      * left. reflexivity.
    + right. exists (S k). split; [lia|exact Hout].
Qed.

(** The rows [i .. i+n-1] of the code, run from the cells [bs]: each row
    updates its own cell of [bs] as [row_update] says, and the other cells
    stay. *)
Lemma Sample_rows_spec hk flow incr n i bs m g :
  wf hk -> is_u32 incr -> Z.of_nat (i + n) <= depth hk ->
  length bs = length (buckets hk) ->
  Forall (fun b => is_u32 (count b)) bs ->
  exists bs' g' (gen : nat -> Rand) (out : nat -> option Z),
    Sample_rows hk flow (fingerprint flow) incr n (Z.of_nat i) (bs, m, g)
      = Ret (bs', max_contrib out n m, g') /\
    length bs' = length bs /\
    Forall (fun b => is_u32 (count b)) bs' /\
    gen 0%nat = g /\ gen n = g' /\
    (forall k, (k < n)%nat ->
       row_update (decay hk) (fingerprint flow) incr
         (bs !!! cell_index hk flow (i + k)) (gen k)
         (bs' !!! cell_index hk flow (i + k)) (out k) (gen (S k))) /\
    (forall j, (forall k, (k < n)%nat -> j <> cell_index hk flow (i + k)) ->
       bs' !!! j = bs !!! j).
Proof.
  intros Hwf Hincr. revert i bs m g.
  induction n as [|n IH]; intros i bs m g Hi Hlen Hu32.
  - exists bs, g, (fun _ => g), (fun _ => None). cbn [Sample_rows max_contrib].
    repeat split; try assumption; try reflexivity. intros k Hk. lia.
  - cbn [Sample_rows].
    destruct (Sample_row_spec hk flow incr i bs m g Hwf Hincr ltac:(lia) Hlen Hu32)
      as (b' & o & g1 & Hrow & Hupd & Hb').
    rewrite Hrow. cbn [bind].
    set (ji := cell_index hk flow i) in *.
    assert (Hji : (ji < length bs)%nat).
    { rewrite Hlen. apply cell_index_lt; [exact Hwf|lia]. }
    replace (Z.of_nat i + 1) with (Z.of_nat (S i)) by lia.
    destruct (IH (S i) (<[ji := b']> bs) (contribute m o) g1)
      as (bs' & g' & gen1 & out1 & Hrows & Hlen' & Hu32' & Hg0 & Hgn & Hupds & Hrest).
    { lia. }
    { rewrite length_insert. exact Hlen. }
    { apply Forall_insert; assumption. }
    exists bs', g',
      (fun k => match k with O => g | S k' => gen1 k' end),
      (fun k => match k with O => o | S k' => out1 k' end).
    cbn [max_contrib]. rewrite length_insert in Hlen'.
    repeat split; try assumption.
    + intros k Hk. destruct k as [|k].
      * rewrite Nat.add_0_r. fold ji. rewrite Hg0.
        rewrite (Hrest ji).
        -- rewrite list_lookup_total_insert_eq by exact Hji. exact Hupd.
        -- intros k Hk'. apply cell_index_disjoint; [exact Hwf|lia].
      * replace (i + S k)%nat with (S i + k)%nat by lia.
        specialize (Hupds k ltac:(lia)).
        rewrite list_lookup_total_insert_ne in Hupds; [exact Hupds|].
        apply cell_index_disjoint; [exact Hwf|lia].
    + intros j Hj. rewrite (Hrest j).
      * apply list_lookup_total_insert_ne. intros E.
        apply (Hj 0%nat ltac:(lia)). rewrite Nat.add_0_r. symmetry. exact E.
      * intros k Hk. replace (S i + k)%nat with (i + S k)%nat by lia.
        apply Hj. lia.
Qed.

(** C1. With a positive increment, on a well-formed sketch, the update of
    the matrix returns; each of the [depth] rows updates the cell it
    selects as [row_update] says (occupy an empty cell with the fingerprint
    and the increment; add the increment to a cell of the same fingerprint;
    else spend the units of the increment on draws, each hit taking one
    from the count, until the units are spent or the count reaches zero and
    the flow takes the cell with the units then left); every other cell
    keeps its content; and [maxCount] is the maximum of the counts the rows
    contributed, a row whose occupant survived contributing nothing. *)
Theorem C1_Sample_matrix (hk : HeavyKeeper) (flow : string) (incr : Z) (g : Rand) :
  wf hk -> 0 < incr < 2 ^ 32 ->
  exists bs maxCount g' (gen : nat -> Rand) (out : nat -> option Z),
    Sample_matrix hk flow incr g = Ret (bs, maxCount, g') /\
    gen 0%nat = g /\ gen (Z.to_nat (depth hk)) = g' /\
    (forall i, Z.of_nat i < depth hk ->
       row_update (decay hk) (fingerprint flow) incr
         (buckets hk !!! cell_index hk flow i) (gen i)
         (bs !!! cell_index hk flow i) (out i) (gen (S i))) /\
    (forall j, (forall i, Z.of_nat i < depth hk -> j <> cell_index hk flow i) ->
       bs !!! j = buckets hk !!! j) /\
    length bs = length (buckets hk) /\
    maxCount = max_contrib out (Z.to_nat (depth hk)) 0 /\
    (forall i c, Z.of_nat i < depth hk -> out i = Some c -> c <= maxCount) /\
    (maxCount = 0 \/ exists i, Z.of_nat i < depth hk /\ out i = Some maxCount).
Proof.
  intros Hwf Hincr. pose proof Hwf as (Hd & _ & _ & _ & Hu32 & _).
  destruct (Sample_rows_spec hk flow incr (Z.to_nat (depth hk)) 0 (buckets hk) 0 g
              Hwf ltac:(unfold is_u32; lia) ltac:(lia) eq_refl Hu32)
    as (bs & g' & gen & out & Hrows & Hlen & _ & Hg0 & Hgn & Hupds & Hrest).
  exists bs, (max_contrib out (Z.to_nat (depth hk)) 0), g', gen, out.
  unfold Sample_matrix. change 0 with (Z.of_nat 0) at 1.
  repeat split; try assumption.
  - intros i Hi. apply (Hupds i). lia.
  - intros j Hj. apply Hrest. intros k Hk. apply Hj. lia.
  - intros i c Hi Hout.
    apply (proj2 (max_contrib_bounds out (Z.to_nat (depth hk)) 0) i c); [lia|exact Hout].
  - destruct (max_contrib_attained out (Z.to_nat (depth hk)) 0) as [E|(k & Hk & E)].
    + left. exact E.
    + right. exists k. split; [lia|exact E].
Qed.

Lemma first_at_exists (h : minHeap) flow :
  flow ∈ (Flow <$> h) -> exists k, first_at h flow k.
Proof.
  induction h as [|e h IH]; intros Hin.
  - apply elem_of_nil in Hin. destruct Hin.
  - destruct (String.eqb_spec (Flow e) flow) as [Heq|Hne].
    + exists 0%nat. split; [exists e; split; [reflexivity|exact Heq]|].
      intros j y Hj. lia.
    + rewrite fmap_cons in Hin. apply elem_of_cons in Hin as [Hin|Hin]; [congruence|].
      destruct (IH Hin) as (k & (x & Hx & Hf) & Hbefore).
      exists (S k). split; [exists x; split; assumption|].
      intros [|j] y Hj Hy; cbn in Hy.
      * injection Hy as <-. exact Hne.
      * apply (Hbefore j y); [lia|exact Hy].
Qed.

Lemma first_at_lt (h : minHeap) flow k : first_at h flow k -> (k < length h)%nat.
Proof. intros [(e & He & _) _]. eapply lookup_lt_Some. exact He. Qed.

(** C2. On a well-formed sketch [Sample] returns. Its answer and the heap
    it leaves depend on [maxCount], the result of the matrix update, and on
    [heapMin], the count at the root, which is the least count of a heap
    in heap order. When [maxCount < heapMin] the answer is [false] and the
    heap is the one before the call. Otherwise the answer is [true]; when
    the flow is held at index [k] (the first such index) the entry at [k]
    gets the count [maxCount] and [heap.Fix] runs at [k]; when no entry
    holds the flow the root is overwritten with the flow and [maxCount] and
    [heap.Fix] runs at the root; in both cases the result is a
    rearrangement of the overwritten heap and, the heap being in heap order
    before the call, is in heap order again. *)
Theorem C2_Sample_tracker (hk : HeavyKeeper) (flow : string) (incr : Z) (g : Rand) :
  wf hk -> is_u32 incr ->
  exists bs maxCount g' heapMin admitted h',
    Sample_matrix hk flow incr g = Ret (bs, maxCount, g') /\
    Min (heap hk) = Ret heapMin /\
    (is_heap (heap hk) -> Forall (fun e => heapMin <= Count e) (heap hk)) /\
    Sample hk flow incr g =
      Ret (admitted, mkHeavyKeeper (decay hk) (depth hk) (width hk) bs h', g') /\
    (maxCount < heapMin -> admitted = false /\ h' = heap hk) /\
    (heapMin <= maxCount ->
       admitted = true /\
       (is_heap (heap hk) -> is_heap h') /\
       (forall k, first_at (heap hk) flow k ->
          h' = heap_Fix (<[k := mkFlowCount flow maxCount]> (heap hk)) k /\
          h' ≡ₚ <[k := mkFlowCount flow maxCount]> (heap hk)) /\
       (flow ∉ (Flow <$> heap hk) ->
          h' = heap_Fix (<[0%nat := mkFlowCount flow maxCount]> (heap hk)) 0 /\
          h' ≡ₚ <[0%nat := mkFlowCount flow maxCount]> (heap hk))).
Proof.
  intros Hwf Hincr. pose proof Hwf as (Hd & _ & _ & _ & Hu32 & Hne).
  destruct (Sample_rows_spec hk flow incr (Z.to_nat (depth hk)) 0 (buckets hk) 0 g
              Hwf Hincr ltac:(lia) eq_refl Hu32)
    as (bs & g' & gen & out & Hrows & _).
  set (maxCount := max_contrib out (Z.to_nat (depth hk)) 0) in *.
  assert (Hm : Sample_matrix hk flow incr g = Ret (bs, maxCount, g')).
  { unfold Sample_matrix. change 0 with (Z.of_nat 0) at 1. exact Hrows. }
  destruct (heap hk) as [|e0 h0] eqn:Eh; [congruence|]. rewrite <- Eh in *.
  assert (Hmin : Min (heap hk) = Ret (Count e0)).
  { rewrite Eh. reflexivity. }
  assert (Hroot : cnt (heap hk) 0 = Count e0) by (rewrite Eh; reflexivity).
  assert (Hlen : (0 < length (heap hk))%nat) by (rewrite Eh; cbn; lia).
  exists bs, maxCount, g', (Count e0),
    (snd (Sample_heap (heap hk) flow maxCount (Count e0))),
    (fst (Sample_heap (heap hk) flow maxCount (Count e0))).
  split; [exact Hm|]. split; [exact Hmin|]. split; [|split; [|split]].
  - intros Hheap. apply Forall_lookup. intros j e Hj.
    pose proof (lookup_lt_Some _ _ _ Hj) as Hlt.
    pose proof (is_heap_root_min (heap hk) j Hheap Hlt) as Hle.
    unfold cnt in Hle at 2. rewrite (list_lookup_total_correct _ _ _ Hj) in Hle. lia.
  - unfold Sample. rewrite Hmin, Hm. cbn [bind].
    destruct (Sample_heap (heap hk) flow maxCount (Count e0)). reflexivity.
  - intros Hlt. rewrite Sample_heap_rejected by exact Hlt. split; reflexivity.
  - intros Hle.
    assert (Hupd : forall k, first_at (heap hk) flow k ->
              Sample_heap (heap hk) flow maxCount (Count e0) =
              (heap_Fix (<[k := mkFlowCount flow maxCount]> (heap hk)) k, true)).
    { intros k Hk. apply Sample_heap_update; assumption. }
    assert (Hins : flow ∉ (Flow <$> heap hk) ->
              Sample_heap (heap hk) flow maxCount (Count e0) =
              (heap_Fix (<[0%nat := mkFlowCount flow maxCount]> (heap hk)) 0, true)).
    { intros Hx. apply Sample_heap_insert; assumption. }
    split; [|split; [|split]].
    + destruct (decide (flow ∈ (Flow <$> heap hk))) as [Hin|Hnin].
      * destruct (first_at_exists _ _ Hin) as [k Hk]. rewrite (Hupd k Hk). reflexivity.
      * rewrite (Hins Hnin). reflexivity.
    + intros Hheap. destruct (decide (flow ∈ (Flow <$> heap hk))) as [Hin|Hnin].
      * destruct (first_at_exists _ _ Hin) as [k Hk]. rewrite (Hupd k Hk). cbn [fst].
        apply heap_Fix_is_heap; [exact Hheap|]. eapply first_at_lt. exact Hk.
      * rewrite (Hins Hnin). cbn [fst]. apply heap_Fix_is_heap; assumption.
    + intros k Hk. rewrite (Hupd k Hk). cbn [fst]. split; [reflexivity|].
      apply heap_Fix_Permutation. rewrite length_insert. eapply first_at_lt. exact Hk.
    + intros Hx. rewrite (Hins Hx). cbn [fst]. split; [reflexivity|].
      apply heap_Fix_Permutation. rewrite length_insert. exact Hlen.
Qed.

(** [Sample] keeps the sketch well formed and its heap in heap order. *)
Lemma Sample_invariant hk flow incr g :
  wf hk -> is_u32 incr -> is_heap (heap hk) ->
  exists admitted hk' g',
    Sample hk flow incr g = Ret (admitted, hk', g') /\
    wf hk' /\ is_heap (heap hk') /\ same_shape hk' hk.
Proof.
  intros Hwf Hincr Hheap. pose proof Hwf as (Hd & Hw & Hw32 & Hlen & Hu32 & Hne).
  destruct (Sample_rows_spec hk flow incr (Z.to_nat (depth hk)) 0 (buckets hk) 0 g
              Hwf Hincr ltac:(lia) eq_refl Hu32)
    as (bs & g' & gen & out & Hrows & Hlen' & Hu32' & _).
  destruct (heap hk) as [|e0 h0] eqn:Eh; [congruence|]. rewrite <- Eh in *.
  assert (Hmin : Min (heap hk) = Ret (Count e0)) by (rewrite Eh; reflexivity).
  assert (Hpos : (0 < length (heap hk))%nat) by (rewrite Eh; cbn; lia).
  unfold Sample, Sample_matrix. change 0 with (Z.of_nat 0) at 1.
  rewrite Hmin, Hrows. cbn [bind].
  set (m := max_contrib out (Z.to_nat (depth hk)) 0).
  destruct (Sample_heap (heap hk) flow m (Count e0)) as [h' adm] eqn:Es.
  assert (Hh' : is_heap h' /\ length h' = length (heap hk)).
  { destruct (Z_lt_le_dec m (Count e0)) as [Hlt|Hle].
    - rewrite Sample_heap_rejected in Es by exact Hlt. injection Es as <- _.
      split; [exact Hheap|reflexivity].
    - destruct (decide (flow ∈ (Flow <$> heap hk))) as [Hin|Hnin].
      + destruct (first_at_exists _ _ Hin) as [k Hk].
        rewrite (Sample_heap_update _ _ _ _ k Hle Hk) in Es. injection Es as <- _.
        split; [apply heap_Fix_is_heap; [exact Hheap|eapply first_at_lt; exact Hk]|].
        rewrite length_heap_Fix, length_insert. reflexivity.
      + rewrite (Sample_heap_insert _ _ _ _ Hle Hnin) in Es. injection Es as <- _.
        split; [apply heap_Fix_is_heap; assumption|].
        rewrite length_heap_Fix, length_insert. reflexivity. }
  destruct Hh' as [Hheap' Hlenh].
  eexists _, _, _. split; [reflexivity|]. split; [|split].
  - unfold wf. cbn [depth width buckets heap]. repeat split; try assumption; try lia.
    intros ->. cbn in Hlenh. lia.
  - exact Hheap'.
  - unfold same_shape. cbn [decay depth width buckets heap]. repeat split; assumption.
Qed.

End SampleProperties.

(** * One call to [Sample], step by step *)

Section SampleSteps.

Variable ChecksumString32S : string -> Z -> Z.
Variable Pow : float64 -> float64 -> float64.

(** The whole of a call: the matrix update row by row, then the heap,
    which either stays or is [heap.Fix]ed after one entry, at the first
    index holding the flow or else at the root, was overwritten. *)
Lemma Sample_step hk flow incr g :
  wf hk -> is_u32 incr ->
  exists bs g' (gen : nat -> Rand) (out : nat -> option Z) h',
    let m := max_contrib out (Z.to_nat (depth hk)) 0 in
    Sample_matrix ChecksumString32S Pow hk flow incr g = Ret (bs, m, g') /\
    length bs = length (buckets hk) /\
    Forall (fun b => is_u32 (count b)) bs /\
    gen 0%nat = g /\ gen (Z.to_nat (depth hk)) = g' /\
    (forall i, (i < Z.to_nat (depth hk))%nat ->
       row_update Pow (decay hk) (fingerprint ChecksumString32S flow) incr
         (buckets hk !!! cell_index ChecksumString32S hk flow i) (gen i)
         (bs !!! cell_index ChecksumString32S hk flow i) (out i) (gen (S i))) /\
    Sample ChecksumString32S Pow hk flow incr g =
      Ret (cnt (heap hk) 0 <=? m,
           mkHeavyKeeper (decay hk) (depth hk) (width hk) bs h', g') /\
    (m < cnt (heap hk) 0 -> h' = heap hk) /\
    (cnt (heap hk) 0 <= m ->
       exists k, (k < length (heap hk))%nat /\
         (first_at (heap hk) flow k \/ (flow ∉ (Flow <$> heap hk)) /\ k = 0%nat) /\
         h' = heap_Fix (<[k := mkFlowCount flow m]> (heap hk)) k /\
         h' ≡ₚ <[k := mkFlowCount flow m]> (heap hk)).
Proof.
  intros Hwf Hincr. pose proof Hwf as (Hd & _ & _ & _ & Hu32 & Hne).
  destruct (Sample_rows_spec ChecksumString32S Pow hk flow incr (Z.to_nat (depth hk)) 0
              (buckets hk) 0 g Hwf Hincr ltac:(lia) eq_refl Hu32)
    as (bs & g' & gen & out & Hrows & Hlen & Hbs & Hg0 & Hgn & Hupds & _).
  set (m := max_contrib out (Z.to_nat (depth hk)) 0) in *.
  assert (Hm : Sample_matrix ChecksumString32S Pow hk flow incr g = Ret (bs, m, g')).
  { unfold Sample_matrix. change 0 with (Z.of_nat 0) at 1. exact Hrows. }
  destruct (heap hk) as [|e0 h0] eqn:Eh; [congruence|]. rewrite <- Eh in *.
  assert (Hmin : Min (heap hk) = Ret (cnt (heap hk) 0)) by (rewrite Eh; reflexivity).
  assert (Hpos : (0 < length (heap hk))%nat) by (rewrite Eh; cbn; lia).
  exists bs, g', gen, out, (fst (Sample_heap (heap hk) flow m (cnt (heap hk) 0))).
  cbv zeta. fold m.
  split; [exact Hm|]. split; [exact Hlen|]. split; [exact Hbs|].
  split; [exact Hg0|]. split; [exact Hgn|]. split; [exact Hupds|].
  split; [|split].
  - unfold Sample. rewrite Hmin, Hm. cbn [bind].
    destruct (Z.leb_spec (cnt (heap hk) 0) m) as [Hle|Hlt].
    + destruct (decide (flow ∈ (Flow <$> heap hk))) as [Hin|Hnin].
      * destruct (first_at_exists _ _ Hin) as [k Hk].
        rewrite (Sample_heap_update _ _ _ _ k Hle Hk). reflexivity.
      * rewrite (Sample_heap_insert _ _ _ _ Hle Hnin). reflexivity.
    + rewrite (Sample_heap_rejected _ _ _ _ Hlt). reflexivity.
  - intros Hlt. rewrite (Sample_heap_rejected _ _ _ _ Hlt). reflexivity.
  - intros Hle. destruct (decide (flow ∈ (Flow <$> heap hk))) as [Hin|Hnin].
    + destruct (first_at_exists _ _ Hin) as [k Hk].
      pose proof (first_at_lt _ _ _ Hk) as Hklt.
      exists k. rewrite (Sample_heap_update _ _ _ _ k Hle Hk). cbn [fst].
      split; [exact Hklt|]. split; [left; exact Hk|]. split; [reflexivity|].
      apply heap_Fix_Permutation. rewrite length_insert. exact Hklt.
    + exists 0%nat. rewrite (Sample_heap_insert _ _ _ _ Hle Hnin). cbn [fst].
      split; [exact Hpos|]. split; [right; split; [exact Hnin|reflexivity]|].
      split; [reflexivity|].
      apply heap_Fix_Permutation. rewrite length_insert. exact Hpos.
Qed.

End SampleSteps.

(** * [Add] of topk.go and the increment zero *)

(** [Add] guards the increment zero: the call changes nothing. *)
Lemma Add_zero_noop hash Pow hk flow g :
  TopkGo.Add hash Pow hk flow 0 g = Ret (hk, g).
Proof. reflexivity. Qed.

(** * Construction and failures *)

Lemma is_heap_replicate n e : is_heap (replicate n e).
Proof.
  intros j Hj. rewrite length_replicate in Hj.
  pose proof (parent_lt j ltac:(lia)) as Hp.
  unfold cnt. rewrite !lookup_total_replicate_2 by lia. lia.
Qed.

Section Construction.

Variable ChecksumString32S : string -> Z -> Z.
Variable Log : float64 -> float64.
Variable Pow : float64 -> float64 -> float64.

(** A constructed sketch is well formed as soon as [uint32(width)] is not
    zero, and its heap is in heap order. *)
Lemma New_wf k d hk :
  New Log k d = Ret hk -> u32 (width hk) <> 0 -> wf hk /\ is_heap (heap hk).
Proof.
  intros HN Hw. apply New_Ret in HN as (Hk & _ & _ & ->).
  cbn [width] in Hw. unfold wf. cbn [depth width buckets heap].
  unfold New_depth, New_width in *. repeat split; try lia.
  - apply length_replicate.
  - apply Forall_forall. intros b Hb. apply elem_of_replicate_inv in Hb. subst b.
    unfold is_u32, bucket0. cbn [count]. lia.
  - intros E. apply (f_equal length) in E. rewrite length_replicate in E.
    cbn [length] in E. lia.
  - apply is_heap_replicate.
Qed.

(** When [uint32(width)] is zero the first row of [Sample] divides by
    zero. *)
Lemma Sample_panics_when_width_wraps hk flow incr g :
  0 < depth hk -> heap hk <> [] -> u32 (width hk) = 0 ->
  Sample ChecksumString32S Pow hk flow incr g
    = Panic "runtime error: integer divide by zero".
Proof.
  intros Hd Hne Hw. unfold Sample, Min, index.
  destruct (heap hk) as [|e h]; [congruence|]. cbn [bind lookup list_lookup Z.to_nat].
  unfold Sample_matrix.
  destruct (Z.to_nat (depth hk)) as [|n] eqn:En; [lia|].
  cbn [Sample_rows]. unfold Sample_row, slot. rewrite Hw. reflexivity.
Qed.

(** C7 (the code). [New] accepts the decay NaN, which is not a number of
    (0, 1]: both comparisons of the check are false on NaN. *)
Theorem C7_New_accepts_NaN :
  returns (New Log 1 S754_nan) /\ ~ in_unit_interval S754_nan.
Proof.
  split.
  - apply New_returns_iff. repeat split; reflexivity.
  - intros [H _]. discriminate H.
Qed.

(** For a decay that is a number, [New] panics exactly when [k < 1] or
    the decay is outside (0, 1]. *)
Lemma New_panics_iff k d :
  d <> S754_nan ->
  not (returns (New Log k d)) <-> (k < 1 \/ not (in_unit_interval d)).
Proof.
  intros Hd. rewrite New_returns_iff. unfold in_unit_interval. split.
  - intros H. destruct (Z_lt_le_dec k 1) as [Hk|Hk]; [left; exact Hk|right].
    intros [H0 H1]. apply H. split; [lia|]. split.
    + apply f64_ltb_not_leb. exact H0.
    + apply f64_leb_not_ltb. exact H1.
  - intros [Hk|Hn] (Hk' & H0 & H1); [lia|]. apply Hn.
    unfold f64_leb, f64_ltb, SFleb, SFltb in *.
    rewrite (SFcompare_antisym d f64_zero).
    rewrite (SFcompare_antisym d f64_one) in H1.
    destruct d as [s|s| |s m e]; [| |congruence|].
    + destruct s; discriminate H0.
    + destruct s; [discriminate H0|discriminate H1].
    + destruct (SFcompare (S754_finite s m e) f64_zero) as [[]|] eqn:E0;
        try discriminate H0;
        destruct (SFcompare (S754_finite s m e) f64_one) as [[]|] eqn:E1;
        try discriminate H1; try (split; reflexivity);
        destruct s; discriminate.
Qed.

(** With increment zero on a freshly constructed sketch, [Sample] answers
    [true] and puts the flow in the tracker. *)
Lemma Sample_zero_on_fresh k d hk flow g :
  New Log k d = Ret hk -> u32 (width hk) <> 0 -> flow <> EmptyString ->
  exists hk' g',
    Sample ChecksumString32S Pow hk flow 0 g = Ret (true, hk', g') /\
    (flow ∉ (Flow <$> heap hk)) /\ (flow ∈ (Flow <$> heap hk')).
Proof.
  intros HN Hw Hflow. destruct (New_wf k d hk HN Hw) as [Hwf Hheap].
  destruct (Sample_step ChecksumString32S Pow hk flow 0 g Hwf ltac:(unfold is_u32; lia))
    as (bs & g' & gen & out & h' & _ & _ & _ & _ & _ & _ & HS & _ & Hadm).
  cbv zeta in HS, Hadm.
  set (m := max_contrib out (Z.to_nat (depth hk)) 0) in *.
  apply New_Ret in HN as (Hk & _ & _ & Ehk).
  assert (Hh : heap hk = replicate (Z.to_nat k) FlowCount0) by (rewrite Ehk; reflexivity).
  assert (Hnin : flow ∉ (Flow <$> heap hk)).
  { rewrite Hh, fmap_replicate. intros Hin. apply elem_of_replicate_inv in Hin.
    apply Hflow. exact Hin. }
  assert (Hroot : cnt (heap hk) 0 = 0).
  { rewrite Hh. destruct (Z.to_nat k) eqn:En; [lia|]. reflexivity. }
  assert (Hle : cnt (heap hk) 0 <= m).
  { rewrite Hroot. apply max_contrib_bounds. }
  destruct (Hadm Hle) as (k0 & Hk0 & Hcase & _ & Hperm).
  destruct (Z.leb_spec (cnt (heap hk) 0) m) as [_|Hlt]; [|lia].
  eexists _, _. split; [exact HS|]. split; [exact Hnin|]. cbn [heap].
  rewrite Hperm. apply list_elem_of_fmap. exists (mkFlowCount flow m).
  split; [reflexivity|]. apply list_elem_of_lookup. exists k0.
  apply list_lookup_insert_eq. exact Hk0.
Qed.

End Construction.

Lemma wfb_wf hk : wfb hk = true -> wf hk.
Proof.
  unfold wfb, wf. rewrite !andb_true_iff.
  intros (((((Hd & Hw) & Hw32) & Hlen) & Hu) & Hne).
  apply Z.leb_le in Hd. apply Z.ltb_lt in Hw.
  apply negb_true_iff, Z.eqb_neq in Hw32. apply Nat.eqb_eq in Hlen.
  repeat split; try assumption.
  - apply Forall_forall. intros b Hb.
    rewrite forallb_forall in Hu. apply list_elem_of_In in Hb.
    specialize (Hu b Hb). apply andb_true_iff in Hu as [H0 H1].
    apply Z.leb_le in H0. apply Z.ltb_lt in H1. split; assumption.
  - destruct (heap hk); [discriminate Hne|discriminate].
Qed.

Lemma is_heapb_is_heap h : is_heapb h = true -> is_heap h.
Proof.
  unfold is_heapb. rewrite forallb_forall. intros H j Hj.
  apply Z.leb_le. apply H. apply in_seq. lia.
Qed.

(** * Closed examples: the tests of the package, witnesses, counterexamples *)

Module Examples.

Import Instances Scenarios.

Local Open Scope string_scope.

(** ** The tests of topk_test.go *)

Example TestHeavyKeeper_zero : fst (Top fresh5) = [].
Proof. vm_compute. reflexivity. Qed.

Example TestHeavyKeeper_cardinality_below_k :
  fst (Top (after 5 [("c", 1); ("b", 5); ("a", 10); ("d", 25)]))
  = [mkFlowCount "d" 25; mkFlowCount "a" 10; mkFlowCount "b" 5; mkFlowCount "c" 1].
Proof. vm_compute. reflexivity. Qed.

Example TestHeavyKeeper_cardinality_above_k :
  fst (Top (after 5 [("c", 1); ("b", 5); ("a", 10); ("d", 25);
                     ("f", 3); ("g", 20); ("h", 100); ("i", 2)]))
  = [mkFlowCount "h" 100; mkFlowCount "d" 25; mkFlowCount "g" 20;
     mkFlowCount "a" 10; mkFlowCount "b" 5].
Proof. vm_compute. reflexivity. Qed.

Example TestSample_returnValue :
  exists hk g,
    Samples (after 2 []) [("a", 1); ("a", 1); ("a", 1); ("b", 1); ("b", 1);
                          ("c", 1); ("c", 1)] draws_half
    = Ret ([true; true; true; true; true; false; true], hk, g).
Proof. eexists _, _. vm_compute. reflexivity. Qed.

Example TestDecayAll :
  fst (Top (DecayAll six_flows pct_03))
  = [mkFlowCount "f" 70; mkFlowCount "e" 35; mkFlowCount "d" 17;
     mkFlowCount "c" 9; mkFlowCount "b" 4] /\
  fst (Top (DecayAll (DecayAll (DecayAll six_flows pct_03) decay_09) decay_09)) = [].
Proof. split; vm_compute; reflexivity. Qed.

Example TestReset : fst (Top (Reset three_flows)) = [].
Proof. vm_compute. reflexivity. Qed.

(** ** Witnesses *)

(** ["h"] with weight 100 meets ["c"] in its cell of row 0, takes it at the
    first unit and occupies empty cells in the rows 1 and 2. *)
Lemma C1_witness :
  wf before_h /\ 0 < 100 < 2 ^ 32 /\
  buckets before_h !! cell_index xxh32 before_h "h" 0
    = Some (mkBucket (fingerprint xxh32 "c") 1) /\
  exists bs g',
    Sample_matrix xxh32 pow before_h "h" 100 draws_half = Ret (bs, 100, g') /\
    bs !! cell_index xxh32 before_h "h" 0 = Some (mkBucket (fingerprint xxh32 "h") 100) /\
    pos g' = 1%nat.
Proof.
  assert (Hwf : wf before_h) by (apply wfb_wf; vm_compute; reflexivity).
  assert (Hincr : 0 < 100 < 2 ^ 32) by lia.
  split; [exact Hwf|]. split; [exact Hincr|]. split; [vm_compute; reflexivity|].
  destruct (C1_Sample_matrix xxh32 pow before_h "h" 100 draws_half Hwf Hincr)
    as (bs & maxCount & g' & gen & out & Hm & _).
  exists bs, g'.
  assert (Hv : Ret (bs, maxCount, g')
               = Sample_matrix xxh32 pow before_h "h" 100 draws_half)
    by (symmetry; exact Hm).
  vm_compute in Hv. injection Hv as -> -> ->.
  split; [exact Hm|]. split; vm_compute; reflexivity.
Defined.

Lemma C2_witness :
  wf before_h /\ is_u32 100 /\ is_heap (heap before_h) /\
  exists bs h' g',
    Sample xxh32 pow before_h "h" 100 draws_half
    = Ret (true, mkHeavyKeeper (decay before_h) (depth before_h) (width before_h) bs h', g')
    /\ is_heap h'.
Proof.
  assert (Hwf : wf before_h) by (apply wfb_wf; vm_compute; reflexivity).
  assert (Hincr : is_u32 100) by (unfold is_u32; lia).
  assert (Hheap : is_heap (heap before_h)) by (apply is_heapb_is_heap; vm_compute; reflexivity).
  split; [exact Hwf|]. split; [exact Hincr|]. split; [exact Hheap|].
  destruct (C2_Sample_tracker xxh32 pow before_h "h" 100 draws_half Hwf Hincr)
    as (bs & maxCount & g' & heapMin & admitted & h' & Hm & Hmin & _ & HS & _ & Hadm).
  vm_compute in Hm. injection Hm as _ Hmax _.
  vm_compute in Hmin. injection Hmin as Hmin.
  destruct (Hadm ltac:(lia)) as (-> & Hh' & _).
  exists bs, h', g'. split; [exact HS|exact (Hh' Hheap)].
Defined.

Lemma C5_witness :
  New log 5 decay_09 = Ret fresh5 /\ same_shape three_flows fresh5 /\
  Reset three_flows = fresh5 /\
  fst (Top (Reset three_flows)) = [] /\
  (forall x, x <> "" -> HeavyKeeper_Count (Reset three_flows) x = (0, false)).
Proof.
  assert (HN : New log 5 decay_09 = Ret fresh5) by (vm_compute; reflexivity).
  assert (Hs : same_shape three_flows fresh5) by (repeat split; vm_compute; reflexivity).
  split; [exact HN|]. split; [exact Hs|].
  exact (C5_Reset_like_new log 5 decay_09 fresh5 three_flows HN Hs).
Defined.

Lemma C8_witness :
  New log 100 decay_09 = Ret fresh100 /\ width fresh100 = 460 /\ depth fresh100 = 4.
Proof.
  assert (HN : New log 100 decay_09 = Ret fresh100) by (vm_compute; reflexivity).
  split; [exact HN|].
  destruct (C8_New_dimensions log 100 decay_09 fresh100 HN) as (Hw & Hd & _).
  split; [rewrite Hw|rewrite Hd]; vm_compute; reflexivity.
Defined.

Lemma C9_witness :
  ("a" ∉ (Flow <$> heap a_then_b)) /\
  HeavyKeeper_Count a_then_b "a" = (0, false) /\
  (forall hk', heap hk' = heap a_then_b -> HeavyKeeper_Count hk' "a" = (0, false)).
Proof.
  assert (Hx : "a" ∉ (Flow <$> heap a_then_b)).
  { intros Hin. apply list_elem_of_In in Hin. vm_compute in Hin.
    destruct Hin as [Hin|[]]. discriminate Hin. }
  split; [exact Hx|]. exact (C9_Count_outside_tracker a_then_b "a" Hx).
Defined.

(** The scenario of C9 step by step: ["a"] enters the tracker, ["b"]
    takes its place, and the matrix still holds the count of ["a"]. *)
Example a_evicted_by_b :
  HeavyKeeper_Count (after 1 [("a", 1)]) "a" = (1, true) /\
  HeavyKeeper_Count a_then_b "a" = (0, false) /\
  HeavyKeeper_Count a_then_b "b" = (5, true) /\
  buckets a_then_b !! cell_index xxh32 a_then_b "a" 0
    = Some (mkBucket (fingerprint xxh32 "a") 1).
Proof. repeat split; vm_compute; reflexivity. Qed.

Lemma C10_witness :
  in_unit_interval f64_one /\
  fst (Top (DecayAll six_flows f64_one)) = [] /\
  HeavyKeeper_Count (DecayAll six_flows f64_one) "f" = (0, true) /\
  HeavyKeeper_Count (Reset six_flows) "f" = (0, false).
Proof.
  assert (Hp : in_unit_interval f64_one) by (split; reflexivity).
  split; [exact Hp|].
  destruct (C10_DecayAll_keeps_identities six_flows f64_one Hp)
    as (_ & _ & Hone & _).
  destruct (Hone eq_refl) as (_ & _ & Htop & Hcount).
  split; [exact Htop|].
  assert (Hin : "f" ∈ (Flow <$> heap six_flows)).
  { apply list_elem_of_In. vm_compute. tauto. }
  destruct (Hcount "f" Hin) as [H1 H2].
  split; [exact H1|]. apply H2. discriminate.
Defined.

(** The three ranges of [DecayAll] on the sketch of TestDecayAll: a
    negative fraction, the fraction two, and 0.3. *)
Lemma C6_witness :
  DecayAll six_flows (SFopp f64_one) = six_flows /\
  DecayAll six_flows f64_two = Reset six_flows /\
  in_unit_interval pct_03 /\
  heap (DecayAll six_flows pct_03)
  = [mkFlowCount "b" 4; mkFlowCount "c" 9; mkFlowCount "d" 17;
     mkFlowCount "f" 70; mkFlowCount "e" 35].
Proof.
  assert (Hp : in_unit_interval pct_03) by (split; reflexivity).
  destruct (C6_DecayAll six_flows (SFopp f64_one)) as (Hneg & _ & _).
  destruct (C6_DecayAll six_flows f64_two) as (_ & Habove & _).
  destruct (C6_DecayAll six_flows pct_03) as (_ & _ & Hin).
  split; [exact (Hneg eq_refl)|]. split; [exact (Habove eq_refl)|].
  split; [exact Hp|].
  destruct (Hin Hp) as (_ & Hh & _). rewrite Hh. vm_compute. reflexivity.
Defined.

(** ** Counterexamples and failing inputs *)

(** C3. On a fresh sketch of one entry, [Sample("a", 0)] answers [true],
    writes the fingerprint of ["a"] into the cells it selects and puts
    ["a"] in the tracker, where [Count] finds it from then on; [Add] of
    topk.go returns at once on the increment zero. *)
Theorem C3_Sample_zero_not_noop :
  exists hk' g',
    Sample xxh32 pow fresh1 "a" 0 draws_half = Ret (true, hk', g') /\
    heap fresh1 = [FlowCount0] /\ heap hk' = [mkFlowCount "a" 0] /\
    HeavyKeeper_Count fresh1 "a" = (0, false) /\
    HeavyKeeper_Count hk' "a" = (0, true) /\
    buckets fresh1 !! cell_index xxh32 fresh1 "a" 0 = Some bucket0 /\
    buckets hk' !! cell_index xxh32 fresh1 "a" 0 = Some (mkBucket (fingerprint xxh32 "a") 0) /\
    fingerprint xxh32 "a" <> 0 /\
    (forall hk, TopkGo.Add xxh32 pow hk "a" 0 draws_half = Ret (hk, draws_half)).
Proof.
  eexists _, _. split; [vm_compute; reflexivity|].
  repeat split; try (vm_compute; reflexivity).
  vm_compute. discriminate.
Qed.

(** C5. After [Reset] (as on a fresh sketch) [Count] of the empty string
    answers [(0, true)]: the scan meets an empty slot, whose flow is the
    empty string. *)
Lemma C5_counterexample :
  Reset three_flows = fresh5 /\
  HeavyKeeper_Count (Reset three_flows) "" = (0, true) /\
  HeavyKeeper_Count fresh5 "" = (0, true).
Proof. repeat split; vm_compute; reflexivity. Qed.

(** C8. For [k = 100] the logarithm is 4.605..., which [int] truncates
    to 4 and rounding would take to 5; the product is 460.517..., which
    [int] truncates to 460 and rounding would take to 461. *)
Lemma C8_counterexample :
  New log 100 decay_09 = Ret fresh100 /\
  depth fresh100 = 4 /\
  Z.max 3 <$> round_nearest (log (float64_of_int 100)) = Some 5 /\
  width fresh100 = 460 /\
  Z.max 256 <$> round_nearest (f64_mul (float64_of_int 100) (log (float64_of_int 100)))
    = Some 461.
Proof. repeat split; vm_compute; reflexivity. Qed.

(** C7. For [k = 1034570302] the width is [5 * 2^32], whose conversion to
    [uint32] is zero: every call to [Sample] on that sketch panics. *)
Example Sample_divides_by_zero :
  exists hk, New log 1034570302 decay_09 = Ret hk /\
    width hk = 5 * 2 ^ 32 /\
    forall flow incr g,
      Sample xxh32 pow hk flow incr g = Panic "runtime error: integer divide by zero".
Proof.
  destruct (proj2 (New_returns_iff log 1034570302 decay_09)) as [hk HN].
  { split; [lia|split; reflexivity]. }
  exists hk. split; [exact HN|].
  destruct (New_Ret log 1034570302 decay_09 hk HN) as (_ & _ & _ & E).
  assert (Hw : width hk = New_width log 1034570302) by (rewrite E; reflexivity).
  assert (Hd : depth hk = New_depth log 1034570302) by (rewrite E; reflexivity).
  assert (Hh : heap hk = replicate (Z.to_nat 1034570302) FlowCount0)
    by (rewrite E; reflexivity).
  clear E.
  assert (Hw' : width hk = 5 * 2 ^ 32) by (rewrite Hw; vm_compute; reflexivity).
  assert (Hd' : depth hk = 20) by (rewrite Hd; vm_compute; reflexivity).
  split; [exact Hw'|]. intros flow incr g.
  apply Sample_panics_when_width_wraps.
  - lia.
  - rewrite Hh. intros E. apply (f_equal length) in E.
    rewrite length_replicate in E. cbn [length] in E. lia.
  - rewrite Hw'. reflexivity.
Qed.

End Examples.

(** * Further properties of the package *)

(** ** [Find] and [Count] *)

Lemma Count_loop_first (h : minHeap) flow k :
  first_at h flow k -> Count_loop h flow = (Count (h !!! k), true).
Proof.
  revert k. induction h as [|e h IH]; intros k [(x & Hx & Hf) Hbefore].
  - discriminate Hx.
  - cbn [Count_loop]. destruct k as [|k].
    + injection Hx as ->. rewrite <- Hf, String.eqb_refl. reflexivity.
    + destruct (String.eqb_spec (Flow e) flow) as [Heq|_].
      * exfalso. apply (Hbefore 0%nat e); [lia|reflexivity|exact Heq].
      * apply (IH k). split.
        -- exists x. split; [exact Hx|exact Hf].
        -- intros j y Hj Hy. apply (Hbefore (S j) y); [lia|exact Hy].
Qed.

(** [Find] answers [-1] exactly for a flow that no entry holds, and else
    the first index that holds the flow, an index of the heap. *)
Theorem Find_first_or_absent (h : minHeap) (flow : string) :
  (Find h flow = -1 /\ flow ∉ (Flow <$> h)) \/
  (exists k, Find h flow = Z.of_nat k /\ first_at h flow k /\ (k < length h)%nat).
Proof.
  destruct (decide (flow ∈ (Flow <$> h))) as [Hin|Hnin].
  - right. destruct (first_at_exists h flow Hin) as [k Hk]. exists k.
    split; [|split; [exact Hk|exact (first_at_lt h flow k Hk)]].
    unfold Find. rewrite (Find_from_first h flow k 0 Hk). lia.
  - left. split; [|exact Hnin]. apply Find_from_absent. exact Hnin.
Qed.

(** [Count] and [Find] scan alike: [Count] reports the entry at the index
    [Find] returns, and reports nothing exactly when [Find] returns [-1]. *)
Theorem Count_agrees_with_Find (hk : HeavyKeeper) (flow : string) :
  HeavyKeeper_Count hk flow =
  if Find (heap hk) flow =? -1 then (0, false)
  else (Count (heap hk !!! Z.to_nat (Find (heap hk) flow)), true).
Proof.
  unfold HeavyKeeper_Count.
  destruct (decide (flow ∈ (Flow <$> heap hk))) as [Hin|Hnin].
  - destruct (first_at_exists _ flow Hin) as [k Hk].
    unfold Find. rewrite (Find_from_first _ flow k 0 Hk).
    destruct (Z.eqb_spec (0 + Z.of_nat k) (-1)) as [E|_]; [lia|].
    replace (Z.to_nat (0 + Z.of_nat k)) with k by lia.
    apply Count_loop_first. exact Hk.
  - unfold Find. rewrite (Find_from_absent _ flow 0 Hnin). cbn [Z.eqb].
    apply Count_loop_absent. exact Hnin.
Qed.

(** ** [Push] and [Pop] *)

(** [Pop] undoes [Push]; [Push] undoes [Pop]; [Pop] panics exactly on the
    empty heap. *)
Theorem Push_Pop_round_trip (h : minHeap) (x : FlowCount) :
  Pop (Push h x) = Ret (x, h) /\
  (forall y h', Pop h = Ret (y, h') -> Push h' y = h) /\
  (returns (Pop h) <-> h <> []).
Proof.
  split; [|split].
  - unfold Pop, Push, index. rewrite length_app. cbn [length].
    destruct (Z.ltb_spec (Z.of_nat (length h + 1) - 1) 0) as [E|_]; [lia|].
    replace (Z.to_nat (Z.of_nat (length h + 1) - 1)) with (length h) by lia.
    rewrite lookup_app_r by lia. rewrite Nat.sub_diag. cbn [lookup list_lookup bind].
    rewrite take_app_length. reflexivity.
  - intros y h'. unfold Pop, Push, index.
    destruct (Z.ltb_spec (Z.of_nat (length h) - 1) 0) as [E|Hn]; [discriminate|].
    destruct (h !! Z.to_nat (Z.of_nat (length h) - 1)) as [e|] eqn:El; [|discriminate].
    cbn [bind]. intros H. injection H as <- <-.
    replace (Z.to_nat (Z.of_nat (length h) - 1)) with (length h - 1)%nat in * by lia.
    rewrite <- (take_drop (length h - 1) h) at 3. f_equal.
    assert (Hd : length (drop (length h - 1) h) = 1%nat) by (rewrite length_drop; lia).
    assert (Hl : drop (length h - 1) h !! 0%nat = Some e).
    { rewrite lookup_drop, Nat.add_0_r. exact El. }
    destruct (drop (length h - 1) h) as [|a [|b t]]; cbn in Hd, Hl; try lia.
    injection Hl as ->. reflexivity.
  - split.
    + intros [[y h'] H] ->. discriminate H.
    + intros Hne. unfold Pop, index, returns.
      destruct (Z.ltb_spec (Z.of_nat (length h) - 1) 0) as [E|Hn].
      * destruct h; [congruence|cbn [length] in E; lia].
      * destruct (lookup_lt_is_Some_2 h (Z.to_nat (Z.of_nat (length h) - 1)) ltac:(lia))
          as [e He].
        rewrite He. cbn [bind]. eexists. reflexivity.
Qed.

(** ** [Reset] and [DecayAll] together *)

Lemma scale_of_zero pct : scale pct 0 = 0.
Proof.
  unfold scale, f64_mul. change (float64_of_int 0) with (S754_zero false).
  destruct pct as [s|s| |s m e]; try destruct s; reflexivity.
Qed.

Lemma DecayAll_same_shape hk p : same_shape (DecayAll hk p) hk.
Proof.
  unfold DecayAll.
  destruct (f64_leb p f64_zero); [repeat split|].
  destruct (f64_ltb f64_one p); [apply Reset_same_shape|].
  unfold same_shape. cbn [decay depth width buckets heap].
  rewrite !length_fmap. repeat split.
Qed.

Lemma Reset_ext a b : same_shape a b -> Reset a = Reset b.
Proof.
  intros (Hd & Hdp & Hw & Hb & Hh). unfold Reset. rewrite Hd, Hdp, Hw. f_equal.
  - rewrite (const_fmap (fun _ => bucket0) (buckets a) bucket0) by reflexivity.
    rewrite (const_fmap (fun _ => bucket0) (buckets b) bucket0) by reflexivity.
    rewrite Hb. reflexivity.
  - rewrite (const_fmap (fun _ => FlowCount0) (heap a) FlowCount0) by reflexivity.
    rewrite (const_fmap (fun _ => FlowCount0) (heap b) FlowCount0) by reflexivity.
    rewrite Hh. reflexivity.
Qed.

(** A reset sketch stays as it is under [Reset] and under [DecayAll] of
    any fraction, and [Reset] after [DecayAll] is [Reset]. *)
Theorem Reset_absorbs (hk : HeavyKeeper) (p : float64) :
  Reset (Reset hk) = Reset hk /\
  Reset (DecayAll hk p) = Reset hk /\
  DecayAll (Reset hk) p = Reset hk.
Proof.
  split; [|split].
  - apply Reset_ext, Reset_same_shape.
  - apply Reset_ext, DecayAll_same_shape.
  - unfold DecayAll.
    destruct (f64_leb p f64_zero); [reflexivity|].
    destruct (f64_ltb f64_one p); [apply Reset_ext, Reset_same_shape|].
    unfold Reset. cbn [decay depth width buckets heap]. f_equal.
    + rewrite <- list_fmap_compose. apply list_fmap_ext. intros i b _. cbn.
      rewrite scale_of_zero. reflexivity.
    + rewrite <- list_fmap_compose. apply list_fmap_ext. intros i e _. cbn.
      rewrite scale_of_zero. reflexivity.
Qed.

Lemma Count_loop_fmap (f : Z -> Z) (h : minHeap) x :
  f 0 = 0 ->
  Count_loop ((fun e => mkFlowCount (Flow e) (f (Count e))) <$> h) x
  = (f (fst (Count_loop h x)), snd (Count_loop h x)).
Proof.
  intros Hf. induction h as [|e h IH]; cbn [fmap list_fmap Count_loop Flow Count fst snd].
  - rewrite Hf. reflexivity.
  - destruct (String.eqb (Flow e) x); [reflexivity|exact IH].
Qed.

(** After [DecayAll] of a fraction of (0, 1], [Count] finds the flows it
    found before, with the count it reported before scaled as the counts
    of the sketch are. *)
Theorem Count_DecayAll (hk : HeavyKeeper) (p : float64) (x : string) :
  in_unit_interval p ->
  HeavyKeeper_Count (DecayAll hk p) x
  = (scale (f64_sub f64_one p) (fst (HeavyKeeper_Count hk x)),
     snd (HeavyKeeper_Count hk x)).
Proof.
  intros Hp. apply in_unit_interval_branch in Hp as [H0 H1].
  rewrite (DecayAll_scaled hk p H0 H1). unfold HeavyKeeper_Count. cbn [heap].
  apply (Count_loop_fmap (scale (f64_sub f64_one p))). apply scale_of_zero.
Qed.

(** ** Invariants of the tracker *)

Lemma flow_filter_overwrite (h : minHeap) k e x f :
  h !! k = Some e ->
  (length (filter (fun y => Flow y = f) (<[k := x]> h))
   + (if decide (Flow e = f) then 1 else 0)
   = length (filter (fun y => Flow y = f) h)
   + (if decide (Flow x = f) then 1 else 0))%nat.
Proof.
  intros Hk. pose proof (lookup_lt_Some _ _ _ Hk) as Hlt.
  rewrite (insert_take_drop h k x Hlt).
  rewrite <- (take_drop_middle h k e Hk) at 3.
  rewrite !filter_app, !filter_cons, !length_app.
  repeat case_decide; cbn [length]; lia.
Qed.

Lemma flow_filter_absent (h : minHeap) f :
  f ∉ (Flow <$> h) -> filter (fun y => Flow y = f) h = [].
Proof.
  induction h as [|e h IH]; intros Hx; [reflexivity|].
  rewrite fmap_cons in Hx. apply not_elem_of_cons in Hx as [Hne Hx].
  rewrite filter_cons_False by congruence. apply IH. exact Hx.
Qed.

Lemma flow_filter_fmap (g : FlowCount -> FlowCount) (h : minHeap) f :
  (forall e, Flow (g e) = Flow e) ->
  length (filter (fun y => Flow y = f) (g <$> h))
  = length (filter (fun y => Flow y = f) h).
Proof.
  intros Hg. induction h as [|e h IH]; [reflexivity|].
  rewrite fmap_cons, !filter_cons, Hg.
  case_decide; cbn [length]; rewrite IH; reflexivity.
Qed.

Lemma at_most_one {A : Type} (P : A -> Prop) `{forall x, Decision (P x)} (l : list A) x y :
  (length (filter P l) <= 1)%nat -> x ∈ l -> P x -> y ∈ l -> P y -> x = y.
Proof.
  intros Hlen Hx HPx Hy HPy.
  assert (Hxf : x ∈ filter P l) by (apply list_elem_of_filter; split; assumption).
  assert (Hyf : y ∈ filter P l) by (apply list_elem_of_filter; split; assumption).
  destruct (filter P l) as [|z [|z' t]]; cbn [length] in Hlen; try lia.
  - apply elem_of_nil in Hxf. destruct Hxf.
  - apply list_elem_of_singleton in Hxf. apply list_elem_of_singleton in Hyf. congruence.
Qed.

Lemma distinct_flows_Permutation h h' :
  h ≡ₚ h' -> distinct_flows h -> distinct_flows h'.
Proof.
  intros Hp Hd f Hf. specialize (Hd f Hf).
  assert (E : filter (fun e => Flow e = f) h ≡ₚ filter (fun e => Flow e = f) h')
    by (rewrite Hp; reflexivity).
  rewrite <- (Permutation_length E). exact Hd.
Qed.

(** Overwriting the first entry that holds the flow, or the root when no
    entry holds it, keeps the flows distinct. *)
Lemma distinct_flows_overwrite (h : minHeap) flow m k :
  distinct_flows h -> (k < length h)%nat ->
  (first_at h flow k \/ (flow ∉ (Flow <$> h)) /\ k = 0%nat) ->
  distinct_flows (<[k := mkFlowCount flow m]> h).
Proof.
  intros Hd Hk Hcase f Hf. specialize (Hd f Hf).
  destruct (lookup_lt_is_Some_2 h k Hk) as [e He].
  pose proof (flow_filter_overwrite h k e (mkFlowCount flow m) f He) as E.
  cbn [Flow] in E. destruct Hcase as [[(e' & He' & Hfl) _]|[Habs ->]].
  - assert (e' = e) by congruence. subst e'. rewrite Hfl in E.
    destruct (decide (flow = f)); lia.
  - destruct (decide (flow = f)) as [->|Hne].
    + rewrite (flow_filter_absent h f Habs) in E. cbn [length] in E.
      destruct (decide (Flow e = f)); lia.
    + destruct (decide (Flow e = f)); lia.
Qed.

Lemma Count_loop_unique (l : minHeap) flow m :
  flow ∈ (Flow <$> l) -> (forall e, e ∈ l -> Flow e = flow -> Count e = m) ->
  Count_loop l flow = (m, true).
Proof.
  intros Hin Hall. destruct (first_at_exists l flow Hin) as [k Hk].
  rewrite (Count_loop_first l flow k Hk). f_equal.
  destruct Hk as [(e & He & Hf) _].
  rewrite (list_lookup_total_correct l k e He). apply Hall; [|exact Hf].
  apply list_elem_of_lookup. exists k. exact He.
Qed.

(** Every entry of the heap with a positive count is in the result of
    [Top]. *)
Lemma Top_complete hk e : e ∈ heap hk -> 0 < Count e -> e ∈ fst (Top hk).
Proof.
  intros He Hpos. unfold Top. rewrite TopInto_eq. cbn [fst].
  set (s := sort_Stable reverse_Less (heap hk)).
  destruct (trim_descending s (sort_Stable_descending _)) as [_ Hzero].
  set (n := trim_end s (length s)) in *.
  assert (Hs : e ∈ s).
  { unfold s. rewrite (sort_Stable_Permutation reverse_Less (heap hk)). exact He. }
  rewrite <- (take_drop n s) in Hs. apply elem_of_app in Hs as [Hs|Hs]; [exact Hs|].
  rewrite Forall_forall in Hzero. specialize (Hzero e Hs). cbn in Hzero. lia.
Qed.

Section Invariants.

Variable ChecksumString32S : string -> Z -> Z.
Variable Log : float64 -> float64.
Variable Pow : float64 -> float64 -> float64.

Lemma decay_units_out dec fp n b g b' o g' :
  decay_units Pow dec fp n b g b' o g' ->
  forall c, o = Some c -> 0 < c <= Z.of_nat n.
Proof.
  induction 1 as [b g|n b g b' o g' _ _ IH|n b g b' o g' _ _ _ IH|n b g _ _];
    intros c Hc.
  - discriminate Hc.
  - specialize (IH c Hc). lia.
  - specialize (IH c Hc). lia.
  - injection Hc as <-. lia.
Qed.

Lemma row_update_out_u32 dec fp incr b g b' o g' :
  is_u32 incr -> row_update Pow dec fp incr b g b' o g' ->
  forall c, o = Some c -> is_u32 c.
Proof.
  intros Hincr Hrow c Hc. destruct Hrow as [b g _|b g _ _|b g b' o g' _ _ Hunits].
  - injection Hc as <-. exact Hincr.
  - injection Hc as <-. apply u32_range.
  - pose proof (decay_units_out _ _ _ _ _ _ _ _ Hunits c Hc) as Hb.
    unfold is_u32 in *. lia.
Qed.

Lemma max_contrib_u32 out n m :
  is_u32 m -> (forall k c, (k < n)%nat -> out k = Some c -> is_u32 c) ->
  is_u32 (max_contrib out n m).
Proof.
  revert out m. induction n as [|n IH]; intros out m Hm Hout; cbn [max_contrib].
  - exact Hm.
  - apply IH.
    + unfold contribute. destruct (out 0%nat) as [c|] eqn:E; [|exact Hm].
      rewrite max_spec. pose proof (Hout 0%nat c ltac:(lia) E).
      unfold is_u32 in *. lia.
    + intros k c Hk Hc. apply (Hout (S k) c); [lia|exact Hc].
Qed.

(** [Sample] keeps the sketch well formed and of the same shape, the
    counts of the tracker in [uint32] and its flows distinct. *)
Lemma Sample_preserves hk flow incr g admitted hk' g' :
  wf hk -> is_u32 incr -> tracker_u32 (heap hk) -> distinct_flows (heap hk) ->
  Sample ChecksumString32S Pow hk flow incr g = Ret (admitted, hk', g') ->
  wf hk' /\ same_shape hk' hk /\ tracker_u32 (heap hk') /\ distinct_flows (heap hk').
Proof.
  intros Hwf Hincr Ht Hdist HS.
  destruct (Sample_step ChecksumString32S Pow hk flow incr g Hwf Hincr)
    as (bs & g1 & gen & out & h' & _ & Hlen & Hbs & _ & _ & Hrows & HS' & Hrej & Hadm).
  cbv zeta in HS', Hrej, Hadm.
  set (m := max_contrib out (Z.to_nat (depth hk)) 0) in *.
  rewrite HS' in HS. injection HS as _ <- _.
  assert (Hm : is_u32 m).
  { apply max_contrib_u32; [unfold is_u32; lia|].
    intros k c Hk Hc. exact (row_update_out_u32 _ _ _ _ _ _ _ _ Hincr (Hrows k Hk) c Hc). }
  assert (Hh' : length h' = length (heap hk) /\ tracker_u32 h' /\ distinct_flows h').
  { destruct (Z_lt_le_dec m (cnt (heap hk) 0)) as [Hlt|Hle].
    - rewrite (Hrej Hlt). repeat split; assumption.
    - destruct (Hadm Hle) as (k & Hk & Hcase & _ & Hperm).
      split; [|split].
      + rewrite (Permutation_length Hperm). apply length_insert.
      + unfold tracker_u32. rewrite Hperm. apply Forall_insert; assumption.
      + apply (distinct_flows_Permutation (<[k := mkFlowCount flow m]> (heap hk)));
          [symmetry; exact Hperm|].
        apply distinct_flows_overwrite; assumption. }
  destruct Hh' as (Hl & Ht' & Hd').
  destruct Hwf as (Hd & Hw & Hw32 & Hlb & _ & Hne).
  split; [|split; [|split]]; cbn [heap]; try assumption.
  - unfold wf. cbn [depth width buckets heap]. repeat split; try assumption; try lia.
    intros ->. cbn [length] in Hl. destruct (heap hk); [congruence|discriminate].
  - unfold same_shape. cbn [decay depth width buckets heap]. repeat split; assumption.
Qed.

Lemma Reset_preserves hk :
  wf hk ->
  wf (Reset hk) /\ tracker_u32 (heap (Reset hk)) /\ distinct_flows (heap (Reset hk)).
Proof.
  intros (Hd & Hw & Hw32 & Hlb & _ & Hne). split; [|split].
  - unfold wf. rewrite Reset_buckets. cbn [depth width Reset].
    repeat split; try assumption.
    + rewrite length_replicate. exact Hlb.
    + apply Forall_forall. intros b Hb. apply elem_of_replicate_inv in Hb. subst b.
      unfold is_u32, bucket0. cbn [count]. lia.
    + unfold Reset. cbn [heap]. destruct (heap hk); [congruence|discriminate].
  - rewrite Reset_heap. apply Forall_forall. intros e He.
    apply elem_of_replicate_inv in He. subst e. unfold is_u32, FlowCount0. cbn [Count]. lia.
  - rewrite Reset_heap. intros f Hf.
    rewrite flow_filter_absent; [cbn [length]; lia|].
    rewrite fmap_replicate. intros Hin. apply elem_of_replicate_inv in Hin.
    apply Hf. exact Hin.
Qed.

Lemma DecayAll_preserves hk p :
  wf hk -> tracker_u32 (heap hk) -> distinct_flows (heap hk) ->
  wf (DecayAll hk p) /\ tracker_u32 (heap (DecayAll hk p))
  /\ distinct_flows (heap (DecayAll hk p)).
Proof.
  intros Hwf Ht Hdist. unfold DecayAll.
  destruct (f64_leb p f64_zero); [split; [|split]; assumption|].
  destruct (f64_ltb f64_one p); [apply Reset_preserves; exact Hwf|].
  destruct Hwf as (Hd & Hw & Hw32 & Hlb & _ & Hne).
  cbv zeta. split; [|split].
  - unfold wf. cbn [depth width buckets heap]. repeat split; try assumption.
    + rewrite length_fmap. exact Hlb.
    + apply Forall_fmap, Forall_forall. intros b _. cbn [compose count].
      unfold scale, uint32_of_float64. apply u32_range.
    + destruct (heap hk); [congruence|discriminate].
  - cbn [heap]. apply Forall_fmap, Forall_forall. intros e _. cbn [compose Count].
    unfold scale, uint32_of_float64. apply u32_range.
  - cbn [heap]. intros f Hf. rewrite flow_filter_fmap by reflexivity.
    apply Hdist. exact Hf.
Qed.

Lemma same_shape_trans a b c : same_shape a b -> same_shape b c -> same_shape a c.
Proof.
  unfold same_shape. intros (? & ? & ? & ? & ?) (? & ? & ? & ? & ?).
  repeat split; congruence.
Qed.

(** On every sketch that calls to [Sample], [DecayAll] and [Reset] reach
    from a constructed sketch whose [uint32(width)] is not zero, [Sample]
    returns: no sequence of calls leads to a panic. The sketch keeps its
    dimensions and its number of entries, its counts stay [uint32] values
    and no flow but the empty string is held by two entries. *)
Theorem reachable_never_panics (k : Z) (d : float64) (hk0 hk : HeavyKeeper) :
  New Log k d = Ret hk0 -> u32 (width hk0) <> 0 ->
  reachable ChecksumString32S Pow hk0 hk ->
  wf hk /\ same_shape hk hk0 /\ tracker_u32 (heap hk) /\ distinct_flows (heap hk) /\
  (forall flow incr g, is_u32 incr ->
     returns (Sample ChecksumString32S Pow hk flow incr g)).
Proof.
  intros HN Hw Hreach.
  assert (Hinv : wf hk /\ same_shape hk hk0 /\ tracker_u32 (heap hk)
                 /\ distinct_flows (heap hk)).
  { induction Hreach as [|hk flow incr g b hk' g' _ IH Hincr HS|hk p _ IH|hk _ IH].
    - destruct (New_wf Log k d hk0 HN Hw) as [Hwf _].
      destruct (Reset_preserves hk0 Hwf) as (_ & Ht & Hdist).
      apply New_Ret in HN as (_ & _ & _ & E).
      assert (Hh : heap (Reset hk0) = heap hk0).
      { rewrite Reset_heap. rewrite E at 2. cbn [heap]. rewrite E at 1. cbn [heap].
        rewrite length_replicate. reflexivity. }
      rewrite Hh in Ht, Hdist.
      split; [exact Hwf|]. split; [unfold same_shape; repeat split|].
      split; assumption.
    - destruct IH as (Hwf & Hs & Ht & Hdist).
      destruct (Sample_preserves hk flow incr g b hk' g' Hwf Hincr Ht Hdist HS)
        as (Hwf' & Hs' & Ht' & Hd').
      split; [exact Hwf'|]. split; [apply (same_shape_trans _ hk); assumption|].
      split; assumption.
    - destruct IH as (Hwf & Hs & Ht & Hdist).
      destruct (DecayAll_preserves hk p Hwf Ht Hdist) as (Hwf' & Ht' & Hd').
      split; [exact Hwf'|].
      split; [apply (same_shape_trans _ hk); [apply DecayAll_same_shape|exact Hs]|].
      split; assumption.
    - destruct IH as (Hwf & Hs & Ht & Hdist).
      destruct (Reset_preserves hk Hwf) as (Hwf' & Ht' & Hd').
      split; [exact Hwf'|].
      split; [apply (same_shape_trans _ hk); [apply Reset_same_shape|exact Hs]|].
      split; assumption. }
  destruct Hinv as (Hwf & Hs & Ht & Hdist).
  split; [exact Hwf|]. split; [exact Hs|]. split; [exact Ht|]. split; [exact Hdist|].
  intros flow incr g Hincr.
  destruct (Sample_step ChecksumString32S Pow hk flow incr g Hwf Hincr)
    as (bs & g1 & gen & out & h' & _ & _ & _ & _ & _ & _ & HS' & _).
  eexists. exact HS'.
Qed.

(** An admitted flow is found: after [Sample] answered [true] for a
    non-empty flow, on a tracker of distinct flows, [Count] reports the
    flow with [maxCount], the result of the matrix update, and when
    [maxCount] is positive [Top] lists the flow with that count. *)
Theorem Count_after_Sample (hk : HeavyKeeper) (flow : string) (incr : Z) (g : Rand)
    (hk' : HeavyKeeper) (g' : Rand) :
  wf hk -> is_u32 incr -> distinct_flows (heap hk) -> flow <> EmptyString ->
  Sample ChecksumString32S Pow hk flow incr g = Ret (true, hk', g') ->
  exists bs m,
    Sample_matrix ChecksumString32S Pow hk flow incr g = Ret (bs, m, g') /\
    HeavyKeeper_Count hk' flow = (m, true) /\
    (0 < m -> mkFlowCount flow m ∈ fst (Top hk')).
Proof.
  intros Hwf Hincr Hdist Hflow HS.
  destruct (Sample_step ChecksumString32S Pow hk flow incr g Hwf Hincr)
    as (bs & g1 & gen & out & h' & Hm & _ & _ & _ & _ & _ & HS' & _ & Hadm).
  cbv zeta in Hm, HS', Hadm.
  set (m := max_contrib out (Z.to_nat (depth hk)) 0) in *.
  rewrite HS' in HS. injection HS as Hb <- <-.
  apply Z.leb_le in Hb.
  destruct (Hadm Hb) as (k & Hk & Hcase & _ & Hperm).
  set (U := <[k := mkFlowCount flow m]> (heap hk)) in *.
  assert (HU : mkFlowCount flow m ∈ U).
  { apply list_elem_of_lookup. exists k. apply list_lookup_insert_eq. exact Hk. }
  assert (HdU : distinct_flows U) by (apply distinct_flows_overwrite; assumption).
  exists bs, m. split; [exact Hm|]. split.
  - unfold HeavyKeeper_Count. cbn [heap]. apply Count_loop_unique.
    + apply list_elem_of_fmap. exists (mkFlowCount flow m). split; [reflexivity|].
      rewrite Hperm. exact HU.
    + intros e He Hf. rewrite Hperm in He.
      assert (e = mkFlowCount flow m) as ->; [|reflexivity].
      apply (at_most_one (fun y => Flow y = flow) U); try assumption; try reflexivity.
      apply HdU. exact Hflow.
  - intros Hpos. apply Top_complete; [|exact Hpos]. cbn [heap].
    rewrite Hperm. exact HU.
Qed.

End Invariants.

(** ** The first sample of a constructed sketch *)

Lemma Top_descending hk : descending (fst (Top hk)).
Proof.
  unfold Top. rewrite TopInto_eq. cbn [fst].
  set (s := sort_Stable reverse_Less (heap hk)).
  pose proof (sort_Stable_descending (heap hk)) as Hd. fold s in Hd.
  unfold descending in *. rewrite <- (take_drop (trim_end s (length s)) s) in Hd.
  apply StronglySorted_app_1_l in Hd. exact Hd.
Qed.

Lemma Top_with_count hk c :
  0 < c -> with_count c (fst (Top hk)) = with_count c (heap hk).
Proof.
  intros Hc. unfold Top. rewrite TopInto_eq. cbn [fst].
  set (s := sort_Stable reverse_Less (heap hk)).
  set (n := trim_end s (length s)).
  destruct (trim_descending s (sort_Stable_descending _)) as [_ Hzero]. fold n in Hzero.
  rewrite <- (with_count_sort_Stable c (heap hk)). fold s.
  rewrite <- (take_drop n s) at 2. unfold with_count. rewrite filter_app.
  assert (Hnil : filter (fun e => Count e = c) (drop n s) = []).
  { induction Hzero as [|e l He Hl IH]; [reflexivity|].
    rewrite filter_cons_False by lia. exact IH. }
  rewrite Hnil, app_nil_r. reflexivity.
Qed.

Lemma with_count_nonpositive c l :
  Forall (fun e => 0 < Count e) l -> c <= 0 -> with_count c l = [].
Proof.
  intros Hpos Hc. unfold with_count. induction Hpos as [|e l He _ IH]; [reflexivity|].
  rewrite filter_cons_False by lia. exact IH.
Qed.

Lemma with_count_replicate_zero c n :
  c <> 0 -> with_count c (replicate n FlowCount0) = [].
Proof.
  intros Hc. unfold with_count. induction n as [|n IH]; [reflexivity|].
  cbn [replicate]. rewrite filter_cons_False; [exact IH|].
  unfold FlowCount0. cbn [Count]. congruence.
Qed.

Lemma row_update_empty Pow dec fp incr b g b' o g' :
  row_update Pow dec fp incr b g b' o g' -> count b = 0 ->
  b' = mkBucket fp incr /\ o = Some incr /\ g' = g.
Proof.
  intros [b0 g0 _|b0 g0 Hc _|b0 g0 b1 o1 g1 Hc _ _] Hz;
    [repeat split|contradiction|contradiction].
Qed.

Lemma max_contrib_const out n c :
  (0 < n)%nat -> 0 <= c -> (forall i, (i < n)%nat -> out i = Some c) ->
  max_contrib out n 0 = c.
Proof.
  intros Hn Hc Hout.
  destruct (max_contrib_bounds out n 0) as [_ Hle].
  destruct (max_contrib_attained out n 0) as [E|(i & Hi & E)].
  - specialize (Hle 0%nat c Hn (Hout 0%nat Hn)). lia.
  - rewrite (Hout i Hi) in E. congruence.
Qed.

Section FirstSample.

Variable ChecksumString32S : string -> Z -> Z.
Variable Log : float64 -> float64.
Variable Pow : float64 -> float64 -> float64.

(** The first sample of a constructed sketch, for a flow that is not the
    empty string, finds all its cells empty: it is admitted without a draw
    from the random source, each of its cells holds the fingerprint and the
    increment, [Count] answers with the increment and, the increment being
    positive, [Top] lists the flow alone. *)
Theorem first_Sample_on_fresh (k : Z) (d : float64) (hk : HeavyKeeper)
    (flow : string) (incr : Z) (g : Rand) :
  New Log k d = Ret hk -> u32 (width hk) <> 0 -> is_u32 incr -> flow <> EmptyString ->
  exists hk',
    Sample ChecksumString32S Pow hk flow incr g = Ret (true, hk', g) /\
    (forall i, Z.of_nat i < depth hk ->
       buckets hk' !!! cell_index ChecksumString32S hk flow i
       = mkBucket (fingerprint ChecksumString32S flow) incr) /\
    HeavyKeeper_Count hk' flow = (incr, true) /\
    (0 < incr -> fst (Top hk') = [mkFlowCount flow incr]).
Proof.
  intros HN Hw Hincr Hflow. destruct (New_wf Log k d hk HN Hw) as [Hwf _].
  destruct (Sample_step ChecksumString32S Pow hk flow incr g Hwf Hincr)
    as (bs & g' & gen & out & h' & _ & _ & _ & Hg0 & Hgn & Hrows & HS & _ & Hadm).
  cbv zeta in HS, Hadm.
  apply New_Ret in HN as (Hk & _ & _ & Ehk).
  assert (Hb : buckets hk = replicate (length (buckets hk)) bucket0).
  { rewrite Ehk at 1. cbn [buckets]. rewrite Ehk. cbn [buckets].
    rewrite length_replicate. reflexivity. }
  assert (Hh : heap hk = replicate (Z.to_nat k) FlowCount0) by (rewrite Ehk; reflexivity).
  assert (Hdepth : 3 <= depth hk).
  { rewrite Ehk. cbn [depth]. unfold New_depth. lia. }
  assert (Hcell : forall i, (i < Z.to_nat (depth hk))%nat ->
            bs !!! cell_index ChecksumString32S hk flow i
              = mkBucket (fingerprint ChecksumString32S flow) incr
            /\ out i = Some incr /\ gen (S i) = gen i).
  { intros i Hi. apply (row_update_empty _ _ _ _ _ _ _ _ _ (Hrows i Hi)).
    rewrite Hb. rewrite lookup_total_replicate_2; [reflexivity|].
    apply cell_index_lt; [exact Hwf|lia]. }
  assert (Hgen : forall i, (i <= Z.to_nat (depth hk))%nat -> gen i = g).
  { induction i as [|i IH]; intros Hi; [exact Hg0|].
    destruct (Hcell i ltac:(lia)) as (_ & _ & ->). apply IH. lia. }
  assert (Hm : max_contrib out (Z.to_nat (depth hk)) 0 = incr).
  { apply max_contrib_const; [lia|unfold is_u32 in Hincr; lia|].
    intros i Hi. apply (Hcell i Hi). }
  rewrite Hm in HS, Hadm. rewrite <- Hgn, (Hgen _ (Nat.le_refl _)) in HS.
  destruct (Z.to_nat k) as [|K] eqn:EK; [lia|].
  assert (Hroot : cnt (heap hk) 0 = 0) by (rewrite Hh; reflexivity).
  rewrite Hroot in HS, Hadm.
  assert (Habs : flow ∉ (Flow <$> heap hk)).
  { rewrite Hh, fmap_replicate. intros Hin. apply elem_of_replicate_inv in Hin.
    apply Hflow. exact Hin. }
  destruct (Hadm ltac:(unfold is_u32 in Hincr; lia)) as (k0 & _ & Hcase & _ & Hperm).
  assert (k0 = 0%nat) as ->.
  { destruct Hcase as [[(e & He & Hf) _]|[_ ->]]; [|reflexivity].
    exfalso. apply Habs. apply list_elem_of_fmap. exists e. split; [congruence|].
    apply list_elem_of_lookup. exists k0. exact He. }
  rewrite Hh in Hperm. cbn [replicate] in Hperm.
  change (<[0%nat := mkFlowCount flow incr]> (FlowCount0 :: replicate K FlowCount0))
    with (mkFlowCount flow incr :: replicate K FlowCount0) in Hperm.
  destruct (Z.leb_spec 0 incr) as [_|Hneg]; [|unfold is_u32 in Hincr; lia].
  eexists. split; [exact HS|]. cbn [buckets]. split; [|split].
  - intros i Hi. apply (Hcell i). lia.
  - unfold HeavyKeeper_Count. cbn [heap]. apply Count_loop_unique.
    + apply list_elem_of_fmap. exists (mkFlowCount flow incr). split; [reflexivity|].
      rewrite Hperm. apply list_elem_of_here.
    + intros e He Hf. rewrite Hperm in He. apply elem_of_cons in He as [->|He];
        [reflexivity|].
      apply elem_of_replicate_inv in He. subst e. cbn in Hf. congruence.
  - intros Hpos.
    set (hk' := mkHeavyKeeper _ _ _ bs h').
    assert (HT : Forall (fun e => 0 < Count e) (fst (Top hk'))).
    { apply Forall_forall. intros e He. apply (Top_elements hk' e He). }
    apply stable_sort_unique.
    + apply Top_descending.
    + repeat constructor.
    + intros c. destruct (Z_lt_le_dec 0 c) as [Hc|Hc].
      * rewrite Top_with_count by exact Hc. cbn [heap].
        assert (E : with_count c h'
                    ≡ₚ with_count c (mkFlowCount flow incr :: replicate K FlowCount0)).
        { unfold with_count. rewrite Hperm. reflexivity. }
        revert E. unfold with_count at 2 4. rewrite !filter_cons, filter_nil.
        fold (with_count c (replicate K FlowCount0)).
        rewrite with_count_replicate_zero by lia.
        case_decide; intros E.
        -- apply Permutation_singleton_r in E. exact E.
        -- apply Permutation_nil_r in E. exact E.
      * rewrite with_count_nonpositive by assumption.
        unfold with_count. rewrite filter_cons_False by (cbn [Count]; lia).
        reflexivity.
Qed.

End FirstSample.

(** ** The decay loop and the size of the counts *)

Section Decay.

Variable ChecksumString32S : string -> Z -> Z.
Variable Pow : float64 -> float64 -> float64.

(** The decay loop of [Sample] on an occupied cell, with [n] units of the
    increment. It reads the random source and leaves its sequence alone.
    Either the occupant survives: the [n] units are spent, one draw each,
    the count has gone down by at most [n] and is still positive, and
    [maxCount] is as before. Or the flow takes the cell with a count [c] of
    at least one: evicting an occupant of count [count b] costs at least
    that many units, [c] is what is then left (the last unit included), the
    loop stops at once, after [n - c + 1] draws, and [maxCount] takes [c]
    into account. *)
Theorem decay_loop_bounds (dec : float64) (fp : Z) (n : nat) (b : bucket) (m : Z)
    (g : Rand) (b' : bucket) (m' : Z) (g' : Rand) :
  0 < count b < 2 ^ 32 ->
  decay_loop Pow dec fp n b m g = (b', m', g') ->
  draws g' = draws g /\
  ((bucket_fingerprint b' = bucket_fingerprint b /\
    0 < count b' <= count b /\ count b - Z.of_nat n <= count b' /\
    m' = m /\ pos g' = (pos g + n)%nat) \/
   (exists c, b' = mkBucket fp c /\ m' = max m c /\ 1 <= c /\
              count b + c <= Z.of_nat n + 1 /\
              Z.of_nat (pos g') = Z.of_nat (pos g) + Z.of_nat n - c + 1)).
Proof.
  revert b g. induction n as [|n IH]; intros b g Hb Hloop.
  - cbn [decay_loop] in Hloop. injection Hloop as <- <- <-.
    split; [reflexivity|]. left. repeat split; try lia.
  - cbn [decay_loop rand_Float64] in Hloop.
    destruct (f64_ltb (draws g (pos g)) (Pow dec (float64_of_int (count b)))).
    + rewrite (u32_id (count b - 1)) in Hloop by lia.
      destruct (Z.leb_spec (count b - 1) 0) as [Hz|Hpos].
      * injection Hloop as <- <- <-. split; [reflexivity|]. right.
        exists (Z.of_nat (S n)). cbn [pos]. repeat split; lia.
      * apply IH in Hloop; [|cbn [count]; lia].
        cbn [draws pos count bucket_fingerprint] in Hloop.
        destruct Hloop as [Hd [(Hf & Hc & Hn & Hm & Hp)|(c & Hb' & Hm & Hc & Hn & Hp)]].
        -- split; [exact Hd|]. left. repeat split; try assumption; lia.
        -- split; [exact Hd|]. right. exists c. repeat split; try assumption; lia.
    + apply IH in Hloop; [|exact Hb]. cbn [draws pos] in Hloop.
      destruct Hloop as [Hd [(Hf & Hc & Hn & Hm & Hp)|(c & Hb' & Hm & Hc & Hn & Hp)]].
      * split; [exact Hd|]. left. repeat split; try assumption; lia.
      * split; [exact Hd|]. right. exists c. repeat split; try assumption; lia.
Qed.

Lemma decay_units_count dec fp n b g b' o g' :
  decay_units Pow dec fp n b g b' o g' ->
  count b' <= Z.max (count b) (Z.of_nat n).
Proof.
  induction 1 as [b g|n b g b' o g' _ _ IH|n b g b' o g' _ _ _ IH|n b g _ _];
    cbn [count] in *; lia.
Qed.

Lemma u32_le z : 0 <= z -> u32 z <= z.
Proof. intros Hz. unfold u32. apply Z.mod_le; lia. Qed.

Lemma row_update_count_bound dec fp incr b g b' o g' T :
  row_update Pow dec fp incr b g b' o g' -> is_u32 incr -> 0 <= count b <= T ->
  count b' <= T + incr /\ (forall c, o = Some c -> c <= T + incr).
Proof.
  intros Hrow Hincr Hb. unfold is_u32 in Hincr.
  destruct Hrow as [b g _|b g _ _|b g b' o g' _ _ Hunits].
  - cbn [count]. split; [lia|]. intros c Hc. injection Hc as <-. lia.
  - cbn [count]. pose proof (u32_le (count b + incr) ltac:(lia)).
    split; [lia|]. intros c Hc. injection Hc as <-. lia.
  - pose proof (decay_units_count _ _ _ _ _ _ _ _ Hunits) as Hc.
    split; [lia|]. intros c Ho.
    pose proof (decay_units_out Pow _ _ _ _ _ _ _ _ Hunits c Ho). lia.
Qed.

Lemma selected_or_not (f : nat -> nat) (n j : nat) :
  (exists k, (k < n)%nat /\ j = f k) \/ (forall k, (k < n)%nat -> j <> f k).
Proof.
  induction n as [|n [(k & Hk & E)|Hno]].
  - right. intros k Hk. lia.
  - left. exists k. split; [lia|exact E].
  - destruct (Nat.eq_dec j (f n)) as [E|Hne].
    + left. exists n. split; [lia|exact E].
    + right. intros k Hk. destruct (Nat.eq_dec k n) as [->|Hkn]; [exact Hne|].
      apply Hno. lia.
Qed.

(** No count outgrows the weight sampled: when the counts of the matrix and
    of the tracker are at most [T], [T] not negative, after a sample of
    weight [incr] they are at most [T + incr]. *)
Theorem Sample_counts_bounded (hk : HeavyKeeper) (flow : string) (incr : Z) (g : Rand)
    (T : Z) (admitted : bool) (hk' : HeavyKeeper) (g' : Rand) :
  wf hk -> is_u32 incr -> 0 <= T ->
  Forall (fun b => count b <= T) (buckets hk) ->
  Forall (fun e => Count e <= T) (heap hk) ->
  Sample ChecksumString32S Pow hk flow incr g = Ret (admitted, hk', g') ->
  Forall (fun b => count b <= T + incr) (buckets hk') /\
  Forall (fun e => Count e <= T + incr) (heap hk').
Proof.
  intros Hwf Hincr HT HbT HhT HS. pose proof Hwf as (Hd & _ & _ & _ & Hu32 & Hne).
  destruct (Sample_rows_spec ChecksumString32S Pow hk flow incr (Z.to_nat (depth hk)) 0
              (buckets hk) 0 g Hwf Hincr ltac:(lia) eq_refl Hu32)
    as (bs & g1 & gen & out & Hrows & Hlen & _ & _ & _ & Hupds & Hrest).
  destruct (Sample_step ChecksumString32S Pow hk flow incr g Hwf Hincr)
    as (bs2 & g2 & gen2 & out2 & h' & Hm2 & _ & _ & _ & _ & _ & HS' & Hrej & Hadm).
  cbv zeta in Hm2, HS', Hrej, Hadm. unfold Sample_matrix in Hm2.
  change (Z.of_nat 0) with 0 in Hrows. rewrite Hrows in Hm2.
  injection Hm2 as <- Hm <-. rewrite <- Hm in HS', Hrej, Hadm. clear Hm.
  set (m := max_contrib out (Z.to_nat (depth hk)) 0) in *.
  rewrite HS' in HS. injection HS as _ <- _. cbn [buckets heap].
  assert (Hcells : forall k, (k < Z.to_nat (depth hk))%nat ->
            count (bs !!! cell_index ChecksumString32S hk flow k) <= T + incr
            /\ (forall c, out k = Some c -> c <= T + incr)).
  { intros k Hk.
    apply (row_update_count_bound _ _ _ _ _ _ _ _ T (Hupds k Hk) Hincr).
    assert (Hlt : (cell_index ChecksumString32S hk flow k < length (buckets hk))%nat)
      by (apply cell_index_lt; [exact Hwf|lia]).
    destruct (lookup_lt_is_Some_2 _ _ Hlt) as [b Hb].
    rewrite (list_lookup_total_correct _ _ _ Hb).
    rewrite Forall_lookup in HbT, Hu32.
    specialize (HbT _ _ Hb). specialize (Hu32 _ _ Hb). unfold is_u32 in Hu32.
    cbn in HbT. lia. }
  assert (Hmb : m <= T + incr).
  { destruct (max_contrib_attained out (Z.to_nat (depth hk)) 0) as [E|(k & Hk & E)].
    - fold m in E. unfold is_u32 in Hincr. lia.
    - apply (proj2 (Hcells k Hk)). exact E. }
  split.
  - apply Forall_lookup. intros j b Hb.
    rewrite <- (list_lookup_total_correct _ _ _ Hb).
    destruct (selected_or_not (cell_index ChecksumString32S hk flow)
                (Z.to_nat (depth hk)) j) as [(k & Hk & ->)|Hno].
    + apply (proj1 (Hcells k Hk)).
    + rewrite (Hrest j Hno).
      assert (Hlt : (j < length (buckets hk))%nat).
      { rewrite <- Hlen. eapply lookup_lt_Some. exact Hb. }
      destruct (lookup_lt_is_Some_2 _ _ Hlt) as [b0 Hb0].
      rewrite (list_lookup_total_correct _ _ _ Hb0).
      rewrite Forall_lookup in HbT. specialize (HbT _ _ Hb0). cbn in HbT.
      unfold is_u32 in Hincr. lia.
  - assert (HhT' : Forall (fun e => Count e <= T + incr) (heap hk)).
    { eapply Forall_impl; [exact HhT|]. intros e He. cbn in He |- *.
      unfold is_u32 in Hincr. lia. }
    destruct (Z_lt_le_dec m (cnt (heap hk) 0)) as [Hlt|Hle].
    + rewrite (Hrej Hlt). exact HhT'.
    + destruct (Hadm Hle) as (k & _ & _ & _ & Hperm). rewrite Hperm.
      apply Forall_insert; [exact HhT'|]. exact Hmb.
Qed.

End Decay.

(** ** The two versions of the package *)

Lemma index_app_mid {A : Type} (pre row rest : list A) (s off : Z) :
  0 <= s < Z.of_nat (length row) -> Z.of_nat (length pre) = off ->
  index (pre ++ row ++ rest) (s + off) = index row s.
Proof.
  intros Hs Hoff. unfold index.
  destruct (Z.ltb_spec (s + off) 0) as [|_]; [lia|].
  destruct (Z.ltb_spec s 0) as [|_]; [lia|].
  replace (Z.to_nat (s + off)) with (length pre + Z.to_nat s)%nat by lia.
  rewrite lookup_app_r by lia.
  replace (length pre + Z.to_nat s - length pre)%nat with (Z.to_nat s) by lia.
  rewrite lookup_app_l by lia. reflexivity.
Qed.

Lemma insert_app_mid {A : Type} (pre row rest : list A) (s off : Z) (x : A) :
  0 <= s < Z.of_nat (length row) -> Z.of_nat (length pre) = off ->
  <[Z.to_nat (s + off) := x]> (pre ++ row ++ rest)
  = pre ++ <[Z.to_nat s := x]> row ++ rest.
Proof.
  intros Hs Hoff.
  replace (Z.to_nat (s + off)) with (length pre + Z.to_nat s)%nat by lia.
  rewrite insert_app_r. rewrite insert_app_l by lia. reflexivity.
Qed.

Lemma concat_replicate_const {A B : Type} (n m : nat) (x : A) (y : B) :
  concat ((fun _ => replicate m x) <$> replicate n y) = replicate (n * m) x.
Proof.
  induction n as [|n IH]; [reflexivity|].
  cbn [replicate fmap list_fmap concat Nat.mul]. rewrite replicate_add. f_equal. exact IH.
Qed.

Lemma concat_fmap_const {A B : Type} (f : A -> B) (ls : list (list A)) :
  concat ((fun row : list A => f <$> row) <$> ls) = f <$> concat ls.
Proof.
  induction ls as [|l ls IH]; [reflexivity|].
  cbn [fmap list_fmap concat]. rewrite fmap_app. f_equal. exact IH.
Qed.

Lemma copy_fresh {A : Type} (x : A) (src : list A) :
  copy (replicate (length src) x) src = src.
Proof.
  unfold copy. rewrite length_replicate, firstn_all, drop_ge, app_nil_r; [reflexivity|].
  rewrite length_replicate. lia.
Qed.

Section Variants.

Variable ChecksumString32S : string -> Z -> Z.
Variable Pow : float64 -> float64 -> float64.

Lemma Add_rows_length dec flow fp incr rows : forall i m g rows' m' g',
  TopkGo.Add_rows ChecksumString32S Pow dec flow fp incr i rows m g = Ret (rows', m', g') ->
  length rows' = length rows.
Proof.
  induction rows as [|row rows IH]; intros i m g rows' m' g' H; cbn [TopkGo.Add_rows] in H.
  - injection H as <- _ _. reflexivity.
  - destruct (TopkGo.Add_row _ _ _ _ _ _ _ _ _ _) as [[[row1 m1] g1]|msg];
      cbn [bind] in H; [|discriminate].
    destruct (TopkGo.Add_rows _ _ _ _ _ _ _ _ _ _) as [[[rows2 m2] g2]|msg] eqn:E;
      cbn [bind] in H; [|discriminate].
    injection H as <- _ _. cbn [length]. f_equal. eapply IH. exact E.
Qed.

(** The loop of [Sample] over the flat matrix does to the segments what
    the loop of [Add] does to the rows. *)
Lemma Sample_rows_flat (hk : HeavyKeeper) flow fp incr rows : forall i pre m g,
  Forall (fun row : list bucket => Z.of_nat (length row) = width hk) rows ->
  0 <= i -> Z.of_nat (length pre) = i * width hk ->
  Sample_rows ChecksumString32S Pow hk flow fp incr (length rows) i
    (pre ++ concat rows, m, g)
  = outcome_map (fun '(rows', m', g') => (pre ++ concat rows', m', g'))
      (TopkGo.Add_rows ChecksumString32S Pow (decay hk) flow fp incr i rows m g).
Proof.
  induction rows as [|row rows IH]; intros i pre m g Hrows Hi Hpre.
  - reflexivity.
  - apply Forall_cons in Hrows as [Hrow Hrows].
    assert (Hnext : Z.of_nat (length pre) + Z.of_nat (length row) = (i + 1) * width hk)
      by lia.
    assert (Htail : forall row' m1 g1, length row' = length row ->
              Sample_rows ChecksumString32S Pow hk flow fp incr (length rows) (i + 1)
                (pre ++ row' ++ concat rows, m1, g1)
              = outcome_map (fun '(rows', m', g') => (pre ++ concat rows', m', g'))
                  (letp (rows'', m'', g'') :=
                     TopkGo.Add_rows ChecksumString32S Pow (decay hk) flow fp incr (i + 1)
                       rows m1 g1 in
                   Ret (row' :: rows'', m'', g''))).
    { intros row' m1 g1 Hl. rewrite app_assoc.
      rewrite IH; [|exact Hrows|lia|rewrite length_app; lia].
      destruct (TopkGo.Add_rows _ _ _ _ _ _ _ _ _ _) as [[[rows2 m2] g2]|msg];
        cbn [bind outcome_map concat]; [rewrite app_assoc|]; reflexivity. }
    cbn [length Sample_rows TopkGo.Add_rows concat].
    unfold Sample_row, TopkGo.Add_row. rewrite Hrow. unfold slot.
    destruct (Z.eqb_spec (u32 (width hk)) 0) as [|Hw]; [reflexivity|].
    cbn [bind].
    set (s := u32 (ChecksumString32S flow (u32 i)) mod u32 (width hk)).
    assert (Hs : 0 <= s < Z.of_nat (length row)).
    { pose proof (u32_range (width hk)) as Hr.
      pose proof (u32_le (width hk) ltac:(lia)) as Hle.
      pose proof (Z.mod_pos_bound (u32 (ChecksumString32S flow (u32 i))) (u32 (width hk))
                    ltac:(lia)). fold s in H. lia. }
    rewrite (index_app_mid pre row (concat rows) s (i * width hk) Hs Hpre).
    destruct (index row s) as [b|msg]; [|reflexivity]. cbn [bind].
    destruct (count b =? 0).
    { cbn [bind]. rewrite insert_app_mid by assumption.
      apply Htail. apply length_insert. }
    destruct (bucket_fingerprint b =? fp).
    { cbn [bind]. rewrite insert_app_mid by assumption.
      apply Htail. apply length_insert. }
    destruct (decay_loop Pow (decay hk) fp (Z.to_nat incr) b m g) as [[b' m1] g1].
    cbn [bind]. rewrite insert_app_mid by assumption.
    apply Htail. apply length_insert.
Qed.

(** [Add] of topk.go and [Sample] do the same to the sketch: on a matrix
    whose rows have the same length, for an increment that is not zero,
    [Add] leaves the sketch, seen with its rows one after the other, and
    the random source as [Sample] leaves them, and panics where [Sample]
    panics, with the same message. *)
Theorem Add_agrees_with_Sample (hk : TopkGo.HeavyKeeper) (w : Z) (flow : string)
    (incr : Z) (g : Rand) :
  Forall (fun row : list bucket => Z.of_nat (length row) = w) (TopkGo.buckets hk) ->
  incr <> 0 ->
  outcome_map (fun '(hk', g') => (flatten w hk', g'))
    (TopkGo.Add ChecksumString32S Pow hk flow incr g)
  = outcome_map (fun '(_, hk', g') => (hk', g'))
      (Sample ChecksumString32S Pow (flatten w hk) flow incr g).
Proof.
  intros Hrows Hincr. unfold TopkGo.Add, Sample, Sample_matrix.
  destruct (Z.eqb_spec incr 0) as [|_]; [contradiction|].
  cbn [flatten heap depth buckets decay width].
  destruct (Min (TopkGo.heap hk)) as [heapMin|msg]; [|reflexivity]. cbn [bind].
  rewrite Nat2Z.id.
  pose proof (Sample_rows_flat (flatten w hk) flow (fingerprint ChecksumString32S flow)
                incr (TopkGo.buckets hk) 0 [] 0 g Hrows ltac:(lia) eq_refl) as E.
  cbn [app flatten decay] in E.
  rewrite E. clear E.
  destruct (TopkGo.Add_rows _ _ _ _ _ _ _ _ _ _) as [[[rows' m'] g']|msg] eqn:EA;
    [|reflexivity].
  cbn [bind outcome_map].
  destruct (Sample_heap (TopkGo.heap hk) flow m' heapMin) as [h' a].
  cbn [bind outcome_map]. unfold flatten.
  cbn [TopkGo.decay TopkGo.buckets TopkGo.heap].
  rewrite (Add_rows_length _ _ _ _ _ _ _ _ _ _ _ EA). reflexivity.
Qed.

End Variants.

(** [New] of topk.go, which allocates one slice per row, builds the sketch
    that [New] builds with the single slice, and panics on the same
    arguments with the same message. *)
Theorem New_variants_agree (Log : float64 -> float64) (k : Z) (d : float64) :
  outcome_map (flatten (New_width Log k)) (TopkGo.New Log k d) = New Log k d.
Proof.
  unfold TopkGo.New, New, New_width.
  destruct (k <? 1); [reflexivity|].
  destruct (f64_leb d f64_zero || f64_ltb f64_one d); [reflexivity|].
  set (w0 := int_of_float64 (f64_mul (float64_of_int k) (Log (float64_of_int k)))).
  set (d0 := int_of_float64 (Log (float64_of_int k))).
  cbn [outcome_map bind]. unfold flatten.
  cbn [TopkGo.decay TopkGo.buckets TopkGo.heap].
  assert (Hw : Z.max 256 w0 = if w0 <? 256 then 256 else w0)
    by (destruct (Z.ltb_spec w0 256); lia).
  rewrite Hw. clear Hw.
  set (w := if w0 <? 256 then 256 else w0).
  set (dp := if d0 <? 3 then 3 else d0).
  assert (Hwpos : 256 <= w) by (unfold w; destruct (Z.ltb_spec w0 256); lia).
  assert (Hdpos : 3 <= dp) by (unfold dp; destruct (Z.ltb_spec d0 3); lia).
  rewrite length_fmap, length_replicate, Z2Nat.id by lia.
  rewrite concat_replicate_const, <- Z2Nat.inj_mul by lia. reflexivity.
Qed.

(** [Top], which copies the heap into a fresh slice of its length, and
    [TopInto], which appends it to the emptied buffer, return the same
    entries whatever the buffer holds; [Reset] of topk.go, row by row, and
    [Reset] on the single slice leave the same sketch. *)
Theorem Top_Reset_variants_agree (hk : TopkGo.HeavyKeeper) (w : Z)
    (top : list FlowCount) :
  fst (TopInto (flatten w hk) top) = TopkGo.Top hk /\
  flatten w (TopkGo.Reset hk) = Reset (flatten w hk).
Proof.
  split.
  - rewrite TopInto_eq. unfold TopkGo.Top. cbn [fst flatten heap].
    rewrite copy_fresh. reflexivity.
  - unfold flatten, TopkGo.Reset, Reset.
    cbn [TopkGo.decay TopkGo.buckets TopkGo.heap decay depth width buckets heap].
    rewrite length_fmap, concat_fmap_const. reflexivity.
Qed.

(** ** [Min], [Top] and [Count] together, and the random source *)

(** [Min] indexes the root: it panics on the empty heap (it does not
    answer 0), and on a heap in heap order it returns a count of the heap
    that no count of the heap is below. *)
Theorem Min_least_or_panics (h : minHeap) :
  (h = [] -> Min h = Panic "runtime error: index out of range") /\
  (h <> [] -> is_heap h ->
   exists c, Min h = Ret c /\ c ∈ (Count <$> h) /\ Forall (fun e => c <= Count e) h).
Proof.
  split.
  - intros ->. reflexivity.
  - intros Hne Hheap. destruct h as [|e0 h0]; [congruence|].
    exists (Count e0). split; [reflexivity|]. split.
    + rewrite fmap_cons. apply list_elem_of_here.
    + apply Forall_lookup. intros j e He.
      pose proof (is_heap_root_min _ j Hheap (lookup_lt_Some _ _ _ He)) as Hmin.
      unfold cnt in Hmin. rewrite (list_lookup_total_correct _ _ _ He) in Hmin.
      exact Hmin.
Qed.

(** What [Top] lists, [Count] reports: on a tracker of distinct flows, for
    every entry of the result of [Top] whose flow is not the empty string,
    [Count] answers with the count of that entry. *)
Theorem Top_consistent_with_Count (hk : HeavyKeeper) (e : FlowCount) :
  distinct_flows (heap hk) -> Flow e <> EmptyString -> e ∈ fst (Top hk) ->
  HeavyKeeper_Count hk (Flow e) = (Count e, true).
Proof.
  intros Hdist Hflow He. apply Top_elements in He as [Hin _].
  unfold HeavyKeeper_Count. apply Count_loop_unique.
  - apply list_elem_of_fmap. exists e. split; [reflexivity|exact Hin].
  - intros e' He' Hf.
    assert (e' = e) as ->; [|reflexivity].
    apply (at_most_one (fun y => Flow y = Flow e) (heap hk)); try assumption;
      try reflexivity.
    apply Hdist. exact Hflow.
Qed.

Section Draws.

Variable ChecksumString32S : string -> Z -> Z.
Variable Pow : float64 -> float64 -> float64.

Lemma decay_units_draws dec fp n b g b' o g' :
  decay_units Pow dec fp n b g b' o g' ->
  draws g' = draws g /\ (pos g <= pos g' <= pos g + n)%nat.
Proof.
  induction 1 as [b g|n b g b' o g' _ _ [IHd IHp]|n b g b' o g' _ _ _ [IHd IHp]|n b g _ _];
    cbn [rand_Float64 snd draws pos] in *; (split; [first [reflexivity|exact IHd]|lia]).
Qed.

Lemma row_update_draws dec fp incr b g b' o g' :
  row_update Pow dec fp incr b g b' o g' ->
  draws g' = draws g /\ (pos g <= pos g' <= pos g + Z.to_nat incr)%nat /\
  (count b = 0 \/ bucket_fingerprint b = fp -> g' = g).
Proof.
  intros [b0 g0 Hc|b0 g0 Hc Hf|b0 g0 b1 o1 g1 Hc Hf Hunits].
  - repeat split; lia.
  - repeat split; lia.
  - destruct (decay_units_draws _ _ _ _ _ _ _ _ Hunits) as [Hd Hp].
    split; [exact Hd|]. split; [exact Hp|]. intros [Hz|Hfp]; contradiction.
Qed.

(** [Sample] reads the random source and nothing else of it: the sequence
    of draws is the one before the call, and at most [depth * incr] numbers
    are drawn, a row drawing at most [incr], and none when the cell it
    selects is empty or holds the fingerprint of the flow. *)
Theorem Sample_draws_bounded (hk : HeavyKeeper) (flow : string) (incr : Z) (g : Rand)
    (admitted : bool) (hk' : HeavyKeeper) (g' : Rand) :
  wf hk -> is_u32 incr ->
  Sample ChecksumString32S Pow hk flow incr g = Ret (admitted, hk', g') ->
  draws g' = draws g /\
  Z.of_nat (pos g) <= Z.of_nat (pos g') <= Z.of_nat (pos g) + depth hk * incr /\
  ((forall i, Z.of_nat i < depth hk ->
      let b := buckets hk !!! cell_index ChecksumString32S hk flow i in
      count b = 0 \/ bucket_fingerprint b = fingerprint ChecksumString32S flow) ->
   g' = g).
Proof.
  intros Hwf Hincr HS. pose proof Hwf as (Hd & _).
  destruct (Sample_step ChecksumString32S Pow hk flow incr g Hwf Hincr)
    as (bs & g1 & gen & out & h' & _ & _ & _ & Hg0 & Hgn & Hrows & HS' & _).
  cbv zeta in HS'. rewrite HS' in HS. injection HS as _ _ <-.
  assert (Hchain : forall i, (i <= Z.to_nat (depth hk))%nat ->
            draws (gen i) = draws g /\
            Z.of_nat (pos g) <= Z.of_nat (pos (gen i))
              <= Z.of_nat (pos g) + Z.of_nat i * incr).
  { induction i as [|i IH]; intros Hi.
    - rewrite Hg0. split; [reflexivity|lia].
    - destruct (IH ltac:(lia)) as [Hdr Hp].
      destruct (row_update_draws _ _ _ _ _ _ _ _ (Hrows i ltac:(lia))) as (Hdr' & Hp' & _).
      unfold is_u32 in Hincr. split; [congruence|]. nia. }
  destruct (Hchain (Z.to_nat (depth hk)) (Nat.le_refl _)) as [Hdr Hp].
  rewrite Hgn in Hdr, Hp. rewrite Z2Nat.id in Hp by exact Hd.
  split; [exact Hdr|]. split; [exact Hp|].
  intros Hcells. rewrite <- Hgn, <- Hg0.
  assert (Hsame : forall i, (i <= Z.to_nat (depth hk))%nat -> gen i = gen 0%nat).
  { induction i as [|i IH]; intros Hi; [reflexivity|].
    destruct (row_update_draws _ _ _ _ _ _ _ _ (Hrows i ltac:(lia))) as (_ & _ & Hg).
    rewrite Hg; [apply IH; lia|]. apply (Hcells i). lia. }
  apply Hsame. lia.
Qed.

End Draws.

(** * Closed instances of the further properties *)

(** Distinct flows, from a list without duplicates. *)
Lemma distinct_flows_NoDup (h : minHeap) :
  NoDup (filter (fun s => s <> EmptyString) (Flow <$> h)) -> distinct_flows h.
Proof.
  intros Hnd f Hf. induction h as [|e h IH]; [cbn; lia|].
  rewrite fmap_cons, filter_cons in Hnd. rewrite filter_cons.
  destruct (decide (Flow e = f)) as [E|E].
  - rewrite decide_True in Hnd by congruence.
    apply NoDup_cons in Hnd as [Hnotin _].
    rewrite flow_filter_absent; [cbn [length]; lia|].
    intros Hin. apply Hnotin. apply list_elem_of_filter. split; congruence.
  - apply IH. destruct (decide (Flow e <> EmptyString)); [|exact Hnd].
    apply NoDup_cons in Hnd as [_ Hnd]. exact Hnd.
Qed.

Module FurtherExamples.

Import Instances Scenarios.

Local Open Scope string_scope.

Lemma Samples_reachable hk0 l : forall hk g bs hk' g',
  Forall (fun c : string * Z => is_u32 (snd c)) l ->
  Samples hk l g = Ret (bs, hk', g') ->
  reachable xxh32 pow hk0 hk -> reachable xxh32 pow hk0 hk'.
Proof.
  induction l as [|[flow incr] l IH]; intros hk g bs hk' g' Hl HS Hr.
  - cbn [Samples] in HS. injection HS as _ <- _. exact Hr.
  - apply Forall_cons in Hl as [Hincr Hl]. cbn [Samples] in HS.
    destruct (Sample xxh32 pow hk flow incr g) as [[[b hk1] g1]|msg] eqn:E;
      cbn [bind] in HS; [|discriminate].
    destruct (Samples hk1 l g1) as [[[bs2 hk2] g2]|msg] eqn:E2;
      cbn [bind] in HS; [|discriminate].
    injection HS as _ <- _.
    apply (IH hk1 g1 bs2 hk2 g2 Hl E2).
    exact (reach_Sample xxh32 pow hk0 hk flow incr g b hk1 g1 Hr Hincr E).
Qed.

Lemma before_h_distinct : distinct_flows (heap before_h).
Proof.
  apply distinct_flows_NoDup. by_evaluation.
Qed.

(** The flow ["e"] of TestDecayAll, with the count 50, after a decay of
    0.3. *)
Lemma Count_DecayAll_witness :
  in_unit_interval pct_03 /\
  HeavyKeeper_Count six_flows "e" = (50, true) /\
  HeavyKeeper_Count (DecayAll six_flows pct_03) "e" = (35, true).
Proof.
  assert (Hp : in_unit_interval pct_03) by (split; reflexivity).
  split; [exact Hp|]. split; [vm_compute; reflexivity|].
  rewrite (Count_DecayAll six_flows pct_03 "e" Hp). vm_compute. reflexivity.
Defined.

Lemma Sample_invariant_witness :
  wf before_h /\ is_u32 100 /\ is_heap (heap before_h) /\
  exists admitted hk' g',
    Sample xxh32 pow before_h "h" 100 draws_half = Ret (admitted, hk', g') /\
    wf hk' /\ is_heap (heap hk') /\ same_shape hk' before_h.
Proof.
  assert (Hwf : wf before_h) by (apply wfb_wf; vm_compute; reflexivity).
  assert (Hincr : is_u32 100) by (unfold is_u32; lia).
  assert (Hheap : is_heap (heap before_h)) by (apply is_heapb_is_heap; vm_compute; reflexivity).
  split; [exact Hwf|]. split; [exact Hincr|]. split; [exact Hheap|].
  exact (Sample_invariant xxh32 pow before_h "h" 100 draws_half Hwf Hincr Hheap).
Defined.

(** The sketch of TestHeavyKeeper, six samples after [New(5, 0.9)], then
    decayed and reset. *)
Lemma reachable_never_panics_witness :
  New log 5 decay_09 = Ret fresh5 /\ u32 (width fresh5) <> 0 /\
  reachable xxh32 pow fresh5 (Reset (DecayAll before_h pct_03)) /\
  wf (Reset (DecayAll before_h pct_03)) /\
  (forall flow incr g, is_u32 incr ->
     returns (Sample xxh32 pow (Reset (DecayAll before_h pct_03)) flow incr g)).
Proof.
  assert (HN : New log 5 decay_09 = Ret fresh5) by (vm_compute; reflexivity).
  assert (Hw : u32 (width fresh5) <> 0) by (vm_compute; discriminate).
  assert (Hr : reachable xxh32 pow fresh5 (Reset (DecayAll before_h pct_03))).
  { apply reach_Reset, reach_DecayAll.
    destruct (Samples fresh5
                [("c", 1); ("b", 5); ("a", 10); ("d", 25); ("f", 3); ("g", 20)]
                draws_half) as [[[bs hk'] g']|msg] eqn:E.
    - assert (Hl : Forall (fun c : string * Z => is_u32 (snd c))
                     [("c", 1); ("b", 5); ("a", 10); ("d", 25); ("f", 3); ("g", 20)])
        by (repeat constructor; cbn; lia).
      pose proof (Samples_reachable fresh5 _ _ _ _ _ _ Hl E
                    (reach_start xxh32 pow fresh5)) as Hreach.
      vm_compute in E. injection E as _ <- _. exact Hreach.
    - vm_compute in E. discriminate E. }
  split; [exact HN|]. split; [exact Hw|]. split; [exact Hr|].
  destruct (reachable_never_panics xxh32 log pow 5 decay_09 fresh5 _ HN Hw Hr)
    as (Hwf & _ & _ & _ & Hret).
  split; [exact Hwf|exact Hret].
Defined.

(** ["h"] with weight 100 is admitted by the sketch of TestHeavyKeeper and
    found there with the count 100. *)
Lemma Count_after_Sample_witness :
  wf before_h /\ is_u32 100 /\ distinct_flows (heap before_h) /\ "h" <> "" /\
  exists hk' g',
    Sample xxh32 pow before_h "h" 100 draws_half = Ret (true, hk', g') /\
    HeavyKeeper_Count hk' "h" = (100, true) /\
    mkFlowCount "h" 100 ∈ fst (Top hk').
Proof.
  assert (Hwf : wf before_h) by (apply wfb_wf; vm_compute; reflexivity).
  assert (Hincr : is_u32 100) by (unfold is_u32; lia).
  assert (Hflow : "h" <> "") by discriminate.
  split; [exact Hwf|]. split; [exact Hincr|]. split; [exact before_h_distinct|].
  split; [exact Hflow|].
  destruct (Sample xxh32 pow before_h "h" 100 draws_half) as [[[a hk'] g']|msg] eqn:E.
  - assert (Hv := E). vm_compute in Hv. injection Hv as <- _ _.
    exists hk', g'. split; [reflexivity|].
    destruct (Count_after_Sample xxh32 pow before_h "h" 100 draws_half hk' g'
                Hwf Hincr before_h_distinct Hflow E) as (bs & m & Hm & Hc & Htop).
    vm_compute in Hm. injection Hm as _ <- _.
    split; [exact Hc|]. apply Htop. lia.
  - vm_compute in E. discriminate E.
Defined.

Lemma first_Sample_on_fresh_witness :
  New log 5 decay_09 = Ret fresh5 /\ u32 (width fresh5) <> 0 /\ is_u32 7 /\ "a" <> "" /\
  exists hk',
    Sample xxh32 pow fresh5 "a" 7 draws_half = Ret (true, hk', draws_half) /\
    HeavyKeeper_Count hk' "a" = (7, true) /\
    fst (Top hk') = [mkFlowCount "a" 7].
Proof.
  assert (HN : New log 5 decay_09 = Ret fresh5) by (vm_compute; reflexivity).
  assert (Hw : u32 (width fresh5) <> 0) by (vm_compute; discriminate).
  assert (Hincr : is_u32 7) by (unfold is_u32; lia).
  assert (Hflow : "a" <> "") by discriminate.
  split; [exact HN|]. split; [exact Hw|]. split; [exact Hincr|]. split; [exact Hflow|].
  destruct (first_Sample_on_fresh xxh32 log pow 5 decay_09 fresh5 "a" 7 draws_half
              HN Hw Hincr Hflow) as (hk' & HS & _ & Hc & Htop).
  exists hk'. split; [exact HS|]. split; [exact Hc|]. apply Htop. lia.
Defined.

(** An occupant of count 2 under three units, each draw one half and the
    decay 0.9: the first two units hit, and the flow takes the cell with
    the count 2, after two draws. *)
Lemma decay_loop_bounds_witness :
  0 < count (mkBucket 9 2) < 2 ^ 32 /\
  decay_loop pow decay_09 7 3 (mkBucket 9 2) 0 draws_half
    = (mkBucket 7 2, 2, mkRand (draws draws_half) 2) /\
  exists c, mkBucket 7 2 = mkBucket 7 c /\ 1 <= c /\ 2 + c <= 3 + 1.
Proof.
  assert (Hb : 0 < count (mkBucket 9 2) < 2 ^ 32) by (cbn; lia).
  assert (E : decay_loop pow decay_09 7 3 (mkBucket 9 2) 0 draws_half
              = (mkBucket 7 2, 2, mkRand (draws draws_half) 2))
    by (vm_compute; reflexivity).
  split; [exact Hb|]. split; [exact E|].
  destruct (decay_loop_bounds pow decay_09 7 3 (mkBucket 9 2) 0 draws_half _ _ _ Hb E)
    as [_ [(Hf & _)|(c & Hc & _ & Hc1 & Hc2 & _)]].
  - cbn in Hf. discriminate Hf.
  - exists c. cbn [count] in Hc2. split; [exact Hc|]. split; [exact Hc1|]. lia.
Defined.

(** The counts of the sketch of TestHeavyKeeper are at most 25; after
    ["h"] with weight 100 they are at most 125. *)
Lemma Sample_counts_bounded_witness :
  wf before_h /\ is_u32 100 /\ 0 <= 25 /\
  Forall (fun b => count b <= 25) (buckets before_h) /\
  Forall (fun e => Count e <= 25) (heap before_h) /\
  exists admitted hk' g',
    Sample xxh32 pow before_h "h" 100 draws_half = Ret (admitted, hk', g') /\
    Forall (fun b => count b <= 25 + 100) (buckets hk') /\
    Forall (fun e => Count e <= 25 + 100) (heap hk').
Proof.
  assert (Hwf : wf before_h) by (apply wfb_wf; vm_compute; reflexivity).
  assert (Hincr : is_u32 100) by (unfold is_u32; lia).
  assert (HT : 0 <= 25) by lia.
  assert (Hb : Forall (fun b => count b <= 25) (buckets before_h))
    by by_evaluation.
  assert (Hh : Forall (fun e => Count e <= 25) (heap before_h))
    by by_evaluation.
  split; [exact Hwf|]. split; [exact Hincr|]. split; [exact HT|].
  split; [exact Hb|]. split; [exact Hh|].
  destruct (Sample xxh32 pow before_h "h" 100 draws_half) as [[[a hk'] g']|msg] eqn:E.
  - exists a, hk', g'. split; [reflexivity|].
    exact (Sample_counts_bounded xxh32 pow before_h "h" 100 draws_half 25 a hk' g'
             Hwf Hincr HT Hb Hh E).
  - vm_compute in E. discriminate E.
Defined.

(** [Add("a", 3)] on the rows of [New(5, 0.9)] of topk.go and
    [Sample("a", 3)] on the single slice. *)
Lemma Add_agrees_with_Sample_witness :
  Forall (fun row : list bucket => Z.of_nat (length row) = 256)
    (TopkGo.buckets fresh5_rows) /\
  3 <> 0 /\
  flatten 256 fresh5_rows = fresh5 /\
  outcome_map (fun '(hk', g') => (flatten 256 hk', g'))
    (TopkGo.Add xxh32 pow fresh5_rows "a" 3 draws_half)
  = outcome_map (fun '(_, hk', g') => (hk', g'))
      (Sample xxh32 pow fresh5 "a" 3 draws_half).
Proof.
  assert (Hrows : Forall (fun row : list bucket => Z.of_nat (length row) = 256)
                    (TopkGo.buckets fresh5_rows))
    by (repeat constructor).
  assert (Hincr : 3 <> 0) by lia.
  split; [exact Hrows|]. split; [exact Hincr|]. split; [vm_compute; reflexivity|].
  exact (Add_agrees_with_Sample xxh32 pow fresh5_rows 256 "a" 3 draws_half Hrows Hincr).
Defined.

(** ["h"] with weight 100 on the sketch of TestHeavyKeeper draws one
    number. *)
Lemma Sample_draws_bounded_witness :
  wf before_h /\ is_u32 100 /\
  exists admitted hk' g',
    Sample xxh32 pow before_h "h" 100 draws_half = Ret (admitted, hk', g') /\
    draws g' = draws draws_half /\
    Z.of_nat (pos draws_half) <= Z.of_nat (pos g')
      <= Z.of_nat (pos draws_half) + depth before_h * 100.
Proof.
  assert (Hwf : wf before_h) by (apply wfb_wf; vm_compute; reflexivity).
  assert (Hincr : is_u32 100) by (unfold is_u32; lia).
  split; [exact Hwf|]. split; [exact Hincr|].
  destruct (Sample xxh32 pow before_h "h" 100 draws_half) as [[[a hk'] g']|msg] eqn:E.
  - exists a, hk', g'. split; [reflexivity|].
    destruct (Sample_draws_bounded xxh32 pow before_h "h" 100 draws_half a hk' g'
                Hwf Hincr E) as (Hd & Hp & _).
    split; [exact Hd|exact Hp].
  - vm_compute in E. discriminate E.
Defined.

(** ["d"], the first entry of [Top] on the sketch of TestHeavyKeeper. *)
Lemma Top_consistent_with_Count_witness :
  distinct_flows (heap before_h) /\ Flow (mkFlowCount "d" 25) <> "" /\
  mkFlowCount "d" 25 ∈ fst (Top before_h) /\
  HeavyKeeper_Count before_h "d" = (25, true).
Proof.
  assert (Hflow : Flow (mkFlowCount "d" 25) <> "") by discriminate.
  assert (Hin : mkFlowCount "d" 25 ∈ fst (Top before_h)).
  { apply list_elem_of_In. vm_compute. left. reflexivity. }
  split; [exact before_h_distinct|]. split; [exact Hflow|]. split; [exact Hin|].
  exact (Top_consistent_with_Count before_h (mkFlowCount "d" 25)
           before_h_distinct Hflow Hin).
Defined.

End FurtherExamples.
